(** * FiraMath build script: smart-component decomposition and MATH table data

    A shallow embedding of [scripts/build.py]: the [Font] class (smart
    component resolution, the component decomposer, the per-style metric
    interpolation) and the part of [MathTable] that encodes glyph
    constructions and glyph assemblies.

    Conventions of the embedding.
    - Numbers are modelled twice.  In the model of the font, of the TOML
      document and of the tables a number is a rational [Q] and the
      arithmetic is exact; this reading carries the properties that hold
      whatever the rounding of a sum or a product is: the structure of the
      results, the errors, what is copied and what is computed, the ends
      of an axis, bounds that correct rounding keeps.  The functions that
      compute numbers ([_generate], [_rescale], [_interpolate_node],
      [_interpolate_path], [_variant]) are modelled a second time in the
      module [Machine] with the numbers of the interpreter: an [int] of
      any size or an IEEE 754 double, the operations of [SpecFloat] at
      precision 53, [sum] adding from the left as CPython does up to
      version 3.11, [OverflowError] and [ValueError] where CPython raises
      them.  What a computation returns is stated for the functions of
      [Machine].
    - Results of [round] are integers [Z], injected back with [inject_Z]
      where the exact reading stores them next to rationals.
    - A Python [dict] is an insertion-ordered association list.
    - A raised exception is the [Raise] branch of [result]; only the class
      of the exception is recorded.
    - Objects mutated in place ([GSLayer._shapes]) live in the font value
      that is threaded through the decomposer; a layer is addressed by the
      position of its glyph and its own position inside the glyph. *)

From Stdlib Require Import List String Ascii Bool Arith ZArith QArith Qround Lia.
From Stdlib Require Import Lqa Permutation Sorted.
From Stdlib Require Import SpecFloat Qabs.
Import ListNotations.

Local Open Scope string_scope.
Local Open Scope list_scope.
Local Open Scope Z_scope.

(** ** Python runtime notions *)

Inductive exn : Type :=
| StopIteration
| ValueError
| KeyError
| IndexError
| AttributeError
| TypeError
| ZeroDivisionError
| RuntimeError
| OverflowError.

Inductive result (A : Type) : Type :=
| Ok (a : A)
| Raise (e : exn).

Arguments Ok {A} a.
Arguments Raise {A} e.

Definition bind {A B : Type} (m : result A) (k : A -> result B) : result B :=
  match m with
  | Ok a => k a
  | Raise e => Raise e
  end.

Notation "x <- m ;; k" := (bind m (fun x => k))
  (at level 61, m at next level, right associativity).

(** [[f(x) for x in l]] with a body that may raise. *)
Fixpoint mapM {A B : Type} (f : A -> result B) (l : list A) : result (list B) :=
  match l with
  | [] => Ok []
  | x :: r => y <- f x ;; ys <- mapM f r ;; Ok (y :: ys)
  end.

(** A [for] loop that threads a state and may raise. *)
Fixpoint foldM {A S : Type} (f : S -> A -> result S) (l : list A) (s : S) : result S :=
  match l with
  | [] => Ok s
  | x :: r => s' <- f s x ;; foldM f r s'
  end.

(** [next(x for x in l if p(x))], the test itself may raise. *)
Fixpoint next_where {A : Type} (p : A -> result bool) (l : list A) : result A :=
  match l with
  | [] => Raise StopIteration
  | x :: r => b <- p x ;; if b then Ok x else next_where p r
  end.

(** [l[i]] for a non-negative index. *)
Definition py_index {A : Type} (l : list A) (i : nat) : result A :=
  match nth_error l i with
  | Some x => Ok x
  | None => Raise IndexError
  end.

(** Python's [round] with one argument: nearest integer, ties to even. *)
Definition py_round (x : Q) : Z :=
  let f := Qfloor x in
  match Qcompare (x - inject_Z f) (1 # 2) with
  | Lt => f
  | Gt => f + 1
  | Eq => if Z.even f then f else f + 1
  end.

(** [sum(gen)]: starts from 0 and adds from the left. *)
Definition py_sum (l : list Q) : Q := fold_left Qplus l (0 # 1)%Q.

(** ** Dictionaries *)

Definition dict (V : Type) : Type := list (string * V).

Fixpoint dict_get {V : Type} (d : dict V) (k : string) : option V :=
  match d with
  | [] => None
  | (k', v) :: r => if String.eqb k' k then Some v else dict_get r k
  end.

(** [d[k] = v]: replaces the value of an existing key in place, appends a
    new key at the end. *)
Fixpoint dict_set {V : Type} (d : dict V) (k : string) (v : V) : dict V :=
  match d with
  | [] => [(k, v)]
  | (k', v') :: r => if String.eqb k' k then (k', v) :: r else (k', v') :: dict_set r k v
  end.

Definition dict_keys {V : Type} (d : dict V) : list string := map fst d.

(** [d[k]], raising [KeyError] on a missing key. *)
Definition dict_item {V : Type} (d : dict V) (k : string) : result V :=
  match dict_get d k with
  | Some v => Ok v
  | None => Raise KeyError
  end.

(** [{k: v for ...}] from the produced items, in order. *)
Definition dict_of_items {V : Type} (items : list (string * V)) : dict V :=
  fold_left (fun d kv => dict_set d (fst kv) (snd kv)) items [].

(** [k in l] for a list of strings. *)
Definition str_in (k : string) (l : list string) : bool :=
  existsb (String.eqb k) l.

(** ** Glyphs source model (the attributes of [glyphsLib] that the script reads) *)

Record Point : Type := mkPoint { px : Q; py : Q }.

Record GSNode : Type := mkNode {
  position : Point;
  node_type : string;
  smooth : bool
}.

Record GSPath : Type := mkPath {
  closed : bool;
  nodes : list GSNode
}.

(** The six numbers of a component's placement matrix. *)
Record Transform : Type := mkTransform {
  t_xx : Q; t_xy : Q; t_yx : Q; t_yy : Q; t_dx : Q; t_dy : Q
}.

Record GSComponent : Type := mkComponent {
  comp_name : string;
  transform : Transform;
  smartComponentValues : dict Q
}.

Inductive GSShape : Type :=
| SPath (p : GSPath)
| SComp (c : GSComponent).

Record GSSmartComponentAxis : Type := mkAxis {
  axis_name : string;
  bottomValue : Q;
  topValue : Q
}.

Record GSLayer : Type := mkLayer {
  layerId : string;
  associatedMasterId : string;
  partSelection : dict Z;
  _shapes : list GSShape;
  userData : list (dict Q)
}.

Record GSGlyph : Type := mkGlyph {
  glyph_name : string;
  export : bool;
  smartComponentAxes : list GSSmartComponentAxis;
  layers : list GSLayer
}.

Record GSFontMaster : Type := mkMaster {
  master_id : string;
  weightValue : Q
}.

Record GSInstance : Type := mkInstance {
  instance_name : string;
  active : bool;
  instanceInterpolations : dict Q;
  remove_glyphs_param : option (list string)
}.

Record GSFont : Type := mkGSFont {
  masters : list GSFontMaster;
  instances : list GSInstance;
  glyphs : list GSGlyph
}.

(** [layer.paths] and [layer.components]: the two views of [_shapes]. *)
Definition layer_paths (l : GSLayer) : list GSPath :=
  flat_map (fun s => match s with SPath p => [p] | SComp _ => [] end) (_shapes l).

Definition layer_components (l : GSLayer) : list GSComponent :=
  flat_map (fun s => match s with SPath _ => [] | SComp c => [c] end) (_shapes l).

(** [font.glyphs[name]]: the first glyph of that name, [None] when absent. *)
Definition glyph_by_name (f : GSFont) (name : string) : option GSGlyph :=
  find (fun g => String.eqb (glyph_name g) name) (glyphs f).

(** Attribute access on the possibly-[None] glyph. *)
Definition deref (g : option GSGlyph) : result GSGlyph :=
  match g with
  | Some g => Ok g
  | None => Raise AttributeError
  end.

(** [update_nth l i u]: the list with its [i]-th element replaced by its
    image under [u]; the in-place mutation of the object stored there. *)
Fixpoint update_nth {A : Type} (l : list A) (i : nat) (u : A -> A) : list A :=
  match l, i with
  | [], _ => []
  | x :: r, O => u x :: r
  | x :: r, S j => x :: update_nth r j u
  end.

Definition set_layers (g : GSGlyph) (ls : list GSLayer) : GSGlyph :=
  mkGlyph (glyph_name g) (export g) (smartComponentAxes g) ls.

Definition set_glyphs (f : GSFont) (gs : list GSGlyph) : GSFont :=
  mkGSFont (masters f) (instances f) gs.

Definition set_shapes (l : GSLayer) (ss : list GSShape) : GSLayer :=
  mkLayer (layerId l) (associatedMasterId l) (partSelection l) ss (userData l).

(** The layer at position [li] of the glyph at position [gi]. *)
Definition get_layer (f : GSFont) (gi li : nat) : option GSLayer :=
  match nth_error (glyphs f) gi with
  | Some g => nth_error (layers g) li
  | None => None
  end.

Definition update_layer (f : GSFont) (gi li : nat) (u : GSLayer -> GSLayer) : GSFont :=
  set_glyphs f (update_nth (glyphs f) gi (fun g => set_layers g (update_nth (layers g) li u))).

(** [layer.paths.extend(paths)]: the new paths go to the end of [_shapes]. *)
Definition extend_paths (paths : list GSPath) (l : GSLayer) : GSLayer :=
  set_shapes l (_shapes l ++ map SPath paths).

(** Comparison used by [s not in to_be_removed].  A path never equals a
    component.  Whether components are compared by identity or by
    contents, a shape is dropped exactly when it is a component the loop
    put into [to_be_removed], because the loop selects components by their
    contents alone. *)
Definition Q_eqb (a b : Q) : bool := Qeq_bool a b.

Definition transform_eqb (a b : Transform) : bool :=
  Q_eqb (t_xx a) (t_xx b) && Q_eqb (t_xy a) (t_xy b) && Q_eqb (t_yx a) (t_yx b) &&
  Q_eqb (t_yy a) (t_yy b) && Q_eqb (t_dx a) (t_dx b) && Q_eqb (t_dy a) (t_dy b).

Fixpoint values_eqb (a b : dict Q) : bool :=
  match a, b with
  | [], [] => true
  | (k, v) :: a', (k', v') :: b' => String.eqb k k' && Q_eqb v v' && values_eqb a' b'
  | _, _ => false
  end.

Definition comp_eqb (a b : GSComponent) : bool :=
  String.eqb (comp_name a) (comp_name b) &&
  transform_eqb (transform a) (transform b) &&
  values_eqb (smartComponentValues a) (smartComponentValues b).

Definition shape_in (s : GSShape) (to_be_removed : list GSComponent) : bool :=
  match s with
  | SPath _ => false
  | SComp c => existsb (comp_eqb c) to_be_removed
  end.

(** ** class Font: smart components *)

Record Size : Type := mkSize { width : Q; height : Q }.

Section FontClass.

(** [GSPath.applyTransform] and [GSLayer.bounds] belong to glyphsLib. *)
Variable applyTransform : Transform -> GSPath -> GSPath.
Variable bounds_size : GSLayer -> option Size.

Definition _is_smart_glyph (glyph : GSGlyph) : bool :=
  match smartComponentAxes glyph with
  | [] => false
  | _ :: _ => true
  end.

(** [comp.component] is looked up by name in the font as it is now. *)
Definition _is_smart_component (f : GSFont) (comp : GSComponent) : result bool :=
  g <- deref (glyph_by_name f (comp_name comp)) ;;
  Ok (_is_smart_glyph g).

(** The blend factor and the blend, in the exact reading; [Machine._rescale]
    and [Machine._interpolate_node] are the same lines in the arithmetic of
    the interpreter. *)
Definition _rescale (x bottom top : Q) : result Q :=
  if Qeq_bool (top - bottom) 0 then Raise ZeroDivisionError
  else Ok ((x - bottom) / (top - bottom))%Q.

Definition _interpolate_node (node_0 node_1 : GSNode) (value : Q) : GSNode :=
  mkNode
    (mkPoint
       (inject_Z (py_round (px (position node_0) * (1 - value) + px (position node_1) * value)))
       (inject_Z (py_round (py (position node_0) * (1 - value) + py (position node_1) * value))))
    (node_type node_0)
    (smooth node_0).

(** [zip] stops at the end of the shorter list, as [combine] does. *)
Definition _interpolate_path (path_0 path_1 : GSPath) (value : Q) : GSPath :=
  mkPath (closed path_0)
    (map (fun nn => _interpolate_node (fst nn) (snd nn) value)
         (combine (nodes path_0) (nodes path_1))).

(** The two [_is_part_n] closures. [and] does not evaluate its right
    operand when the master ids differ.  They are called inside a generator
    expression, where the [StopIteration] of [next(iter(...))] on an empty
    dict surfaces as [RuntimeError]. *)
Definition _is_part_n_first_key (master : string) (n : Z) (layer : GSLayer) : result bool :=
  if String.eqb (associatedMasterId layer) master then
    match dict_keys (partSelection layer) with
    | [] => Raise RuntimeError
    | k :: _ => v <- dict_item (partSelection layer) k ;; Ok (Z.eqb v n)
    end
  else Ok false.

Definition _is_part_n_key (master key : string) (n : Z) (layer : GSLayer) : result bool :=
  if String.eqb (associatedMasterId layer) master then
    v <- dict_item (partSelection layer) key ;; Ok (Z.eqb v n)
  else Ok false.

(** Lines 128-133: the loop over the zipped paths of the two layers. *)
Definition interpolate_layers (layer_0 layer_1 : GSLayer) (value : Q) (t : Transform)
  : list GSPath :=
  map (fun pp => applyTransform t (_interpolate_path (fst pp) (snd pp) value))
      (combine (layer_paths layer_0) (layer_paths layer_1)).

(** [parent] is [comp.parent], the layer that holds the component. *)
Definition _smart_component_to_paths (f : GSFont) (parent : GSLayer) (comp : GSComponent)
  : result (list GSPath) :=
  let values := smartComponentValues comp in
  let master := associatedMasterId parent in
  let ref_glyph := glyph_by_name f (comp_name comp) in
  sel <- match values with
         | [] => Ok ((0 # 1)%Q, _is_part_n_first_key master)
         | [(key, value)] =>
             g <- deref ref_glyph ;;
             axis <- next_where (fun a => Ok (String.eqb (axis_name a) key))
                                (smartComponentAxes g) ;;
             v <- _rescale value (bottomValue axis) (topValue axis) ;;
             Ok (v, _is_part_n_key master key)
         | _ :: _ :: _ => Raise ValueError
         end ;;
  g <- deref ref_glyph ;;
  layer_0 <- next_where (snd sel 1) (layers g) ;;
  layer_1 <- next_where (snd sel 2) (layers g) ;;
  Ok (interpolate_layers layer_0 layer_1 (fst sel) (transform comp)).

Definition _component_to_paths (f : GSFont) (parent : GSLayer) (comp : GSComponent)
  : result (list GSPath) :=
  g <- deref (glyph_by_name f (comp_name comp)) ;;
  layer <- next_where (fun l => Ok (String.eqb (layerId l) (associatedMasterId parent)))
                      (layers g) ;;
  Ok (map (fun path =>
             applyTransform (transform comp)
               (mkPath (closed path)
                  (map (fun n => mkNode (position n) (node_type n) (smooth n)) (nodes path))))
          (layer_paths layer)).

(** ** The component decomposer *)

(** What one iteration of the inner loop does with a component: [Some paths]
    when the component is expanded and queued for removal, [None] when the
    loop body skips it. *)
Definition expand_in_smart_glyph (f : GSFont) (parent : GSLayer) (comp : GSComponent)
  : result (option (list GSPath)) :=
  smart <- _is_smart_component f comp ;;
  paths <- (if smart then _smart_component_to_paths f parent comp
            else _component_to_paths f parent comp) ;;
  Ok (Some paths).

Definition expand_in_plain_glyph (f : GSFont) (parent : GSLayer) (comp : GSComponent)
  : result (option (list GSPath)) :=
  match smartComponentValues comp with
  | [] => Ok None
  | _ :: _ => paths <- _smart_component_to_paths f parent comp ;; Ok (Some paths)
  end.

Definition expander : Type := GSFont -> GSLayer -> GSComponent -> result (option (list GSPath)).

(** One component of the layer at [(gi, li)]: the state is the font and the
    [to_be_removed] list. *)
Definition decompose_comp (expand : expander) (gi li : nat) (parent : GSLayer)
    (st : GSFont * list GSComponent) (comp : GSComponent)
  : result (GSFont * list GSComponent) :=
  r <- expand (fst st) parent comp ;;
  match r with
  | Some paths => Ok (update_layer (fst st) gi li (extend_paths paths), snd st ++ [comp])
  | None => Ok st
  end.

(** The body of [for layer in glyph.layers]. *)
Definition decompose_layer (expand : expander) (gi : nat) (f : GSFont) (li : nat)
  : result GSFont :=
  match get_layer f gi li with
  | None => Ok f
  | Some layer =>
      st <- foldM (decompose_comp expand gi li layer) (layer_components layer) (f, []) ;;
      Ok (update_layer (fst st) gi li
            (fun l => set_shapes l (filter (fun s => negb (shape_in s (snd st))) (_shapes l))))
  end.

(** One pass: [for glyph in filter(select, self.font.glyphs)]. *)
Definition decompose_glyph (select : GSGlyph -> bool) (expand : expander)
    (f : GSFont) (gi : nat) : result GSFont :=
  match nth_error (glyphs f) gi with
  | None => Ok f
  | Some glyph =>
      if select glyph
      then foldM (decompose_layer expand gi) (seq 0 (List.length (layers glyph))) f
      else Ok f
  end.

Definition decompose_pass (select : GSGlyph -> bool) (expand : expander) (f : GSFont)
  : result GSFont :=
  foldM (decompose_glyph select expand) (seq 0 (List.length (glyphs f))) f.

Definition _decompose_smart_comp (f : GSFont) : result GSFont :=
  f1 <- decompose_pass _is_smart_glyph expand_in_smart_glyph f ;;
  decompose_pass (fun g => negb (_is_smart_glyph g)) expand_in_plain_glyph f1.

(** ** class Font: master data for the MATH table *)

Record Font : Type := mkFont {
  font : GSFont;
  _masters_num : nat;
  _master_id_indices : dict nat;
  interpolations : dict (list (nat * Q))
}.

(** [sorted(xs, key=...)] on already computed keys: stable insertion sort. *)
Fixpoint insert_by_key {K A : Type} (leb : K -> K -> bool) (x : K * A) (l : list (K * A))
  : list (K * A) :=
  match l with
  | [] => [x]
  | y :: r => if leb (fst x) (fst y) then x :: y :: r else y :: insert_by_key leb x r
  end.

Definition sort_by_key {K A : Type} (leb : K -> K -> bool) (l : list (K * A)) : list A :=
  map snd (fold_right (insert_by_key leb) [] l).

Definition enumerate {A : Type} (l : list A) : list (nat * A) :=
  combine (seq 0 (List.length l)) l.

(** [Font.__init__] after the package has been loaded into a [GSFont]. *)
Definition Font_init (gsfont : GSFont) : result Font :=
  let sorted_masters :=
    sort_by_key Qle_bool (map (fun m => (weightValue m, m)) (masters gsfont)) in
  let indices :=
    dict_of_items (map (fun im => (master_id (snd im), fst im)) (enumerate sorted_masters)) in
  interps <- mapM (fun i =>
                     l <- mapM (fun kv => idx <- dict_item indices (fst kv) ;;
                                          Ok (idx, snd kv))
                               (instanceInterpolations i) ;;
                     Ok (instance_name i, l))
                  (filter active (instances gsfont)) ;;
  decomposed <- _decompose_smart_comp gsfont ;;
  Ok (mkFont decomposed (List.length sorted_masters) indices (dict_of_items interps)).

Definition _master_layers (F : Font) (ls : list GSLayer) : result (list GSLayer) :=
  keyed <- mapM (fun l => k <- dict_item (_master_id_indices F) (associatedMasterId l) ;;
                          Ok (k, l))
                (filter (fun l => String.eqb (associatedMasterId l) (layerId l)) ls) ;;
  Ok (sort_by_key Nat.leb keyed).

Definition has_key {V : Type} (name : string) (d : dict V) : bool :=
  match dict_get d name with Some _ => true | None => false end.

(** One master layer's contribution to [_get_user_data]: the value under
    [name] in the first user-data entry that has it, nothing otherwise. *)
Definition layer_user_data (name : string) (layer : GSLayer) : list Q :=
  match find (has_key name) (userData layer) with
  | Some data => match dict_get data name with Some v => [v] | None => [] end
  | None => []
  end.

Definition _get_user_data (F : Font) (glyph : GSGlyph) (name : string) : result (list Q) :=
  ls <- _master_layers F (layers glyph) ;;
  Ok (flat_map (layer_user_data name) ls).

(** [c.lower()] on one ASCII character. *)
Definition ascii_lower (c : ascii) : ascii :=
  let n := nat_of_ascii c in
  if (Nat.leb 65 n && Nat.leb n 90)%bool then ascii_of_nat (n + 32) else c.

(** [name[0].lower() + name[1:]] *)
Definition uncapitalize (name : string) : result string :=
  match name with
  | EmptyString => Raise IndexError
  | String c r => Ok (String (ascii_lower c) r)
  end.

Definition _get_all_user_data (F : Font) (name : string) : result (dict (list Q)) :=
  name' <- uncapitalize name ;;
  foldM (fun mappings glyph =>
           values <- _get_user_data F glyph name' ;;
           match values with
           | [] => Ok mappings
           | _ :: _ => Ok (dict_set mappings (glyph_name glyph) values)
           end)
        (filter export (glyphs (font F))) [].

Definition _advances (F : Font) (glyph direction : string) (plus_1 : bool)
  : result (list Z) :=
  g <- deref (glyph_by_name (font F) glyph) ;;
  ls <- _master_layers F (layers g) ;;
  res <- mapM (fun layer =>
                 match bounds_size layer with
                 | None => Raise AttributeError
                 | Some size =>
                     let advance :=
                       if String.eqb direction "H" then width size else height size in
                     Ok (Z.abs (py_round advance))
                 end) ls ;;
  Ok (if plus_1 then map (fun i => i + 1) res else res).

(** *** The TOML document and the per-master data made from it *)

(** A value of the [MathGlyphInfo] table: a glyph-to-values table or a
    plain list of glyph names ([ExtendedShapes]). *)
Inductive GlyphInfoEntry : Type :=
| GIValues (d : dict (list Q))
| GIList (l : list string).

Record TomlConstant : Type := mkTomlConstant {
  tc_value : list Q;
  tc_isMathValue : bool
}.

Record TomlPart : Type := mkTomlPart {
  tp_name : string;
  tp_isExtender : bool
}.

Record TomlComponent : Type := mkTomlComponent {
  tc_italicsCorrection : Z;
  tc_parts : list TomlPart
}.

Record TomlVariants : Type := mkTomlVariants {
  tv_MinConnectorOverlap : list Q;
  tv_HorizontalVariants : dict (list string);   (* glyph -> suffixes *)
  tv_VerticalVariants : dict (list string);
  tv_HorizontalComponents : dict TomlComponent;
  tv_VerticalComponents : dict TomlComponent
}.

Record TomlData : Type := mkTomlData {
  toml_MathConstants : dict TomlConstant;
  toml_MathGlyphInfo : dict GlyphInfoEntry;
  toml_MathVariants : TomlVariants
}.

Record MasterPart : Type := mkMasterPart {
  mp_name : string;
  mp_isExtender : bool;
  mp_startConnector : list Q;
  mp_endConnector : list Q;
  mp_fullAdvance : list Z
}.

Record MasterComponent : Type := mkMasterComponent {
  mc_italicsCorrection : Z;
  mc_parts : list MasterPart
}.

Record MasterVariants : Type := mkMasterVariants {
  mv_MinConnectorOverlap : list Q;
  mv_HorizontalVariants : dict (dict (list Z));
  mv_VerticalVariants : dict (dict (list Z));
  mv_HorizontalComponents : dict MasterComponent;
  mv_VerticalComponents : dict MasterComponent
}.

Record MasterData : Type := mkMasterData {
  md_MathConstants : dict TomlConstant;
  md_MathGlyphInfo : dict GlyphInfoEntry;
  md_MathVariants : MasterVariants
}.

(** *** Diagnostics written to [sys.stderr] *)

Record Warning : Type := mkWarning {
  w_glyph : string;
  w_name : string;
  w_values : list Q
}.

(** A computation that may raise and that leaves the lines it printed. *)
Definition logged (A : Type) : Type := (result A * list Warning)%type.

Definition lift {A : Type} (r : result A) : logged A := (r, []).

Definition warn (w : Warning) : logged unit := (Ok tt, [w]).

Definition lbind {A B : Type} (m : logged A) (k : A -> logged B) : logged B :=
  match fst m with
  | Ok a => (fst (k a), snd m ++ snd (k a))
  | Raise e => (Raise e, snd m)
  end.

Notation "x <-- m ;; k" := (lbind m (fun x => k))
  (at level 61, m at next level, right associativity).

Fixpoint lfoldM {A S : Type} (f : S -> A -> logged S) (l : list A) (s : S) : logged S :=
  match l with
  | [] => lift (Ok s)
  | x :: r => s' <-- f s x ;; lfoldM f r s'
  end.

(** [glyph_info[name][glyph] = values] *)
Definition glyph_info_assign (glyph_info : dict GlyphInfoEntry) (name glyph : string)
    (values : list Q) : result (dict GlyphInfoEntry) :=
  entry <- dict_item glyph_info name ;;
  match entry with
  | GIValues d => Ok (dict_set glyph_info name (GIValues (dict_set d glyph values)))
  | GIList _ => Raise TypeError
  end.

(** Lines 286-294: the body of the loop over one glyph's recorded values. *)
Definition glyph_info_glyph (F : Font) (name : string)
    (glyph_info : dict GlyphInfoEntry) (item : string * list Q)
  : logged (dict GlyphInfoEntry) :=
  let glyph := fst item in
  let values := snd item in
  values' <-- (if Nat.eqb (List.length values) (_masters_num F)
               then lift (Ok values)
               else _ <-- warn (mkWarning glyph name values) ;;
                    lift (v0 <- py_index values 0 ;; Ok (repeat v0 (_masters_num F)))) ;;
  lift (glyph_info_assign glyph_info name glyph values').

(** Lines 284-294. *)
Definition glyph_info_name (F : Font) (glyph_info : dict GlyphInfoEntry) (name : string)
  : logged (dict GlyphInfoEntry) :=
  mapping <-- lift (_get_all_user_data F name) ;;
  lfoldM (glyph_info_glyph F name) mapping glyph_info.

Definition parse_glyph_info (F : Font) (glyph_info : dict GlyphInfoEntry)
  : logged (dict GlyphInfoEntry) :=
  lfoldM (glyph_info_name F) (dict_keys glyph_info) glyph_info.

(** [{var: self._advances(var, d, plus_1=True) for var in (glyph + suffix ...)}] *)
Definition variant_advances (F : Font) (direction glyph : string) (suffixes : list string)
  : result (dict (list Z)) :=
  items <- mapM (fun suffix =>
                   let var := (glyph ++ suffix)%string in
                   a <- _advances F var direction true ;; Ok (var, a))
                suffixes ;;
  Ok (dict_of_items items).

Record VariantPart : Type := mkVariantPart {
  vp_startConnector : list Q;
  vp_endConnector : list Q;
  vp_fullAdvance : list Z
}.

Definition _variant_part (F : Font) (glyph direction : string) : result VariantPart :=
  sc <- (g <- deref (glyph_by_name (font F) glyph) ;; _get_user_data F g "startConnector") ;;
  ec <- (g <- deref (glyph_by_name (font F) glyph) ;; _get_user_data F g "endConnector") ;;
  fa <- _advances F glyph direction false ;;
  Ok (mkVariantPart sc ec fa).

(** [part | self._variant_part(part['name'], d)] *)
Definition merge_part (part : TomlPart) (vp : VariantPart) : MasterPart :=
  mkMasterPart (tp_name part) (tp_isExtender part)
    (vp_startConnector vp) (vp_endConnector vp) (vp_fullAdvance vp).

Definition master_component (F : Font) (direction : string) (value : TomlComponent)
  : result MasterComponent :=
  ps <- mapM (fun part => vp <- _variant_part F (tp_name part) direction ;;
                          Ok (merge_part part vp))
             (tc_parts value) ;;
  Ok (mkMasterComponent (tc_italicsCorrection value) ps).

(** Replacing the value of every key while iterating over [d.items()]. *)
Definition map_valuesM {V W : Type} (f : string -> V -> result W) (d : dict V)
  : result (dict W) :=
  mapM (fun kv => w <- f (fst kv) (snd kv) ;; Ok (fst kv, w)) d.

Definition _parse_master_math_table (F : Font) (data : TomlData) : logged MasterData :=
  let variants := toml_MathVariants data in
  glyph_info <-- parse_glyph_info F (toml_MathGlyphInfo data) ;;
  lift (hv <- map_valuesM (variant_advances F "H") (tv_HorizontalVariants variants) ;;
        vv <- map_valuesM (variant_advances F "V") (tv_VerticalVariants variants) ;;
        hc <- map_valuesM (fun _ => master_component F "H")
                          (tv_HorizontalComponents variants) ;;
        vc <- map_valuesM (fun _ => master_component F "V")
                          (tv_VerticalComponents variants) ;;
        Ok (mkMasterData (toml_MathConstants data) glyph_info
              (mkMasterVariants (tv_MinConnectorOverlap variants) hv vv hc vc))).

(** ** class MathTable: the model filled per style *)

Record Constant : Type := mkConstant {
  c_value : Z;
  c_isMathValue : bool
}.

Record Part : Type := mkPart {
  p_name : string;
  isExtender : bool;
  startConnector : Z;
  endConnector : Z;
  fullAdvance : Z
}.

Record Component : Type := mkStyleComponent {
  italicsCorrection : Z;
  parts : list Part
}.

Record GlyphInfo : Type := mkGlyphInfo {
  ItalicCorrection : dict Z;
  TopAccent : dict Z;
  ExtendedShapes : GlyphInfoEntry
}.

Record Variants : Type := mkVariants {
  MinConnectorOverlap : Z;
  HorizontalVariants : dict (dict Z);
  VerticalVariants : dict (dict Z);
  HorizontalComponents : dict Component;
  VerticalComponents : dict Component
}.

Record MathTable : Type := mkMathTable {
  constants : dict Constant;
  glyph_info : GlyphInfo;
  variants : Variants
}.

(** ** class Font: the per-style interpolation of [_parse_math_table] *)

Definition _is_removed_glyph (remove_glyphs : option (list string)) (glyph : string) : bool :=
  match remove_glyphs with
  | Some (g :: l) => str_in glyph (g :: l)
  | Some [] => false
  | None => false
  end.

(** [round(sum(values[i] * v for i, v in interpolation))], in the exact
    reading; [Machine._generate] is the same line in the arithmetic of the
    interpreter. *)
Definition _generate (interpolation : list (nat * Q)) (values : list Q) : result Z :=
  terms <- mapM (fun iv => x <- py_index values (fst iv) ;; Ok (x * snd iv)%Q) interpolation ;;
  Ok (py_round (py_sum terms)).

(** A dict comprehension over [d.items()] with a filter on the key. *)
Definition dict_compM {V W : Type} (keep : string -> bool) (f : V -> result W) (d : dict V)
  : result (dict W) :=
  items <- mapM (fun kv => w <- f (snd kv) ;; Ok (fst kv, w))
                (filter (fun kv => keep (fst kv)) d) ;;
  Ok (dict_of_items items).

Definition _variant (interpolation : list (nat * Q)) (master : dict (dict (list Z)))
  : result (dict (dict Z)) :=
  dict_compM (fun _ => true)
    (dict_compM (fun _ => true) (fun values => _generate interpolation (map inject_Z values)))
    master.

Definition style_part (interpolation : list (nat * Q)) (part : MasterPart) : result Part :=
  sc <- _generate interpolation (mp_startConnector part) ;;
  ec <- _generate interpolation (mp_endConnector part) ;;
  fa <- _generate interpolation (map inject_Z (mp_fullAdvance part)) ;;
  Ok (mkPart (mp_name part) (mp_isExtender part) sc ec fa).

Definition style_component (interpolation : list (nat * Q)) (componet : MasterComponent)
  : result Component :=
  ps <- mapM (style_part interpolation) (mc_parts componet) ;;
  Ok (mkStyleComponent (mc_italicsCorrection componet) ps).

Definition _componet (interpolation : list (nat * Q)) (master : dict MasterComponent)
  : result (dict Component) :=
  dict_compM (fun _ => true) (style_component interpolation) master.

(** [master_glyph_info[name].items()] for a glyph-to-values table. *)
Definition glyph_values (master_glyph_info : dict GlyphInfoEntry) (name : string)
  : result (dict (list Q)) :=
  entry <- dict_item master_glyph_info name ;;
  match entry with
  | GIValues d => Ok d
  | GIList _ => Raise AttributeError
  end.

Definition style_glyph_info (remove_glyphs : option (list string))
    (interpolation : list (nat * Q)) (master_glyph_info : dict GlyphInfoEntry) (name : string)
  : result (dict Z) :=
  d <- glyph_values master_glyph_info name ;;
  dict_compM (fun g => negb (_is_removed_glyph remove_glyphs g)) (_generate interpolation) d.

(** The body of [for style, interpolation in self.interpolations.items()]. *)
Definition style_math_table (F : Font) (master_data : MasterData)
    (style : string) (interpolation : list (nat * Q)) : result MathTable :=
  let master_glyph_info := md_MathGlyphInfo master_data in
  let master_variants := md_MathVariants master_data in
  instance <- next_where (fun i => Ok (String.eqb (instance_name i) style))
                         (instances (font F)) ;;
  let remove_glyphs := remove_glyphs_param instance in
  cs <- dict_compM (fun _ => true)
          (fun d => v <- _generate interpolation (tc_value d) ;;
                    Ok (mkConstant v (tc_isMathValue d)))
          (md_MathConstants master_data) ;;
  ic <- style_glyph_info remove_glyphs interpolation master_glyph_info "ItalicCorrection" ;;
  ta <- style_glyph_info remove_glyphs interpolation master_glyph_info "TopAccent" ;;
  es <- dict_item master_glyph_info "ExtendedShapes" ;;
  mco <- _generate interpolation (mv_MinConnectorOverlap master_variants) ;;
  hv <- _variant interpolation (mv_HorizontalVariants master_variants) ;;
  vv <- _variant interpolation (mv_VerticalVariants master_variants) ;;
  hc <- _componet interpolation (mv_HorizontalComponents master_variants) ;;
  vc <- _componet interpolation (mv_VerticalComponents master_variants) ;;
  Ok (mkMathTable cs (mkGlyphInfo ic ta es) (mkVariants mco hv vv hc vc)).

Definition style_tables (F : Font) (master_data : MasterData) : result (dict MathTable) :=
  foldM (fun math_tables si =>
           t <- style_math_table F master_data (fst si) (snd si) ;;
           Ok (dict_set math_tables (fst si) t))
        (interpolations F) [].

Definition _parse_math_table (F : Font) (data : TomlData) : logged (dict MathTable) :=
  master_data <-- _parse_master_math_table F data ;;
  lift (style_tables F master_data).

End FontClass.

(** ** class MathTable: the encoder *)

Record MathValueRecord : Type := mkMathValueRecord {
  DeviceTable : option unit;
  Value : Z
}.

Record Coverage : Type := mkCoverage { cov_glyphs : list string }.

Record MathGlyphVariantRecord : Type := mkVariantRecord {
  VariantGlyph : string;
  AdvanceMeasurement : Z
}.

Record GlyphPartRecord : Type := mkPartRecord {
  part_glyph : string;
  StartConnectorLength : Z;
  EndConnectorLength : Z;
  FullAdvance : Z;
  PartFlags : Z
}.

Record GlyphAssembly : Type := mkGlyphAssembly {
  ItalicsCorrection : MathValueRecord;
  PartCount : nat;
  PartRecords : list GlyphPartRecord
}.

Record MathGlyphConstruction : Type := mkConstruction {
  GlyphAssembly_of : option GlyphAssembly;
  VariantCount : nat;
  VariantRecords : list MathGlyphVariantRecord
}.

Definition _math_value (v : Z) : MathValueRecord := mkMathValueRecord None v.

Definition _coverage (gs : list string) : Coverage := mkCoverage gs.

Definition _glyph_construction (vs : dict Z) : MathGlyphConstruction :=
  mkConstruction None (List.length vs)
    (map (fun ga => mkVariantRecord (fst ga) (snd ga)) vs).

Definition _glyph_assembly (component : Component) : GlyphAssembly :=
  mkGlyphAssembly
    (_math_value (italicsCorrection component))
    (List.length (parts component))
    (map (fun part =>
            mkPartRecord (p_name part) (startConnector part) (endConnector part)
              (fullAdvance part)
              (if isExtender part then 0x0001 else 0xFFFE))
         (parts component)).

(** The body of [MathTable._variants]: the constructions in insertion
    order, their coverage and their number. *)
Definition encode_constructions (vs : dict (dict Z)) (cs : dict Component)
  : list MathGlyphConstruction * Coverage * nat :=
  let constructions :=
    fold_left (fun d gv => dict_set d (fst gv) (_glyph_construction (snd gv))) vs [] in
  let constructions :=
    fold_left (fun d gc =>
                 let c := match dict_get d (fst gc) with
                          | Some c => c
                          | None => _glyph_construction []
                          end in
                 dict_set d (fst gc)
                   (mkConstruction (Some (_glyph_assembly (snd gc)))
                      (VariantCount c) (VariantRecords c)))
              cs constructions in
  (map snd constructions, _coverage (dict_keys constructions), List.length constructions).

(** [MathTable._glyph_info]: value records, coverage and count of one map. *)
Definition _glyph_info (d : dict Z) : list MathValueRecord * Coverage * nat :=
  (map (fun kv => _math_value (snd kv)) d, _coverage (dict_keys d), List.length d).

(** [self.variants[name + 'Variants']] and [self.variants[name + 'Components']]
    exist for the two names the encoder uses. *)
Definition _variants (t : MathTable) (name : string)
  : result (list MathGlyphConstruction * Coverage * nat) :=
  if String.eqb name "Horizontal" then
    Ok (encode_constructions (HorizontalVariants (variants t)) (HorizontalComponents (variants t)))
  else if String.eqb name "Vertical" then
    Ok (encode_constructions (VerticalVariants (variants t)) (VerticalComponents (variants t)))
  else Raise KeyError.

(** ** Specification-side notions *)

(** The weighted sum of the specification: the sum over the vector of
    [w_j * masterValue[i_j]]. *)
Fixpoint weighted_sum (interpolation : list (nat * Q)) (masterValue : list Q) : Q :=
  match interpolation with
  | [] => 0%Q
  | (i, w) :: r => (w * nth i masterValue 0 + weighted_sum r masterValue)%Q
  end.

(** Every master index of the vector has a value in the list. *)
Definition indices_in_range (interpolation : list (nat * Q)) (n : nat) : Prop :=
  Forall (fun iw => (fst iw < n)%nat) interpolation.

(** A position with both coordinates rounded. *)
Definition round_point (p : Point) : Point :=
  mkPoint (inject_Z (py_round (px p))) (inject_Z (py_round (py p))).




(** How the blend factor and the part test of a reference are chosen
    (lines 109-125), as a relation. *)
Definition selects (f : GSFont) (parent : GSLayer) (comp : GSComponent)
    (t : Q) (is_part_n : Z -> GSLayer -> result bool) : Prop :=
  (smartComponentValues comp = [] /\ t = 0%Q /\
   is_part_n = _is_part_n_first_key (associatedMasterId parent))
  \/
  (exists key value glyph axis,
      smartComponentValues comp = [(key, value)] /\
      glyph_by_name f (comp_name comp) = Some glyph /\
      next_where (fun a => Ok (String.eqb (axis_name a) key)) (smartComponentAxes glyph)
      = Ok axis /\
      _rescale value (bottomValue axis) (topValue axis) = Ok t /\
      is_part_n = _is_part_n_key (associatedMasterId parent) key).

(** Items computed key by key from another item list. *)
Definition items_from {V W : Type} (f : V -> result W) (l : list (string * V))
    (l' : list (string * W)) : Prop :=
  Forall2 (fun kv kw => fst kw = fst kv /\ f (snd kv) = Ok (snd kw)) l l'.

(** The advance of one master layer before padding: the width or the
    height of its bounding box, rounded and made non-negative. *)
Definition layer_advance (bounds_size : GSLayer -> option Size) (direction : string)
    (layer : GSLayer) (a : Z) : Prop :=
  exists size,
    bounds_size layer = Some size /\
    a = Z.abs (py_round (if String.eqb direction "H" then width size else height size)) /\
    0 <= a.

(** The list stored for a glyph whose recorded values are [values]: the
    values themselves when there is one per master, otherwise the first one
    repeated for every master. *)
Definition broadcast (F : Font) (values : list Q) : list Q :=
  if Nat.eqb (List.length values) (_masters_num F) then values
  else repeat (hd 0%Q values) (_masters_num F).

(** The diagnostic printed for one recorded item, if any. *)
Definition warnings_of (F : Font) (name : string) (item : string * list Q) : list Warning :=
  if Nat.eqb (List.length (snd item)) (_masters_num F) then []
  else [mkWarning (fst item) name (snd item)].

(** The table of [name] in [glyph_info] holds the broadcast values of every
    glyph with recorded values. *)
Definition recorded_in (F : Font) (name : string) (glyph_info : dict GlyphInfoEntry) : Prop :=
  forall mapping glyph values,
    _get_all_user_data F name = Ok mapping ->
    In (glyph, values) mapping ->
    exists d, dict_get glyph_info name = Some (GIValues d) /\
              dict_get d glyph = Some (broadcast F values).

(** No component is left in a layer of a smart glyph, and no component
    carrying smart-component values is left in any other glyph. *)
Definition shape_decomposed (smart : bool) (s : GSShape) : Prop :=
  match s with
  | SPath _ => True
  | SComp c => smart = false /\ smartComponentValues c = []
  end.

Definition glyph_decomposed (g : GSGlyph) : Prop :=
  Forall (fun l => Forall (shape_decomposed (_is_smart_glyph g)) (_shapes l)) (layers g).

Definition font_decomposed (f : GSFont) : Prop :=
  Forall glyph_decomposed (glyphs f).

(** The components the decomposer expands: every component of a smart
    glyph, and in any other glyph the components that carry
    smart-component values. *)
Definition has_values (c : GSComponent) : bool :=
  match smartComponentValues c with
  | [] => false
  | _ :: _ => true
  end.

Definition expanded (smart : bool) (c : GSComponent) : bool :=
  if smart then true else has_values c.

(** The shapes a pass keeps, given the components it expands. *)
Definition keep_shape (expands : GSComponent -> bool) (s : GSShape) : bool :=
  match s with
  | SPath _ => true
  | SComp c => negb (expands c)
  end.

Definition kept_shape (smart : bool) (s : GSShape) : bool :=
  keep_shape (expanded smart) s.

(** A layer after its decomposition: the kept shapes in their order,
    followed by the paths the expanded components gave. *)
Definition layer_done (keep : GSShape -> bool) (l l' : GSLayer) : Prop :=
  exists paths, l' = set_shapes l (filter keep (_shapes l) ++ map SPath paths).

(** What one pass does to a glyph. *)
Definition glyph_pass (select : GSGlyph -> bool) (keep : GSShape -> bool)
    (g g' : GSGlyph) : Prop :=
  glyph_name g' = glyph_name g /\ export g' = export g /\
  smartComponentAxes g' = smartComponentAxes g /\
  if select g then Forall2 (layer_done keep) (layers g) (layers g')
  else layers g' = layers g.

Definition font_pass (select : GSGlyph -> bool) (keep : GSShape -> bool)
    (f f' : GSFont) : Prop :=
  masters f' = masters f /\ instances f' = instances f /\
  Forall2 (glyph_pass select keep) (glyphs f) (glyphs f').

(** What the whole decomposer does to a font: nothing but the shapes of
    the layers changes, and every layer keeps [kept_shape] and gains paths. *)
Definition decomposed_from (f f' : GSFont) : Prop :=
  masters f' = masters f /\ instances f' = instances f /\
  Forall2 (fun g g' =>
             glyph_name g' = glyph_name g /\ export g' = export g /\
             smartComponentAxes g' = smartComponentAxes g /\
             Forall2 (layer_done (kept_shape (_is_smart_glyph g))) (layers g) (layers g'))
          (glyphs f) (glyphs f').

(** An expander answers [Some] exactly on the components [expands] selects. *)
Definition expander_ok (expand : expander) (expands : GSComponent -> bool) : Prop :=
  forall f parent c r,
    expand f parent c = Ok r ->
    match r with Some _ => true | None => false end = expands c.

(** ** Sample data for concrete runs *)

Module Sample.

(** A stand-in for glyphsLib's [applyTransform]: the plain affine map. *)
Definition affine (t : Transform) (p : GSPath) : GSPath :=
  mkPath (closed p)
    (map (fun n =>
            mkNode (mkPoint
                      (t_xx t * px (position n) + t_yx t * py (position n) + t_dx t)
                      (t_xy t * px (position n) + t_yy t * py (position n) + t_dy t))
                   (node_type n) (smooth n))
         (nodes p)).

Definition Qmin' (a b : Q) : Q := if Qle_bool a b then a else b.
Definition Qmax' (a b : Q) : Q := if Qle_bool a b then b else a.

(** A stand-in for glyphsLib's [bounds]: the box around the nodes of the
    layer's paths, [None] for a layer without nodes. *)
Definition node_box (l : GSLayer) : option Size :=
  match flat_map nodes (layer_paths l) with
  | [] => None
  | n :: r =>
      let xs := map (fun n => px (position n)) r in
      let ys := map (fun n => py (position n)) r in
      let x0 := px (position n) in
      let y0 := py (position n) in
      Some (mkSize (fold_left Qmax' xs x0 - fold_left Qmin' xs x0)
                   (fold_left Qmax' ys y0 - fold_left Qmin' ys y0))
  end.

Definition identity : Transform := mkTransform 1 0 0 1 0 0.
Definition shift (dx dy : Q) : Transform := mkTransform 1 0 0 1 dx dy.

Definition line (x y : Z) : GSNode := mkNode (mkPoint (inject_Z x) (inject_Z y)) "line" false.

Definition box (w h : Z) : GSPath :=
  mkPath true [line 0 0; line w 0; line w h; line 0 h].

(** A smart glyph: one axis, and for each master a part-1 and a part-2 layer. *)
Definition bar : GSGlyph :=
  mkGlyph "_part.bar" false [mkAxis "Height" 0 100]
    [ mkLayer "m1" "m1" [("Height", 1)] [SPath (box 10 100)] [];
      mkLayer "m1.tall" "m1" [("Height", 2)] [SPath (box 10 200)] [];
      mkLayer "m2" "m2" [("Height", 1)] [SPath (box 20 100)] [];
      mkLayer "m2.tall" "m2" [("Height", 2)] [SPath (box 20 200)] [] ].

Definition dot : GSGlyph :=
  mkGlyph "dot" true []
    [ mkLayer "m1" "m1" [] [SPath (box 10 10)]
        [[("italicCorrection", 5%Q)]; [("startConnector", 2%Q); ("endConnector", 3%Q)]];
      mkLayer "m2" "m2" [] [SPath (box 11 12)]
        [[("startConnector", 4%Q); ("endConnector", 6%Q)]] ].

(** A smart glyph that itself uses components. *)
Definition stem : GSGlyph :=
  mkGlyph "_part.stem" false [mkAxis "Height" 0 100]
    [ mkLayer "m1" "m1" [("Height", 1)]
        [SComp (mkComponent "dot" identity []); SPath (box 4 50)] [];
      mkLayer "m1.tall" "m1" [("Height", 2)]
        [SComp (mkComponent "_part.bar" identity []); SPath (box 4 90)] [] ].

Definition half_bar : GSComponent := mkComponent "_part.bar" (shift 5 0) [("Height", 50%Q)].
Definition plain_dot : GSComponent := mkComponent "dot" (shift 0 300) [].

(** An ordinary glyph with a smart reference and an ordinary reference. *)
Definition i_glyph : GSGlyph :=
  mkGlyph "i" true []
    [ mkLayer "m1" "m1" [] [SComp half_bar; SComp plain_dot]
        [[("italicCorrection", 7%Q); ("startConnector", 1%Q); ("endConnector", 1%Q)]];
      mkLayer "m2" "m2" [] [SComp half_bar; SComp plain_dot]
        [[("italicCorrection", 9%Q); ("startConnector", 2%Q); ("endConnector", 2%Q)]] ].

Definition gsfont : GSFont :=
  mkGSFont [mkMaster "m2" 1; mkMaster "m1" 0]
           [ mkInstance "Regular" true [("m1", (1 # 2)%Q); ("m2", (1 # 2)%Q)] None;
             mkInstance "Bold" true [("m2", 1%Q)] (Some ["dot"]);
             mkInstance "Draft" false [("m1", 1%Q)] None ]
           [bar; dot; stem; i_glyph].



(** The extreme layers of this smart glyph do not correspond: the part-2
    layer has one path less, and its only path has one node less. *)
Definition uneven : GSGlyph :=
  mkGlyph "_part.uneven" false [mkAxis "Height" 0 100]
    [ mkLayer "m1" "m1" [("Height", 1)] [SPath (box 10 100); SPath (box 2 2)] [];
      mkLayer "m1.tall" "m1" [("Height", 2)]
        [SPath (mkPath true [line 0 0; line 10 0; line 10 200])] [] ].

Definition uneven_font : GSFont := mkGSFont [mkMaster "m1" 0] [] [uneven].

Definition uneven_ref : GSComponent := mkComponent "_part.uneven" identity [("Height", 100%Q)].

Definition uneven_parent : GSLayer := mkLayer "m1" "m1" [] [SComp uneven_ref] [].

Definition toml : TomlData :=
  mkTomlData
    [("AxisHeight", mkTomlConstant [100%Q; 200%Q] true)]
    [("ItalicCorrection", GIValues []); ("TopAccent", GIValues []);
     ("ExtendedShapes", GIList ["dot"])]
    (mkTomlVariants [20%Q; 30%Q]
       [("dot", [""])] []
       [] [("i", mkTomlComponent 3 [mkTomlPart "dot" true; mkTomlPart "i" false])]).

(** Three masters; the glyph [x] records an italic correction in the
    second one only. *)
Definition x_glyph : GSGlyph :=
  mkGlyph "x" true []
    [ mkLayer "a" "a" [] [SPath (box 10 10)] [];
      mkLayer "b" "b" [] [SPath (box 12 10)] [[("italicCorrection", 40%Q)]];
      mkLayer "c" "c" [] [SPath (box 14 10)] [] ].

Definition F3 : Font :=
  mkFont (mkGSFont [mkMaster "a" 0; mkMaster "b" 50; mkMaster "c" 100] [] [x_glyph])
         3 [("a", 0%nat); ("b", 1%nat); ("c", 2%nat)] [].

Definition F : Font := Eval vm_compute in
  match Font_init affine gsfont with
  | Ok F => F
  | Raise _ => mkFont gsfont 0 [] []
  end.

Definition master_data : MasterData := Eval vm_compute in
  match fst (_parse_master_math_table node_box F toml) with
  | Ok d => d
  | Raise _ => mkMasterData [] [] (mkMasterVariants [] [] [] [] [])
  end.

Definition regular : list (nat * Q) := [(0%nat, (1 # 2)%Q); (1%nat, (1 # 2)%Q)].
Definition bold : list (nat * Q) := [(1%nat, 1%Q)].

Definition empty_table : MathTable :=
  mkMathTable [] (mkGlyphInfo [] [] (GIList [])) (mkVariants 0 [] [] [] []).

Definition table (style : string) (interpolation : list (nat * Q)) : MathTable :=
  match style_math_table F master_data style interpolation with
  | Ok t => t
  | Raise _ => empty_table
  end.

Definition regular_table : MathTable := Eval vm_compute in table "Regular" regular.
Definition bold_table : MathTable := Eval vm_compute in table "Bold" bold.

End Sample.

(** ** Further parts of the script *)

(** *** [Font._read_glyph]: the file of a glyph *)

Section GlyphFiles.

(** [str.isupper] on one character. *)
Variable isupper : ascii -> bool.

(** [''.join(c + '_' if c.isupper() else c for c in name)] *)
Fixpoint escape_upper (name : string) : string :=
  match name with
  | EmptyString => EmptyString
  | String c r =>
      if isupper c then String c (String "_" (escape_upper r))
      else String c (escape_upper r)
  end.

(** The [file_name] that [_read_glyph] opens inside the [glyphs] directory. *)
Definition glyph_file_name (name : string) : string :=
  if String.eqb name ".notdef" then "_notdef.glyph"
  else (escape_upper name ++ ".glyph")%string.

End GlyphFiles.

(** [str.isupper] restricted to ASCII letters, for concrete runs. *)
Definition ascii_isupper (c : ascii) : bool :=
  (Nat.leb 65 (nat_of_ascii c) && Nat.leb (nat_of_ascii c) 90)%bool.

(** *** [MathTable.encode] and the tables it fills *)

(** A constant is stored as a plain integer or as a value record. *)
Inductive ConstantValue : Type :=
| CInt (v : Z)
| CRecord (r : MathValueRecord).

Definition encode_constant (d : Constant) : ConstantValue :=
  if c_isMathValue d then CRecord (_math_value (c_value d)) else CInt (c_value d).

(** [MathTable._encode_constants]: one attribute per constant name. *)
Definition _encode_constants (t : MathTable) : dict ConstantValue :=
  fold_left (fun cs nd => dict_set cs (fst nd) (encode_constant (snd nd))) (constants t) [].

Record MathItalicsCorrectionInfo : Type := mkItalicsCorrectionInfo {
  ItalicsCorrection_records : list MathValueRecord;
  ItalicsCorrection_Coverage : Coverage;
  ItalicsCorrectionCount : nat
}.

Record MathTopAccentAttachment : Type := mkTopAccentAttachment {
  TopAccentAttachment_records : list MathValueRecord;
  TopAccentCoverage : Coverage;
  TopAccentAttachmentCount : nat
}.

Record MathGlyphInfo : Type := mkMathGlyphInfo {
  enc_MathItalicsCorrectionInfo : MathItalicsCorrectionInfo;
  enc_MathTopAccentAttachment : MathTopAccentAttachment;
  ExtendedShapeCoverage : Coverage;
  MathKernInfo : option unit
}.

(** Iterating over the [ExtendedShapes] value: the names of a list, the
    keys of a table. *)
Definition entry_glyphs (e : GlyphInfoEntry) : list string :=
  match e with
  | GIList l => l
  | GIValues d => dict_keys d
  end.

Definition _encode_glyph_info (t : MathTable) : MathGlyphInfo :=
  let ic := _glyph_info (ItalicCorrection (glyph_info t)) in
  let ta := _glyph_info (TopAccent (glyph_info t)) in
  mkMathGlyphInfo
    (mkItalicsCorrectionInfo (fst (fst ic)) (snd (fst ic)) (snd ic))
    (mkTopAccentAttachment (fst (fst ta)) (snd (fst ta)) (snd ta))
    (_coverage (entry_glyphs (ExtendedShapes (glyph_info t))))
    None.

Record MathVariants : Type := mkMathVariants {
  enc_MinConnectorOverlap : Z;
  HorizGlyphConstruction : list MathGlyphConstruction;
  HorizGlyphCoverage : Coverage;
  HorizGlyphCount : nat;
  VertGlyphConstruction : list MathGlyphConstruction;
  VertGlyphCoverage : Coverage;
  VertGlyphCount : nat
}.

Definition _encode_variants (t : MathTable) : result MathVariants :=
  h <- _variants t "Horizontal" ;;
  v <- _variants t "Vertical" ;;
  Ok (mkMathVariants (MinConnectorOverlap (variants t))
        (fst (fst h)) (snd (fst h)) (snd h)
        (fst (fst v)) (snd (fst v)) (snd v)).

Record MATH : Type := mkMATH {
  Version : Z;
  MathConstants : dict ConstantValue;
  MathGlyphInfo_of : MathGlyphInfo;
  MathVariants_of : MathVariants
}.

Definition encode (t : MathTable) : result MATH :=
  vs <- _encode_variants t ;;
  Ok (mkMATH 0x00010000 (_encode_constants t) (_encode_glyph_info t) vs).

(** *** Notions used in the statements below *)

Definition glyph_names (f : GSFont) : list string := map glyph_name (glyphs f).

(** The test of [_master_layers]. *)
Definition is_master_layer (l : GSLayer) : bool :=
  String.eqb (associatedMasterId l) (layerId l).

(** The sort key of [_master_layers], 0 for an id without index. *)
Definition master_index (F : Font) (l : GSLayer) : nat :=
  match dict_get (_master_id_indices F) (associatedMasterId l) with
  | Some k => k
  | None => 0%nat
  end.

(** The weights of a vector are non-negative and sum to one. *)
Definition weights_total (interpolation : list (nat * Q)) : Q :=
  fold_right Qplus 0%Q (map snd interpolation).

Definition convex (interpolation : list (nat * Q)) : Prop :=
  Forall (fun iw => (0 <= snd iw)%Q) interpolation /\ (weights_total interpolation == 1)%Q.


(** The diagnostics of one name of the glyph-info table. *)
Definition warnings_of_name (F : Font) (name : string) : list Warning :=
  match _get_all_user_data F name with
  | Ok mapping => flat_map (warnings_of F name) mapping
  | Raise _ => []
  end.

(** The construction the encoder makes for a glyph from its variants and
    its component, either of which may be missing. *)
Definition construction_of (v : option (dict Z)) (c : option Component)
  : option MathGlyphConstruction :=
  match v, c with
  | None, None => None
  | Some vs, None => Some (_glyph_construction vs)
  | v, Some comp =>
      let base := _glyph_construction (match v with Some vs => vs | None => [] end) in
      Some (mkConstruction (Some (_glyph_assembly comp))
              (VariantCount base) (VariantRecords base))
  end.

(** No glyph of that name has recorded values under [name]. *)
Definition untouched (F : Font) (name glyph : string) : Prop :=
  forall mapping, _get_all_user_data F name = Ok mapping -> dict_get mapping glyph = None.

(** What parsing may do to an entry of the TOML glyph-info table: a list is
    left alone, a table keeps the values of the glyphs without recorded
    values. *)
Definition entry_kept (F : Font) (name : string) (e e' : GlyphInfoEntry) : Prop :=
  match e with
  | GIList l => e' = GIList l
  | GIValues d =>
      exists d', e' = GIValues d' /\
                 forall g, untouched F name g -> dict_get d' g = dict_get d g
  end.

(** The construction a glyph has so far, or the empty one. *)
Definition base_construction (d : dict MathGlyphConstruction) (g : string)
  : MathGlyphConstruction :=
  match dict_get d g with
  | Some c => c
  | None => _glyph_construction []
  end.

(** *** More sample data *)

Module Sample2.

(** The sample font with two styles, one on each master, and a TOML
    document whose only constant has a value for the first master only. *)
Definition F : Font :=
  mkFont (font Sample.F) 2 [("m1", 0%nat); ("m2", 1%nat)]
         [("Draft", [(0%nat, 1%Q)]); ("Bold", [(1%nat, 1%Q)])].

Definition toml : TomlData :=
  mkTomlData
    [("AxisHeight", mkTomlConstant [100%Q] true)]
    [("ItalicCorrection", GIValues []); ("TopAccent", GIValues []);
     ("ExtendedShapes", GIList [])]
    (mkTomlVariants [20%Q; 30%Q] [] [] [] []).

Definition master_data : MasterData := Eval vm_compute in
  match fst (_parse_master_math_table Sample.node_box F toml) with
  | Ok d => d
  | Raise _ => mkMasterData [] [] (mkMasterVariants [] [] [] [] [])
  end.

(** A font in which a smart glyph refers to a glyph that does not exist,
    and one in which an ordinary glyph holds a reference with two axis
    values. *)
Definition dangling_font : GSFont :=
  mkGSFont [mkMaster "m1" 0] []
    [ Sample.dot;
      mkGlyph "_part.broken" false [mkAxis "Height" 0 100]
        [ mkLayer "m1" "m1" [("Height", 1)]
            [SPath (Sample.box 4 4); SComp (mkComponent "missing" Sample.identity [])] [] ] ].

Definition two_axes_font : GSFont :=
  mkGSFont [mkMaster "m1" 0] []
    [ Sample.bar;
      mkGlyph "h" true []
        [ mkLayer "m1" "m1" []
            [SComp (mkComponent "_part.bar" Sample.identity
                      [("Height", 10%Q); ("Width", 20%Q)])] [] ] ].

End Sample2.

(** The order [sorted(..., key=...)] puts on keyed items. *)
Definition key_le {K A : Type} (leb : K -> K -> bool) (p q : K * A) : Prop :=
  leb (fst p) (fst q) = true.

(** ** The decomposer, component by component *)

(** [Forall2] with the position of the elements. *)
Fixpoint Forall2i {A B : Type} (R : nat -> A -> B -> Prop) (i : nat)
    (l : list A) (l' : list B) : Prop :=
  match l, l' with
  | [], [] => True
  | a :: r, b :: r' => R i a b /\ Forall2i R (S i) r r'
  | _, _ => False
  end.

(** The paths the expanded components of the layer at [(gi, li)] give, one
    after the other: each component is resolved in the font of that
    moment, in which the layer already holds the paths of the components
    before it. *)
Fixpoint resolved_in_turn (expand : expander) (fm : GSFont) (gi li : nat) (parent : GSLayer)
    (comps : list GSComponent) (pss : list (list GSPath)) : Prop :=
  match comps, pss with
  | [], [] => True
  | c :: cs, ps :: pss' =>
      expand fm parent c = Ok (Some ps) /\
      resolved_in_turn expand (update_layer fm gi li (extend_paths ps)) gi li parent cs pss'
  | _, _ => False
  end.

(** What the loop body does to the layer at [(gi, li)], reached in a font
    [fm] that satisfies [I]: the shapes that are kept, followed by the
    paths of the expanded components, resolved in turn. *)
Definition layer_step (I : GSFont -> Prop) (expand : expander) (expands : GSComponent -> bool)
    (gi li : nat) (l l' : GSLayer) : Prop :=
  exists (fm : GSFont) (pss : list (list GSPath)),
    I fm /\
    get_layer fm gi li = Some l /\
    resolved_in_turn expand fm gi li l (filter expands (layer_components l)) pss /\
    l' = set_shapes l (filter (keep_shape expands) (_shapes l) ++ map SPath (List.concat pss)).

(** What one pass does to the glyph at [gi]. *)
Definition glyph_step (I : GSFont -> Prop) (select : GSGlyph -> bool) (expand : expander)
    (expands : GSComponent -> bool) (gi : nat) (g g' : GSGlyph) : Prop :=
  glyph_name g' = glyph_name g /\ export g' = export g /\
  smartComponentAxes g' = smartComponentAxes g /\
  if select g then Forall2i (layer_step I expand expands gi) 0%nat (layers g) (layers g')
  else layers g' = layers g.

(** A layer while the decomposer runs: as it was, or already decomposed
    (and then unchanged when none of its components is expanded). *)
Definition layer_between (smart : bool) (l lm : GSLayer) : Prop :=
  lm = l \/
  exists paths,
    lm = set_shapes l (filter (kept_shape smart) (_shapes l) ++ map SPath paths) /\
    (filter (expanded smart) (layer_components l) = [] -> paths = []).

(** A font while the decomposer runs on [f]. *)
Definition font_between (f fm : GSFont) : Prop :=
  masters fm = masters f /\ instances fm = instances f /\
  Forall2 (fun g gm =>
             glyph_name gm = glyph_name g /\ export gm = export g /\
             smartComponentAxes gm = smartComponentAxes g /\
             Forall2 (layer_between (_is_smart_glyph g)) (layers g) (layers gm))
          (glyphs f) (glyphs fm).

(** Every expanded component refers to a glyph that is decomposed already,
    as the parts of smart components usually are. *)
Definition flat_references (f : GSFont) : Prop :=
  forall g l c r,
    In g (glyphs f) -> In l (layers g) -> In c (layer_components l) ->
    expanded (_is_smart_glyph g) c = true ->
    glyph_by_name f (comp_name c) = Some r ->
    glyph_decomposed r.

Section Expansion.

Variable applyTransform : Transform -> GSPath -> GSPath.

(** The loop body of the pass that handles a glyph. *)
Definition expander_of (smart : bool) : expander :=
  if smart then expand_in_smart_glyph applyTransform
  else expand_in_plain_glyph applyTransform.

(** The layer at [(gi, li)] of [f] after the run. *)
Definition layer_expanded (f : GSFont) (gi li : nat) (smart : bool) (l l' : GSLayer) : Prop :=
  layer_step (font_between f) (expander_of smart) (expanded smart) gi li l l'.

(** The font after the run: every layer holds its kept shapes followed by
    the paths its expanded components gave when they were reached. *)
Definition expanded_from (f f' : GSFont) : Prop :=
  masters f' = masters f /\ instances f' = instances f /\
  Forall2i (fun gi g g' =>
              glyph_name g' = glyph_name g /\ export g' = export g /\
              smartComponentAxes g' = smartComponentAxes g /\
              Forall2i (fun li => layer_expanded f gi li (_is_smart_glyph g))
                       0%nat (layers g) (layers g'))
           0%nat (glyphs f) (glyphs f').

(** With flat references the paths are those the components give in the
    font as it was before the run. *)
Definition layer_flattened (f : GSFont) (smart : bool) (l l' : GSLayer) : Prop :=
  exists pss : list (list GSPath),
    Forall2 (fun c ps => expander_of smart f l c = Ok (Some ps))
            (filter (expanded smart) (layer_components l)) pss /\
    l' = set_shapes l (filter (kept_shape smart) (_shapes l) ++ map SPath (List.concat pss)).

Definition flattened_from (f f' : GSFont) : Prop :=
  Forall2 (fun g g' => Forall2 (layer_flattened f (_is_smart_glyph g)) (layers g) (layers g'))
          (glyphs f) (glyphs f').

End Expansion.

(** ** The numeric kernel in machine arithmetic *)

(** [r] is the integer nearest to [q], the even one of the two when [q]
    lies halfway. *)
Definition nearest_even (q : Q) (r : Z) : Prop :=
  (Qabs (q - inject_Z r) <= 1 # 2)%Q /\
  ((Qabs (q - inject_Z r) == 1 # 2)%Q -> Z.even r = true).

(** CPython's numbers: an [int] of any size or a [float], which is an
    IEEE 754 binary64 value.  The operations on floats are those of
    [SpecFloat] at precision 53 (round to nearest, ties to even); an [int]
    that meets a [float] is converted first, and the conversion raises
    [OverflowError] when the [int] is beyond the range of a double. *)
Module Machine.

Definition prec : Z := 53.
Definition emax : Z := 1024.
Definition float : Type := spec_float.

Inductive num : Type :=
| Int (z : Z)
| Float (x : float).

(** [float(z)], correctly rounded *)
Definition float_of_Z (z : Z) : float := binary_normalize prec emax z 0 false.

Definition to_float (n : num) : result float :=
  match n with
  | Float x => Ok x
  | Int z =>
      match float_of_Z z with
      | S754_infinity _ => Raise OverflowError
      | x => Ok x
      end
  end.

(** [a op b] for [+], [-] and [*]: exact on two ints, otherwise on doubles;
    a float result that overflows is an infinity, not an exception. *)
Definition arith (iop : Z -> Z -> Z) (fop : float -> float -> float) (a b : num)
  : result num :=
  match a, b with
  | Int x, Int y => Ok (Int (iop x y))
  | _, _ => x <- to_float a ;; y <- to_float b ;; Ok (Float (fop x y))
  end.

Definition add : num -> num -> result num := arith Z.add (SFadd prec emax).
Definition sub : num -> num -> result num := arith Z.sub (SFsub prec emax).
Definition mul : num -> num -> result num := arith Z.mul (SFmul prec emax).

Definition is_zero (x : float) : bool :=
  match x with
  | S754_zero _ => true
  | _ => false
  end.

(** The correctly rounded quotient of two ints, [y] not 0. *)
Definition int_quotient (x y : Z) : float :=
  match x, y with
  | Z0, _ => S754_zero (y <? 0)
  | _, Z0 => S754_nan
  | _, _ => SFdiv prec emax (S754_finite (x <? 0) (Z.to_pos (Z.abs x)) 0)
                            (S754_finite (y <? 0) (Z.to_pos (Z.abs y)) 0)
  end.

(** [a / b]: always a float; a zero divisor raises, for floats as well. *)
Definition truediv (a b : num) : result num :=
  match a, b with
  | Int x, Int y =>
      if y =? 0 then Raise ZeroDivisionError
      else match int_quotient x y with
           | S754_infinity _ => Raise OverflowError
           | q => Ok (Float q)
           end
  | _, _ =>
      x <- to_float a ;; y <- to_float b ;;
      if is_zero y then Raise ZeroDivisionError else Ok (Float (SFdiv prec emax x y))
  end.

(** The rational a finite double stands for. *)
Definition value (x : float) : Q :=
  match x with
  | S754_finite s m e => (inject_Z (cond_Zopp s (Zpos m)) * Qpower 2 e)%Q
  | _ => 0%Q
  end.

(** [round(n)]: an int is returned as it is, a finite double goes to the
    nearest integer of its exact value, ties to even. *)
Definition round (n : num) : result Z :=
  match n with
  | Int z => Ok z
  | Float S754_nan => Raise ValueError
  | Float (S754_infinity _) => Raise OverflowError
  | Float x => Ok (py_round (value x))
  end.

(** *** The functions of the script that compute numbers *)

Record Point : Type := mkPoint { px : num; py : num }.

Record GSNode : Type := mkNode {
  position : Point;
  node_type : string;
  smooth : bool
}.

Record GSPath : Type := mkPath {
  closed : bool;
  nodes : list GSNode
}.

(** [(x - bottom) / (top - bottom)] *)
Definition _rescale (x bottom top : num) : result num :=
  a <- sub x bottom ;;
  b <- sub top bottom ;;
  truediv a b.

(** [round(p0 * (1 - value) + p1 * value)] *)
Definition coordinate (p0 p1 value : num) : result Z :=
  u <- sub (Int 1) value ;;
  a <- mul p0 u ;;
  b <- mul p1 value ;;
  s <- add a b ;;
  round s.

Definition _interpolate_node (node_0 node_1 : GSNode) (value : num) : result GSNode :=
  x <- coordinate (px (position node_0)) (px (position node_1)) value ;;
  y <- coordinate (py (position node_0)) (py (position node_1)) value ;;
  Ok (mkNode (mkPoint (Int x) (Int y)) (node_type node_0) (smooth node_0)).

Definition _interpolate_path (path_0 path_1 : GSPath) (value : num) : result GSPath :=
  new_nodes <- mapM (fun nn => _interpolate_node (fst nn) (snd nn) value)
                    (combine (nodes path_0) (nodes path_1)) ;;
  Ok (mkPath (closed path_0) new_nodes).

(** [round(sum(values[i] * v for i, v in interpolation))]: the generator
    is consumed by [sum], which starts from the int 0 and adds every term
    as soon as it is produced. *)
Definition _generate (interpolation : list (nat * num)) (values : list num) : result Z :=
  s <- foldM (fun acc iv =>
                x <- py_index values (fst iv) ;;
                term <- mul x (snd iv) ;;
                add acc term)
             interpolation (Int 0) ;;
  round s.

(** The advances of [_advances] are ints. *)
Definition _variant (interpolation : list (nat * num)) (master : dict (dict (list Z)))
  : result (dict (dict Z)) :=
  dict_compM (fun _ => true)
    (dict_compM (fun _ => true) (fun values => _generate interpolation (map Int values)))
    master.

(** *** Specification-side notions *)

(** The sum over the vector of [w_j * masterValue[i_j]], added from the
    left onto [acc]. *)
Fixpoint weighted_sum_from (acc : num) (interpolation : list (nat * num))
    (masterValue : list num) : result num :=
  match interpolation with
  | [] => Ok acc
  | (i, w) :: r =>
      term <- mul w (nth i masterValue (Int 0)) ;;
      acc' <- add acc term ;;
      weighted_sum_from acc' r masterValue
  end.

Definition weighted_sum (interpolation : list (nat * num)) (masterValue : list num)
  : result num :=
  weighted_sum_from (Int 0) interpolation masterValue.

Definition indices_in_range (interpolation : list (nat * num)) (n : nat) : Prop :=
  Forall (fun iw => (fst iw < n)%nat) interpolation.

(** [pos0 * (1 - t) + pos1 * t] *)
Definition blend (pos0 pos1 t : num) : result num :=
  u <- sub (Int 1) t ;;
  a <- mul pos0 u ;;
  b <- mul pos1 t ;;
  add a b.

(** A number that [round] accepts, and the rational it stands for. *)
Definition finite (n : num) : Prop :=
  match n with
  | Int _ => True
  | Float (S754_finite _ _ _) => True
  | Float (S754_zero _) => True
  | Float _ => False
  end.

Definition value_of (n : num) : Q :=
  match n with
  | Int z => inject_Z z
  | Float x => value x
  end.

(** The computation [r] gives a number that [round] accepts. *)
Definition roundable (r : result num) : Prop :=
  exists s, r = Ok s /\ finite s.

(** The computation [r] gives a number that [round] accepts, and [z] is
    the integer nearest to it, the even one on a tie. *)
Definition rounds_to (r : result num) (z : Z) : Prop :=
  exists s, r = Ok s /\ finite s /\ nearest_even (value_of s) z.

(** *** Sample numbers *)

(** The double a decimal literal [n/d] denotes, for [n] and [d] that a
    double holds exactly. *)
Definition decimal (n d : Z) : num :=
  Float (SFdiv prec emax (float_of_Z n) (float_of_Z d)).

Definition half : num := decimal 1 2.

Definition line (x y : Z) : GSNode := mkNode (mkPoint (Int x) (Int y)) "line" false.

Definition box (w h : Z) : GSPath :=
  mkPath true [line 0 0; line w 0; line w h; line 0 h].

End Machine.

(** * Properties *)

(** ** The error monad and the loops *)

Lemma bind_Ok {A B : Type} (m : result A) (k : A -> result B) (b : B) :
  bind m k = Ok b -> exists a, m = Ok a /\ k a = Ok b.
Proof.
  destruct m as [a | e]; simpl; intros H.
  - exists a. split; [reflexivity | exact H].
  - discriminate H.
Qed.

Ltac inv_bind H :=
  let a := fresh "a" in
  let Ha := fresh "Ha" in
  apply bind_Ok in H; destruct H as [a [Ha H]].

Lemma mapM_Ok_Forall2 {A B : Type} (f : A -> result B) (l : list A) (l' : list B) :
  mapM f l = Ok l' -> Forall2 (fun x y => f x = Ok y) l l'.
Proof.
  revert l'. induction l as [| x r IH]; simpl; intros l' H.
  - injection H as <-. constructor.
  - inv_bind H. inv_bind H. injection H as <-.
    constructor; [assumption | apply IH; assumption].
Qed.

Lemma Forall2_mapM_Ok {A B : Type} (f : A -> result B) (l : list A) (l' : list B) :
  Forall2 (fun x y => f x = Ok y) l l' -> mapM f l = Ok l'.
Proof.
  induction 1 as [| x y r r' Hxy _ IH]; simpl.
  - reflexivity.
  - rewrite Hxy. simpl. rewrite IH. reflexivity.
Qed.

Lemma mapM_total {A B : Type} (f : A -> result B) (g : A -> B) (l : list A) :
  (forall x, In x l -> f x = Ok (g x)) -> mapM f l = Ok (map g l).
Proof.
  induction l as [| x r IH]; simpl; intros H.
  - reflexivity.
  - rewrite (H x (or_introl eq_refl)). simpl.
    rewrite IH by (intros y Hy; apply H; right; exact Hy). reflexivity.
Qed.

Lemma mapM_succeeds {A B : Type} (f : A -> result B) (l : list A) :
  (forall x, In x l -> exists y, f x = Ok y) -> exists l', mapM f l = Ok l'.
Proof.
  induction l as [| x r IH]; simpl; intros H.
  - exists []. reflexivity.
  - destruct (H x (or_introl eq_refl)) as [y Hy].
    destruct (IH (fun z Hz => H z (or_intror Hz))) as [l' Hl'].
    exists (y :: l'). rewrite Hy. simpl. rewrite Hl'. reflexivity.
Qed.

Lemma mapM_In {A B : Type} (f : A -> result B) (l : list A) (l' : list B) (y : B) :
  mapM f l = Ok l' -> In y l' -> exists x, In x l /\ f x = Ok y.
Proof.
  intros H. apply mapM_Ok_Forall2 in H.
  induction H as [| x y' r r' Hxy _ IH]; simpl; intros Hin.
  - contradiction.
  - destruct Hin as [-> | Hin].
    + exists x. split; [left; reflexivity | exact Hxy].
    + destruct (IH Hin) as [x' [Hx' Hf]]. exists x'. split; [right; exact Hx' | exact Hf].
Qed.

Lemma mapM_length {A B : Type} (f : A -> result B) (l : list A) (l' : list B) :
  mapM f l = Ok l' -> List.length l' = List.length l.
Proof.
  intros H. apply mapM_Ok_Forall2 in H. symmetry. eapply Forall2_length. exact H.
Qed.

(** ** Rounding *)

Lemma py_round_comp (x y : Q) : (x == y)%Q -> py_round x = py_round y.
Proof.
  intros E. unfold py_round.
  assert (Ef : Qfloor x = Qfloor y) by (apply Qfloor_comp; exact E).
  rewrite Ef.
  assert (Ec : ((x - inject_Z (Qfloor y)) ?= (1 # 2))%Q = ((y - inject_Z (Qfloor y)) ?= (1 # 2))%Q).
  { apply Qcompare_comp; [rewrite E; reflexivity | reflexivity]. }
  rewrite Ec. reflexivity.
Qed.

Lemma py_round_inject_Z (z : Z) : py_round (inject_Z z) = z.
Proof.
  unfold py_round. rewrite Qfloor_Z.
  assert (E : ((inject_Z z - inject_Z z) ?= (1 # 2))%Q = Lt).
  { rewrite <- Qlt_alt. setoid_replace (inject_Z z - inject_Z z)%Q with 0%Q by ring.
    reflexivity. }
  rewrite E. reflexivity.
Qed.

(** ** The weighted sum of a style *)

Lemma py_index_nth {A : Type} (l : list A) (i : nat) (d : A) :
  (i < List.length l)%nat -> py_index l i = Ok (nth i l d).
Proof.
  intros H. unfold py_index.
  rewrite (nth_error_nth' l d H). reflexivity.
Qed.

Lemma py_index_out {A : Type} (l : list A) (i : nat) :
  (List.length l <= i)%nat -> py_index l i = Raise IndexError.
Proof.
  intros H. unfold py_index.
  apply nth_error_None in H. rewrite H. reflexivity.
Qed.

Lemma fold_left_Qplus (l : list Q) (a : Q) :
  (fold_left Qplus l a == a + fold_right Qplus 0 l)%Q.
Proof.
  revert a. induction l as [| x r IH]; simpl; intros a.
  - ring.
  - rewrite IH. ring.
Qed.

Lemma weighted_sum_terms (interpolation : list (nat * Q)) (values : list Q) :
  (py_sum (map (fun iv => nth (fst iv) values 0 * snd iv) interpolation)
   == weighted_sum interpolation values)%Q.
Proof.
  unfold py_sum. rewrite fold_left_Qplus.
  induction interpolation as [| [i w] r IH]; simpl.
  - ring.
  - simpl in IH. rewrite <- IH. ring.
Qed.

Lemma generate_weighted_sum (interpolation : list (nat * Q)) (values : list Q) :
  indices_in_range interpolation (List.length values) ->
  _generate interpolation values = Ok (py_round (weighted_sum interpolation values)).
Proof.
  intros Hr. unfold _generate.
  rewrite (mapM_total _ (fun iv => (nth (fst iv) values 0 * snd iv)%Q)).
  - simpl. f_equal. apply py_round_comp. apply weighted_sum_terms.
  - intros [i w] Hin. simpl.
    unfold indices_in_range in Hr. rewrite Forall_forall in Hr.
    specialize (Hr (i, w) Hin). simpl in Hr.
    rewrite (py_index_nth values i 0%Q Hr). reflexivity.
Qed.

Lemma generate_Ok_in_range (interpolation : list (nat * Q)) (values : list Q) (v : Z) :
  _generate interpolation values = Ok v ->
  indices_in_range interpolation (List.length values).
Proof.
  unfold _generate. intros H. inv_bind H. clear H.
  apply mapM_Ok_Forall2 in Ha.
  unfold indices_in_range.
  induction Ha as [| [i w] y r r' Hxy _ IH]; constructor; [| exact IH].
  simpl in *. destruct (Nat.lt_ge_cases i (List.length values)) as [Hlt | Hge]; [exact Hlt |].
  rewrite (py_index_out values i Hge) in Hxy. discriminate Hxy.
Qed.

Lemma mapM_Raise {A B : Type} (f : A -> result B) (l : list A) (e : exn) :
  mapM f l = Raise e -> exists x, In x l /\ f x = Raise e.
Proof.
  induction l as [| x r IH]; simpl; intros H.
  - discriminate H.
  - destruct (f x) as [y | e'] eqn:E; simpl in H.
    + destruct (mapM f r) as [ys | e'']; simpl in H; [discriminate H |].
      injection H as ->. destruct (IH eq_refl) as [x' [Hin Hf]].
      exists x'. split; [right; exact Hin | exact Hf].
    + injection H as ->. exists x. split; [left; reflexivity | exact E].
Qed.

(** In exact arithmetic a master index without entry in the list is the
    only way to fail. *)
Lemma generate_out_of_range (interpolation : list (nat * Q)) (values : list Q) :
  ~ indices_in_range interpolation (List.length values) ->
  _generate interpolation values = Raise IndexError.
Proof.
  intros Hn. destruct (_generate interpolation values) as [v | e] eqn:G.
  - exfalso. apply Hn. eapply generate_Ok_in_range. exact G.
  - unfold _generate in G.
    destruct (mapM (fun iv => x <- py_index values (fst iv) ;; Ok (x * snd iv)%Q)
                   interpolation) as [terms | e'] eqn:M; simpl in G; [discriminate G |].
    injection G as ->. destruct (mapM_Raise _ _ _ M) as [[i w] [_ Hf]].
    simpl in Hf. unfold py_index in Hf.
    destruct (nth_error values i); simpl in Hf; [discriminate Hf |].
    injection Hf as <-. reflexivity.
Qed.

(** The scenario through the whole pipeline on the sample font: two
    masters, the style [Regular] with vector [(0, 0.5), (1, 0.5)], the
    constant [AxisHeight] with master values [100, 200]. *)
Example axis_height_scenario :
  Font_init Sample.affine Sample.gsfont = Ok Sample.F /\
  interpolations Sample.F = [("Regular", Sample.regular); ("Bold", Sample.bold)] /\
  _parse_math_table Sample.node_box Sample.F Sample.toml
  = (Ok [("Regular", Sample.regular_table); ("Bold", Sample.bold_table)],
     [mkWarning "dot" "ItalicCorrection" [5%Q]]) /\
  constants Sample.regular_table = [("AxisHeight", mkConstant 150 true)].
Proof.
  repeat split; reflexivity.
Qed.

(** ** Node interpolation *)




Lemma round_point_integral (x y : Z) :
  round_point (mkPoint (inject_Z x) (inject_Z y)) = mkPoint (inject_Z x) (inject_Z y).
Proof.
  unfold round_point. simpl. rewrite !py_round_inject_Z. reflexivity.
Qed.

Section Endpoints.

Variable applyTransform : Transform -> GSPath -> GSPath.



End Endpoints.


(** ** Extreme layers that do not correspond *)

Lemma interpolate_path_length (path_0 path_1 : GSPath) (value : Q) :
  List.length (nodes (_interpolate_path path_0 path_1 value))
  = Nat.min (List.length (nodes path_0)) (List.length (nodes path_1)).
Proof.
  unfold _interpolate_path. simpl.
  rewrite length_map. apply length_combine.
Qed.

Section Truncation.

Variable applyTransform : Transform -> GSPath -> GSPath.

Lemma interpolate_layers_length (layer_0 layer_1 : GSLayer) (value : Q) (t : Transform) :
  List.length (interpolate_layers applyTransform layer_0 layer_1 value t)
  = Nat.min (List.length (layer_paths layer_0)) (List.length (layer_paths layer_1)).
Proof.
  unfold interpolate_layers. rewrite length_map. apply length_combine.
Qed.

Lemma smart_component_resolved (f : GSFont) (parent : GSLayer) (comp : GSComponent)
    (t : Q) (is_part_n : Z -> GSLayer -> result bool) (glyph : GSGlyph)
    (layer_0 layer_1 : GSLayer) :
  selects f parent comp t is_part_n ->
  glyph_by_name f (comp_name comp) = Some glyph ->
  next_where (is_part_n 1) (layers glyph) = Ok layer_0 ->
  next_where (is_part_n 2) (layers glyph) = Ok layer_1 ->
  _smart_component_to_paths applyTransform f parent comp
  = Ok (interpolate_layers applyTransform layer_0 layer_1 t (transform comp)).
Proof.
  intros Hsel Hg H0 H1. unfold _smart_component_to_paths.
  destruct Hsel as [[Hv [-> ->]] | [key [value [glyph' [axis [Hv [Hg' [Ha [Hr ->]]]]]]]]].
  - rewrite Hv, Hg. simpl. rewrite H0. simpl. rewrite H1. reflexivity.
  - rewrite Hv, Hg. simpl.
    rewrite Hg in Hg'. injection Hg' as <-.
    rewrite Ha. simpl. rewrite Hr. simpl. rewrite H0. simpl. rewrite H1. reflexivity.
Qed.

(** C2, amended. When the part-1 and part-2 layers are found, resolution
    returns normally whatever their path and node counts: paths are paired
    by position up to the shorter list, and so are the nodes of each pair
    of paths. *)
Theorem mismatched_extremes_are_truncated :
  forall (f : GSFont) (parent : GSLayer) (comp : GSComponent)
         (t : Q) (is_part_n : Z -> GSLayer -> result bool) (glyph : GSGlyph)
         (layer_0 layer_1 : GSLayer),
    selects f parent comp t is_part_n ->
    glyph_by_name f (comp_name comp) = Some glyph ->
    next_where (is_part_n 1) (layers glyph) = Ok layer_0 ->
    next_where (is_part_n 2) (layers glyph) = Ok layer_1 ->
    _smart_component_to_paths applyTransform f parent comp
    = Ok (interpolate_layers applyTransform layer_0 layer_1 t (transform comp)) /\
    List.length (interpolate_layers applyTransform layer_0 layer_1 t (transform comp))
    = Nat.min (List.length (layer_paths layer_0)) (List.length (layer_paths layer_1)) /\
    (forall path_0 path_1 : GSPath,
        List.length (nodes (_interpolate_path path_0 path_1 t))
        = Nat.min (List.length (nodes path_0)) (List.length (nodes path_1))).
Proof.
  intros f parent comp t is_part_n glyph layer_0 layer_1 Hsel Hg H0 H1.
  split; [| split].
  - eapply smart_component_resolved; eassumption.
  - apply interpolate_layers_length.
  - intros path_0 path_1. apply interpolate_path_length.
Qed.

End Truncation.

(** C2 as stated fails: the part-1 layer of [uneven] has two paths of four
    nodes, the part-2 layer one path of three nodes, and resolution returns
    one path of three nodes instead of raising. *)
Lemma uneven_extremes_do_not_raise :
  map (fun l => map (fun p => List.length (nodes p)) (layer_paths l)) (layers Sample.uneven)
  = [[4; 4]; [3]]%nat /\
  _smart_component_to_paths Sample.affine Sample.uneven_font Sample.uneven_parent
    Sample.uneven_ref
  = Ok [mkPath true [Sample.line 0 0; Sample.line 10 0; Sample.line 10 200]].
Proof.
  split; reflexivity.
Qed.

Lemma mismatched_extremes_are_truncated_witness :
  _smart_component_to_paths Sample.affine Sample.uneven_font Sample.uneven_parent
    Sample.uneven_ref
  = Ok (interpolate_layers Sample.affine
          (mkLayer "m1" "m1" [("Height", 1)]
             [SPath (Sample.box 10 100); SPath (Sample.box 2 2)] [])
          (mkLayer "m1.tall" "m1" [("Height", 2)]
             [SPath (mkPath true [Sample.line 0 0; Sample.line 10 0; Sample.line 10 200])] [])
          (100 / 100) Sample.identity) /\
  List.length
    (interpolate_layers Sample.affine
          (mkLayer "m1" "m1" [("Height", 1)]
             [SPath (Sample.box 10 100); SPath (Sample.box 2 2)] [])
          (mkLayer "m1.tall" "m1" [("Height", 2)]
             [SPath (mkPath true [Sample.line 0 0; Sample.line 10 0; Sample.line 10 200])] [])
          (100 / 100) Sample.identity)
  = Nat.min 2 1 /\
  (forall path_0 path_1 : GSPath,
      List.length (nodes (_interpolate_path path_0 path_1 (100 / 100)))
      = Nat.min (List.length (nodes path_0)) (List.length (nodes path_1))).
Proof.
  apply (mismatched_extremes_are_truncated Sample.affine Sample.uneven_font
           Sample.uneven_parent Sample.uneven_ref (100 / 100)
           (_is_part_n_key "m1" "Height") Sample.uneven).
  - right. exists "Height", 100%Q, Sample.uneven, (mkAxis "Height" 0 100).
    repeat split; reflexivity.
  - reflexivity.
  - reflexivity.
  - reflexivity.
Defined.

(** ** Dictionaries *)

Lemma dict_get_set_same {V : Type} (d : dict V) (k : string) (v : V) :
  dict_get (dict_set d k v) k = Some v.
Proof.
  induction d as [| [k' v'] r IH]; simpl.
  - rewrite String.eqb_refl. reflexivity.
  - destruct (String.eqb k' k) eqn:E; simpl; rewrite E; [reflexivity | exact IH].
Qed.

Lemma dict_get_set_other {V : Type} (d : dict V) (k k' : string) (v : V) :
  k <> k' -> dict_get (dict_set d k v) k' = dict_get d k'.
Proof.
  intros Hne. induction d as [| [k0 v0] r IH]; simpl.
  - apply String.eqb_neq in Hne. rewrite Hne. reflexivity.
  - destruct (String.eqb k0 k) eqn:E; simpl.
    + apply String.eqb_eq in E. subst k0.
      apply String.eqb_neq in Hne. rewrite Hne. reflexivity.
    + destruct (String.eqb k0 k'); [reflexivity | exact IH].
Qed.

Lemma dict_keys_set {V : Type} (d : dict V) (k k' : string) (v : V) :
  In k' (dict_keys (dict_set d k v)) <-> k' = k \/ In k' (dict_keys d).
Proof.
  unfold dict_keys. induction d as [| [k0 v0] r IH]; simpl.
  - intuition.
  - destruct (String.eqb k0 k) eqn:E; simpl.
    + apply String.eqb_eq in E. subst k0. intuition.
    + rewrite IH. intuition.
Qed.

Lemma dict_get_In {V : Type} (d : dict V) (k : string) (v : V) :
  dict_get d k = Some v -> In (k, v) d.
Proof.
  induction d as [| [k0 v0] r IH]; simpl; intros H.
  - discriminate H.
  - destruct (String.eqb k0 k) eqn:E.
    + apply String.eqb_eq in E. subst k0. injection H as ->. left. reflexivity.
    + right. apply IH. exact H.
Qed.

Lemma dict_get_keys {V : Type} (d : dict V) (k : string) :
  In k (dict_keys d) <-> exists v, dict_get d k = Some v.
Proof.
  unfold dict_keys. induction d as [| [k0 v0] r IH]; simpl.
  - split; [contradiction | intros [v H]; discriminate H].
  - destruct (String.eqb k0 k) eqn:E.
    + apply String.eqb_eq in E. subst k0. split; [intros _; exists v0; reflexivity | auto].
    + apply String.eqb_neq in E. rewrite <- IH. intuition.
Qed.

Lemma dict_get_app {V : Type} (d d' : dict V) (k : string) :
  dict_get (d ++ d') k
  = match dict_get d k with Some v => Some v | None => dict_get d' k end.
Proof.
  induction d as [| [k0 v0] r IH]; simpl.
  - reflexivity.
  - destruct (String.eqb k0 k); [reflexivity | exact IH].
Qed.

(** A dict built from items holds, under each key, the last item of that key. *)
Lemma dict_get_fold_set {V : Type} (items : list (string * V)) (d : dict V) (k : string) :
  dict_get (fold_left (fun d kv => dict_set d (fst kv) (snd kv)) items d) k
  = match dict_get (rev items) k with Some v => Some v | None => dict_get d k end.
Proof.
  revert d. induction items as [| [k0 v0] r IH]; simpl; intros d.
  - reflexivity.
  - rewrite IH. rewrite dict_get_app. simpl.
    destruct (dict_get (rev r) k); [reflexivity |].
    destruct (String.eqb k0 k) eqn:E.
    + apply String.eqb_eq in E. subst k0. apply dict_get_set_same.
    + apply String.eqb_neq in E. apply dict_get_set_other. exact E.
Qed.

Lemma dict_get_of_items {V : Type} (items : list (string * V)) (k : string) :
  dict_get (dict_of_items items) k = dict_get (rev items) k.
Proof.
  unfold dict_of_items. rewrite dict_get_fold_set.
  destruct (dict_get (rev items) k); reflexivity.
Qed.

Lemma dict_get_filter {V : Type} (keep : string -> bool) (d : dict V) (k : string) :
  dict_get (filter (fun kv => keep (fst kv)) d) k
  = if keep k then dict_get d k else None.
Proof.
  induction d as [| [k0 v0] r IH]; simpl.
  - destruct (keep k); reflexivity.
  - destruct (keep k0) eqn:K0; simpl.
    + destruct (String.eqb k0 k) eqn:E.
      * apply String.eqb_eq in E. subst k0. rewrite K0. reflexivity.
      * exact IH.
    + destruct (String.eqb k0 k) eqn:E.
      * apply String.eqb_eq in E. subst k0. rewrite IH, K0. reflexivity.
      * exact IH.
Qed.

Lemma mapM_items_from {V W : Type} (f : V -> result W) (l : list (string * V))
    (l' : list (string * W)) :
  mapM (fun kv => w <- f (snd kv) ;; Ok (fst kv, w)) l = Ok l' -> items_from f l l'.
Proof.
  intros H. apply mapM_Ok_Forall2 in H. unfold items_from.
  induction H as [| kv kw r r' Hxy _ IH]; constructor; [| exact IH].
  inv_bind Hxy. injection Hxy as <-. simpl. split; [reflexivity | exact Ha].
Qed.

Lemma items_from_get {V W : Type} (f : V -> result W) (l : list (string * V))
    (l' : list (string * W)) (k : string) :
  items_from f l l' ->
  match dict_get l k with
  | Some v => exists w, f v = Ok w /\ dict_get l' k = Some w
  | None => dict_get l' k = None
  end.
Proof.
  induction 1 as [| [k0 v0] [k1 w1] r r' [Hk Hf] _ IH]; simpl in *.
  - reflexivity.
  - subst k1. destruct (String.eqb k0 k).
    + exists w1. split; [exact Hf | reflexivity].
    + exact IH.
Qed.

Lemma items_from_rev {V W : Type} (f : V -> result W) (l : list (string * V))
    (l' : list (string * W)) :
  items_from f l l' -> items_from f (rev l) (rev l').
Proof.
  unfold items_from. induction 1 as [| x y r r' Hxy _ IH]; simpl.
  - constructor.
  - apply Forall2_app; [exact IH | constructor; [exact Hxy | constructor]].
Qed.

Lemma items_from_keys {V W : Type} (f : V -> result W) (l : list (string * V))
    (l' : list (string * W)) :
  items_from f l l' -> dict_keys l' = dict_keys l.
Proof.
  unfold dict_keys. induction 1 as [| x y r r' [Hk _] _ IH]; simpl.
  - reflexivity.
  - rewrite Hk, IH. reflexivity.
Qed.

Lemma dict_keys_fold_set {V : Type} (items : list (string * V)) (d : dict V) (k : string) :
  In k (dict_keys (fold_left (fun d kv => dict_set d (fst kv) (snd kv)) items d))
  <-> In k (dict_keys items) \/ In k (dict_keys d).
Proof.
  revert d. induction items as [| [k0 v0] r IH]; simpl; intros d.
  - intuition.
  - rewrite IH, dict_keys_set. simpl. intuition.
Qed.

Lemma dict_keys_of_items {V : Type} (items : list (string * V)) (k : string) :
  In k (dict_keys (dict_of_items items)) <-> In k (dict_keys items).
Proof.
  unfold dict_of_items. rewrite dict_keys_fold_set. simpl. intuition.
Qed.

(** What a dict comprehension holds under a key: nothing for a key the
    filter rejects, otherwise the image of the last value of that key. *)
Lemma dict_compM_get {V W : Type} (keep : string -> bool) (f : V -> result W)
    (d : dict V) (r : dict W) (k : string) :
  dict_compM keep f d = Ok r ->
  if keep k then
    match dict_get (rev d) k with
    | Some v => exists w, f v = Ok w /\ dict_get r k = Some w
    | None => dict_get r k = None
    end
  else dict_get r k = None.
Proof.
  unfold dict_compM. intros H. inv_bind H. injection H as <-.
  apply mapM_items_from in Ha. apply items_from_rev in Ha.
  pose proof (items_from_get f _ _ k Ha) as G.
  rewrite <- filter_rev in G. rewrite dict_get_filter in G.
  rewrite dict_get_of_items.
  destruct (keep k); exact G.
Qed.

Lemma dict_compM_keys {V W : Type} (keep : string -> bool) (f : V -> result W)
    (d : dict V) (r : dict W) (k : string) :
  dict_compM keep f d = Ok r ->
  (In k (dict_keys r) <-> In k (dict_keys d) /\ keep k = true).
Proof.
  unfold dict_compM. intros H. inv_bind H. injection H as <-.
  apply mapM_items_from in Ha. apply items_from_keys in Ha.
  rewrite dict_keys_of_items, Ha. unfold dict_keys.
  rewrite in_map_iff. split.
  - intros [[k0 v0] [E Hin]]. simpl in E. subst k0.
    apply filter_In in Hin. destruct Hin as [Hin Hk]. simpl in Hk.
    split; [| exact Hk]. apply in_map_iff. exists (k, v0). split; [reflexivity | exact Hin].
  - intros [Hin Hk]. apply in_map_iff in Hin. destruct Hin as [[k0 v0] [E Hin]].
    simpl in E. subst k0. exists (k, v0). split; [reflexivity |].
    apply filter_In. split; [exact Hin | exact Hk].
Qed.

Lemma dict_compM_get_Some {V W : Type} (keep : string -> bool) (f : V -> result W)
    (d : dict V) (r : dict W) (k : string) (w : W) :
  dict_compM keep f d = Ok r -> dict_get r k = Some w ->
  keep k = true /\ exists v, dict_get (rev d) k = Some v /\ f v = Ok w.
Proof.
  intros H G. pose proof (dict_compM_get keep f d r k H) as P.
  destruct (keep k).
  - split; [reflexivity |].
    destruct (dict_get (rev d) k) as [v |].
    + destruct P as [w' [Hf Hg]]. rewrite Hg in G. injection G as <-.
      exists v. split; [reflexivity | exact Hf].
    + rewrite P in G. discriminate G.
  - rewrite P in G. discriminate G.
Qed.

(** ** Glyph assemblies *)

(** C8. Every part of a component gets one part record, in order; the
    record of an extender has part flags [0x0001], the record of a part
    that does not repeat has [0xFFFE], which is not zero. *)
Theorem glyph_assembly_part_flags :
  forall component : Component,
    map PartFlags (PartRecords (_glyph_assembly component))
    = map (fun part => if isExtender part then 0x0001 else 0xFFFE) (parts component) /\
    map part_glyph (PartRecords (_glyph_assembly component))
    = map p_name (parts component) /\
    PartCount (_glyph_assembly component) = List.length (parts component) /\
    0xFFFE <> 0 /\ 0xFFFE = 65534 /\
    (forall r, In r (PartRecords (_glyph_assembly component)) ->
               PartFlags r = 0x0001 \/ PartFlags r = 0xFFFE).
Proof.
  intros component. unfold _glyph_assembly. simpl.
  repeat split.
  - rewrite map_map. reflexivity.
  - rewrite map_map. reflexivity.
  - discriminate.
  - intros r Hin. apply in_map_iff in Hin. destruct Hin as [part [<- _]]. simpl.
    destruct (isExtender part); [left | right]; reflexivity.
Qed.

(** The extender flag of a style's part is the one of the TOML part. *)
Lemma style_part_isExtender (interpolation : list (nat * Q)) (part : TomlPart)
    (vp : VariantPart) (p : Part) :
  style_part interpolation (merge_part part vp) = Ok p ->
  isExtender p = tp_isExtender part /\ p_name p = tp_name part.
Proof.
  unfold style_part. intros H. inv_bind H. inv_bind H. inv_bind H.
  injection H as <-. simpl. split; reflexivity.
Qed.

(** ** Italic correction of assemblies *)

Lemma style_component_italics (interpolation : list (nat * Q)) (mc : MasterComponent)
    (c : Component) :
  style_component interpolation mc = Ok c ->
  italicsCorrection c = mc_italicsCorrection mc /\
  Forall2 (fun mp p =>
             _generate interpolation (mp_startConnector mp) = Ok (startConnector p) /\
             _generate interpolation (mp_endConnector mp) = Ok (endConnector p) /\
             _generate interpolation (map inject_Z (mp_fullAdvance mp)) = Ok (fullAdvance p))
          (mc_parts mc) (parts c).
Proof.
  unfold style_component. intros H. inv_bind H. injection H as <-. simpl.
  split; [reflexivity |].
  apply mapM_Ok_Forall2 in Ha.
  induction Ha as [| mp p r r' Hxy _ IH]; constructor; [| exact IH].
  unfold style_part in Hxy. inv_bind Hxy. inv_bind Hxy. inv_bind Hxy.
  injection Hxy as <-. simpl. auto.
Qed.

(** C10. The italic correction of every assembly of a style is the one of
    the master data, whatever the interpolation vector, so two styles have
    the same; the start connector, end connector and full advance of the
    parts are the interpolated values. *)
Theorem assembly_italics_not_interpolated :
  forall (interpolation_1 interpolation_2 : list (nat * Q))
         (master : dict MasterComponent) (style_1 style_2 : dict Component),
    _componet interpolation_1 master = Ok style_1 ->
    _componet interpolation_2 master = Ok style_2 ->
    forall glyph c1,
      dict_get style_1 glyph = Some c1 ->
      exists mc c2,
        In (glyph, mc) master /\
        dict_get style_2 glyph = Some c2 /\
        italicsCorrection c1 = mc_italicsCorrection mc /\
        italicsCorrection c2 = mc_italicsCorrection mc /\
        Value (ItalicsCorrection (_glyph_assembly c1)) = mc_italicsCorrection mc /\
        Forall2 (fun mp p =>
                   _generate interpolation_1 (mp_startConnector mp) = Ok (startConnector p) /\
                   _generate interpolation_1 (mp_endConnector mp) = Ok (endConnector p) /\
                   _generate interpolation_1 (map inject_Z (mp_fullAdvance mp))
                   = Ok (fullAdvance p))
                (mc_parts mc) (parts c1).
Proof.
  intros i1 i2 master s1 s2 H1 H2 glyph c1 G1.
  unfold _componet in *.
  destruct (dict_compM_get_Some _ _ _ _ _ _ H1 G1) as [_ [mc [Hmc Hc1]]].
  pose proof (dict_compM_get _ _ _ _ glyph H2) as P2. simpl in P2.
  rewrite Hmc in P2. destruct P2 as [c2 [Hc2 G2]].
  destruct (style_component_italics _ _ _ Hc1) as [E1 Hparts].
  destruct (style_component_italics _ _ _ Hc2) as [E2 _].
  exists mc, c2. repeat split; try assumption.
  apply dict_get_In in Hmc. apply in_rev in Hmc. exact Hmc.
Qed.

Lemma assembly_italics_not_interpolated_witness :
  exists mc c2,
    In ("i", mc) (mv_VerticalComponents (md_MathVariants Sample.master_data)) /\
    dict_get (VerticalComponents (variants Sample.bold_table)) "i" = Some c2 /\
    3 = mc_italicsCorrection mc /\
    italicsCorrection c2 = mc_italicsCorrection mc /\
    3 = mc_italicsCorrection mc /\
    Forall2 (fun mp p =>
               _generate Sample.regular (mp_startConnector mp) = Ok (startConnector p) /\
               _generate Sample.regular (mp_endConnector mp) = Ok (endConnector p) /\
               _generate Sample.regular (map inject_Z (mp_fullAdvance mp))
               = Ok (fullAdvance p))
            (mc_parts mc)
            [mkPart "dot" true 3 4 11; mkPart "i" false 2 2 150].
Proof.
  exact (assembly_italics_not_interpolated Sample.regular Sample.bold
           (mv_VerticalComponents (md_MathVariants Sample.master_data))
           (VerticalComponents (variants Sample.regular_table))
           (VerticalComponents (variants Sample.bold_table))
           eq_refl eq_refl "i"
           (mkStyleComponent 3 [mkPart "dot" true 3 4 11; mkPart "i" false 2 2 150])
           eq_refl).
Defined.

(** ** Removed glyphs *)

Lemma str_in_In (k : string) (l : list string) : str_in k l = true <-> In k l.
Proof.
  unfold str_in. rewrite existsb_exists. split.
  - intros [x [Hin E]]. apply String.eqb_eq in E. subst x. exact Hin.
  - intros Hin. exists k. split; [exact Hin | apply String.eqb_refl].
Qed.

Lemma is_removed_glyph_In (l : list string) (g : string) :
  _is_removed_glyph (Some l) g = true <-> In g l.
Proof.
  destruct l as [| x r].
  - simpl. split; [discriminate | contradiction].
  - unfold _is_removed_glyph. apply str_in_In.
Qed.

Lemma style_glyph_info_keys (remove_glyphs : option (list string))
    (interpolation : list (nat * Q)) (master_glyph_info : dict GlyphInfoEntry)
    (name : string) (r : dict Z) :
  style_glyph_info remove_glyphs interpolation master_glyph_info name = Ok r ->
  exists d, glyph_values master_glyph_info name = Ok d /\
            forall g, In g (dict_keys r)
                      <-> In g (dict_keys d) /\ _is_removed_glyph remove_glyphs g = false.
Proof.
  unfold style_glyph_info. intros H. inv_bind H. exists a. split; [exact Ha |].
  intros g. rewrite (dict_compM_keys _ _ _ _ g H).
  rewrite negb_true_iff. reflexivity.
Qed.

Lemma variant_keys (interpolation : list (nat * Q)) (master : dict (dict (list Z)))
    (r : dict (dict Z)) (g : string) :
  _variant interpolation master = Ok r -> (In g (dict_keys r) <-> In g (dict_keys master)).
Proof.
  unfold _variant. intros H. rewrite (dict_compM_keys _ _ _ _ g H). intuition.
Qed.

Lemma componet_keys (interpolation : list (nat * Q)) (master : dict MasterComponent)
    (r : dict Component) (g : string) :
  _componet interpolation master = Ok r -> (In g (dict_keys r) <-> In g (dict_keys master)).
Proof.
  unfold _componet. intros H. rewrite (dict_compM_keys _ _ _ _ g H). intuition.
Qed.

(** C9. In the table of a style, a glyph has an italic correction (a top
    accent) exactly when the master data has one for it and the style's
    [Remove Glyphs] list does not name it; the extended shapes are the
    master's, and the variants and the assemblies keep every glyph of the
    master data, removed or not.  Without a [Remove Glyphs] parameter no
    glyph is excluded. *)
Theorem remove_glyphs_only_filters_glyph_info :
  forall (F : Font) (master_data : MasterData) (style : string)
         (interpolation : list (nat * Q)) (instance : GSInstance) (t : MathTable),
    next_where (fun i => Ok (String.eqb (instance_name i) style)) (instances (font F))
    = Ok instance ->
    style_math_table F master_data style interpolation = Ok t ->
    exists italic top : dict (list Q),
      glyph_values (md_MathGlyphInfo master_data) "ItalicCorrection" = Ok italic /\
      glyph_values (md_MathGlyphInfo master_data) "TopAccent" = Ok top /\
      (forall g,
          In g (dict_keys (ItalicCorrection (glyph_info t)))
          <-> In g (dict_keys italic) /\
              _is_removed_glyph (remove_glyphs_param instance) g = false) /\
      (forall g,
          In g (dict_keys (TopAccent (glyph_info t)))
          <-> In g (dict_keys top) /\
              _is_removed_glyph (remove_glyphs_param instance) g = false) /\
      (forall removed g,
          remove_glyphs_param instance = Some removed -> In g removed ->
          dict_get (ItalicCorrection (glyph_info t)) g = None /\
          dict_get (TopAccent (glyph_info t)) g = None) /\
      (remove_glyphs_param instance = None ->
       forall g, (In g (dict_keys italic) -> In g (dict_keys (ItalicCorrection (glyph_info t)))) /\
                 (In g (dict_keys top) -> In g (dict_keys (TopAccent (glyph_info t))))) /\
      dict_item (md_MathGlyphInfo master_data) "ExtendedShapes"
      = Ok (ExtendedShapes (glyph_info t)) /\
      (forall g,
          (In g (dict_keys (mv_HorizontalVariants (md_MathVariants master_data)))
           <-> In g (dict_keys (HorizontalVariants (variants t)))) /\
          (In g (dict_keys (mv_VerticalVariants (md_MathVariants master_data)))
           <-> In g (dict_keys (VerticalVariants (variants t)))) /\
          (In g (dict_keys (mv_HorizontalComponents (md_MathVariants master_data)))
           <-> In g (dict_keys (HorizontalComponents (variants t)))) /\
          (In g (dict_keys (mv_VerticalComponents (md_MathVariants master_data)))
           <-> In g (dict_keys (VerticalComponents (variants t))))).
Proof.
  intros F master_data style interpolation instance t Hi H.
  unfold style_math_table in H. rewrite Hi in H. simpl in H.
  inv_bind H. rename a into cs. rename Ha into Hcs.
  inv_bind H. rename a into ic. rename Ha into Hic.
  inv_bind H. rename a into ta. rename Ha into Hta.
  inv_bind H. rename a into es. rename Ha into Hes.
  inv_bind H. rename a into mco. rename Ha into Hmco.
  inv_bind H. rename a into hv. rename Ha into Hhv.
  inv_bind H. rename a into vv. rename Ha into Hvv.
  inv_bind H. rename a into hc. rename Ha into Hhc.
  inv_bind H. rename a into vc. rename Ha into Hvc.
  injection H as <-. simpl.
  destruct (style_glyph_info_keys _ _ _ _ _ Hic) as [italic [Ditalic Kitalic]].
  destruct (style_glyph_info_keys _ _ _ _ _ Hta) as [top [Dtop Ktop]].
  exists italic, top.
  split; [exact Ditalic |]. split; [exact Dtop |].
  split; [exact Kitalic |]. split; [exact Ktop |].
  split; [| split; [| split]].
  - intros removed g Hr Hg.
    assert (Hrem : _is_removed_glyph (remove_glyphs_param instance) g = true).
    { rewrite Hr. apply is_removed_glyph_In. exact Hg. }
    split.
    + destruct (dict_get ic g) as [v |] eqn:G; [| reflexivity].
      assert (Hk : In g (dict_keys ic)) by (apply dict_get_keys; exists v; exact G).
      apply Kitalic in Hk. destruct Hk as [_ Hk]. rewrite Hk in Hrem. discriminate Hrem.
    + destruct (dict_get ta g) as [v |] eqn:G; [| reflexivity].
      assert (Hk : In g (dict_keys ta)) by (apply dict_get_keys; exists v; exact G).
      apply Ktop in Hk. destruct Hk as [_ Hk]. rewrite Hk in Hrem. discriminate Hrem.
  - intros Hnone g. rewrite Hnone in Kitalic, Ktop. split; intros Hg.
    + apply Kitalic. split; [exact Hg | reflexivity].
    + apply Ktop. split; [exact Hg | reflexivity].
  - exact Hes.
  - intros g. repeat split; intros Hg.
    + apply (variant_keys _ _ _ g Hhv). exact Hg.
    + apply (variant_keys _ _ _ g Hhv). exact Hg.
    + apply (variant_keys _ _ _ g Hvv). exact Hg.
    + apply (variant_keys _ _ _ g Hvv). exact Hg.
    + apply (componet_keys _ _ _ g Hhc). exact Hg.
    + apply (componet_keys _ _ _ g Hhc). exact Hg.
    + apply (componet_keys _ _ _ g Hvc). exact Hg.
    + apply (componet_keys _ _ _ g Hvc). exact Hg.
Qed.

(** The asymmetry on the sample font: the style [Bold] removes [dot], which
    loses its italic correction but stays an extended shape and keeps its
    variants; the style [Regular] removes nothing. *)
Example removed_glyph_asymmetry :
  style_math_table Sample.F Sample.master_data "Bold" Sample.bold
  = Ok Sample.bold_table /\
  dict_keys (ItalicCorrection (glyph_info Sample.bold_table)) = ["i"] /\
  ExtendedShapes (glyph_info Sample.bold_table) = GIList ["dot"] /\
  dict_keys (HorizontalVariants (variants Sample.bold_table)) = ["dot"] /\
  dict_keys (ItalicCorrection (glyph_info Sample.regular_table))
  = ["dot"; "i"].
Proof.
  repeat split; reflexivity.
Qed.

Lemma remove_glyphs_only_filters_glyph_info_witness :
  dict_get (ItalicCorrection (glyph_info Sample.bold_table)) "dot" = None /\
  In "dot" (dict_keys (HorizontalVariants (variants Sample.bold_table))) /\
  ExtendedShapes (glyph_info Sample.bold_table) = GIList ["dot"].
Proof.
  destruct (remove_glyphs_only_filters_glyph_info Sample.F Sample.master_data
              "Bold" Sample.bold
              (mkInstance "Bold" true [("m2", 1%Q)] (Some ["dot"]))
              Sample.bold_table eq_refl eq_refl)
    as [italic [top [_ [_ [_ [_ [Hrem [_ [Hes Hvar]]]]]]]]].
  split; [| split].
  - apply (Hrem ["dot"] "dot" eq_refl). left. reflexivity.
  - apply (Hvar "dot"). left. reflexivity.
  - reflexivity.
Defined.

(** ** Advances of variants *)

Lemma In_dict_set {V : Type} (d : dict V) (k k' : string) (v v' : V) :
  In (k', v') (dict_set d k v) -> (k', v') = (k, v) \/ In (k', v') d.
Proof.
  induction d as [| [k0 v0] r IH]; simpl.
  - intros [E | []]. left. symmetry. exact E.
  - destruct (String.eqb k0 k) eqn:E; simpl.
    + apply String.eqb_eq in E. subst k0. intros [E' | Hin].
      * left. symmetry. exact E'.
      * right. right. exact Hin.
    + intros [E' | Hin].
      * right. left. exact E'.
      * destruct (IH Hin) as [E' | Hin']; [left; exact E' | right; right; exact Hin'].
Qed.

Lemma In_fold_set {V : Type} (items : list (string * V)) (d : dict V) (k : string) (v : V) :
  In (k, v) (fold_left (fun d kv => dict_set d (fst kv) (snd kv)) items d) ->
  In (k, v) items \/ In (k, v) d.
Proof.
  revert d. induction items as [| [k0 v0] r IH]; simpl; intros d H.
  - right. exact H.
  - destruct (IH _ H) as [Hin | Hin].
    + left. right. exact Hin.
    + apply In_dict_set in Hin. destruct Hin as [E | Hin].
      * left. left. symmetry. exact E.
      * right. exact Hin.
Qed.

Lemma In_dict_of_items {V : Type} (items : list (string * V)) (k : string) (v : V) :
  In (k, v) (dict_of_items items) -> In (k, v) items.
Proof.
  unfold dict_of_items. intros H. apply In_fold_set in H.
  destruct H as [H | []]. exact H.
Qed.

Lemma map_valuesM_In {V W : Type} (f : string -> V -> result W) (d : dict V) (d' : dict W)
    (k : string) (w : W) :
  map_valuesM f d = Ok d' -> In (k, w) d' -> exists v, In (k, v) d /\ f k v = Ok w.
Proof.
  unfold map_valuesM. intros H Hin.
  destruct (mapM_In _ _ _ _ H Hin) as [[k0 v0] [Hin0 Hf]].
  simpl in Hf. inv_bind Hf. injection Hf as -> ->.
  exists v0. split; [exact Hin0 | exact Ha].
Qed.

Section Advances.

Variable bounds_size : GSLayer -> option Size.

Lemma advances_raw (F : Font) (glyph direction : string) (raw : list Z) :
  _advances bounds_size F glyph direction false = Ok raw ->
  exists g ls,
    glyph_by_name (font F) glyph = Some g /\
    _master_layers F (layers g) = Ok ls /\
    Forall2 (layer_advance bounds_size direction) ls raw.
Proof.
  unfold _advances. intros H. inv_bind H. rename a into g.
  inv_bind H. rename a into ls. inv_bind H. injection H as <-.
  destruct (glyph_by_name (font F) glyph) as [g' |]; [| discriminate Ha].
  injection Ha as ->.
  exists g, ls. split; [reflexivity |]. split; [exact Ha0 |].
  apply mapM_Ok_Forall2 in Ha1. clear Ha0.
  induction Ha1 as [| l a r r' Hxy _ IH]; constructor; [| exact IH].
  unfold layer_advance. destruct (bounds_size l) as [size |]; [| discriminate Hxy].
  injection Hxy as <-. exists size. split; [reflexivity |]. split; [reflexivity |].
  apply Z.abs_nonneg.
Qed.

Lemma advances_plus_1 (F : Font) (glyph direction : string) (padded : list Z) :
  _advances bounds_size F glyph direction true = Ok padded ->
  exists raw,
    _advances bounds_size F glyph direction false = Ok raw /\
    padded = map (fun i => i + 1) raw.
Proof.
  unfold _advances. intros H. inv_bind H. inv_bind H. inv_bind H. injection H as <-.
  rewrite Ha. simpl. rewrite Ha0. simpl. rewrite Ha1. simpl.
  exists a1. split; reflexivity.
Qed.

Lemma variant_advances_In (F : Font) (direction glyph : string) (suffixes : list string)
    (mvs : dict (list Z)) (var : string) (values : list Z) :
  variant_advances bounds_size F direction glyph suffixes = Ok mvs ->
  In (var, values) mvs ->
  _advances bounds_size F var direction true = Ok values.
Proof.
  unfold variant_advances. intros H Hin. inv_bind H. injection H as <-.
  apply In_dict_of_items in Hin.
  destruct (mapM_In _ _ _ _ Ha Hin) as [suffix [_ Hf]].
  inv_bind Hf. injection Hf as <- <-. exact Ha0.
Qed.

End Advances.

Lemma variant_lookup (interpolation : list (nat * Q)) (master : dict (dict (list Z)))
    (style : dict (dict Z)) (glyph var : string) (vs : dict Z) (adv : Z) :
  _variant interpolation master = Ok style ->
  dict_get style glyph = Some vs ->
  dict_get vs var = Some adv ->
  exists mvs values,
    In (glyph, mvs) master /\ In (var, values) mvs /\
    _generate interpolation (map inject_Z values) = Ok adv.
Proof.
  unfold _variant. intros H G1 G2.
  destruct (dict_compM_get_Some _ _ _ _ _ _ H G1) as [_ [mvs [Hmvs Hvs]]].
  destruct (dict_compM_get_Some _ _ _ _ _ _ Hvs G2) as [_ [values [Hvalues Hadv]]].
  exists mvs, values. repeat split.
  - apply dict_get_In in Hmvs. apply in_rev in Hmvs. exact Hmvs.
  - apply dict_get_In in Hvalues. apply in_rev in Hvalues. exact Hvalues.
  - exact Hadv.
Qed.

Lemma glyph_construction_records (vs : dict Z) (var : string) (adv : Z) :
  dict_get vs var = Some adv ->
  In (mkVariantRecord var adv) (VariantRecords (_glyph_construction vs)).
Proof.
  intros G. apply dict_get_In in G. unfold _glyph_construction. simpl.
  apply in_map_iff. exists (var, adv). split; [reflexivity | exact G].
Qed.

Lemma lbind_Ok {A B : Type} (m : logged A) (k : A -> logged B) (b : B) :
  fst (lbind m k) = Ok b -> exists a, fst m = Ok a /\ fst (k a) = Ok b.
Proof.
  unfold lbind. destruct (fst m) as [a | e]; simpl; intros H.
  - exists a. split; [reflexivity | exact H].
  - discriminate H.
Qed.

Section StyleVariants.

Variable bounds_size : GSLayer -> option Size.

(** The variant data of the master table, as made from the TOML document. *)
Lemma parse_master_variants (F : Font) (data : TomlData) (md : MasterData) :
  fst (_parse_master_math_table bounds_size F data) = Ok md ->
  fst (parse_glyph_info F (toml_MathGlyphInfo data)) = Ok (md_MathGlyphInfo md) /\
  md_MathConstants md = toml_MathConstants data /\
  map_valuesM (variant_advances bounds_size F "H")
    (tv_HorizontalVariants (toml_MathVariants data))
  = Ok (mv_HorizontalVariants (md_MathVariants md)) /\
  map_valuesM (variant_advances bounds_size F "V")
    (tv_VerticalVariants (toml_MathVariants data))
  = Ok (mv_VerticalVariants (md_MathVariants md)) /\
  map_valuesM (fun _ => master_component bounds_size F "H")
    (tv_HorizontalComponents (toml_MathVariants data))
  = Ok (mv_HorizontalComponents (md_MathVariants md)) /\
  map_valuesM (fun _ => master_component bounds_size F "V")
    (tv_VerticalComponents (toml_MathVariants data))
  = Ok (mv_VerticalComponents (md_MathVariants md)).
Proof.
  unfold _parse_master_math_table. intros H.
  apply lbind_Ok in H. destruct H as [gi [Hgi H]]. unfold lift in H. simpl in H.
  inv_bind H. inv_bind H. inv_bind H. inv_bind H. injection H as <-. simpl.
  repeat split; assumption.
Qed.

Lemma style_math_table_variants (F : Font) (md : MasterData) (style : string)
    (interpolation : list (nat * Q)) (t : MathTable) :
  style_math_table F md style interpolation = Ok t ->
  _variant interpolation (mv_HorizontalVariants (md_MathVariants md))
  = Ok (HorizontalVariants (variants t)) /\
  _variant interpolation (mv_VerticalVariants (md_MathVariants md))
  = Ok (VerticalVariants (variants t)) /\
  _componet interpolation (mv_HorizontalComponents (md_MathVariants md))
  = Ok (HorizontalComponents (variants t)) /\
  _componet interpolation (mv_VerticalComponents (md_MathVariants md))
  = Ok (VerticalComponents (variants t)).
Proof.
  unfold style_math_table. intros H.
  do 10 (inv_bind H). injection H as <-. simpl.
  repeat split; assumption.
Qed.

End StyleVariants.

(** C4 as stated fails on the sample font: the widths of [dot] are 10 and
    11, the style [Regular] weighs both masters by one half, and the
    variant record holds [round((11 + 12) / 2) = 12], not
    [round((10 + 11) / 2) + 1 = 11]. *)
Lemma variant_advance_is_not_padded_after_rounding :
  fst (_parse_master_math_table Sample.node_box Sample.F Sample.toml)
  = Ok Sample.master_data /\
  style_math_table Sample.F Sample.master_data "Regular" Sample.regular
  = Ok Sample.regular_table /\
  _advances Sample.node_box Sample.F "dot" "H" false = Ok [10; 11] /\
  _variants Sample.regular_table "Horizontal"
  = Ok ([mkConstruction None 1 [mkVariantRecord "dot" 12]], _coverage ["dot"], 1%nat) /\
  py_round (weighted_sum Sample.regular (map inject_Z [10; 11])) + 1 = 11 /\
  12 <> 11.
Proof.
  repeat split; try reflexivity. discriminate.
Qed.

(** ** Incomplete per-master data *)

Lemma lbind_inv {A B : Type} (m : logged A) (k : A -> logged B) (b : B)
    (log : list Warning) :
  lbind m k = (Ok b, log) ->
  exists a l1 l2, m = (Ok a, l1) /\ k a = (Ok b, l2) /\ log = l1 ++ l2.
Proof.
  unfold lbind. destruct m as [[a | e] l1]; simpl; intros H.
  - injection H as H1 H2. exists a, l1, (snd (k a)).
    split; [reflexivity |]. split; [| symmetry; exact H2].
    rewrite <- H1. apply surjective_pairing.
  - discriminate H.
Qed.

Lemma foldM_invariant {A S : Type} (P : S -> Prop) (f : S -> A -> result S)
    (l : list A) (s s' : S) :
  (forall s x s', P s -> f s x = Ok s' -> P s') ->
  P s -> foldM f l s = Ok s' -> P s'.
Proof.
  intros Hstep. revert s. induction l as [| x r IH]; simpl; intros s Hs H.
  - injection H as <-. exact Hs.
  - inv_bind H. eapply IH; [| exact H]. eapply Hstep; eassumption.
Qed.

Lemma dict_set_NoDup {V : Type} (d : dict V) (k : string) (v : V) :
  NoDup (dict_keys d) -> NoDup (dict_keys (dict_set d k v)).
Proof.
  unfold dict_keys. induction d as [| [k0 v0] r IH]; simpl; intros H.
  - constructor; [intros [] | constructor].
  - destruct (String.eqb k0 k) eqn:E; simpl.
    + exact H.
    + inversion H as [| ? ? Hnotin Hr]; subst. constructor.
      * intros Hin. apply (dict_keys_set r k k0 v) in Hin.
        destruct Hin as [-> | Hin]; [| exact (Hnotin Hin)].
        rewrite String.eqb_refl in E. discriminate E.
      * apply IH. exact Hr.
Qed.

Lemma NoDup_dict_get {V : Type} (d : dict V) (k : string) (v : V) :
  NoDup (dict_keys d) -> In (k, v) d -> dict_get d k = Some v.
Proof.
  unfold dict_keys. induction d as [| [k0 v0] r IH]; simpl; intros Hnd Hin.
  - contradiction.
  - inversion Hnd as [| ? ? Hnotin Hr]; subst.
    destruct Hin as [E | Hin].
    + injection E as -> ->. rewrite String.eqb_refl. reflexivity.
    + destruct (String.eqb k0 k) eqn:E.
      * apply String.eqb_eq in E. subst k0. exfalso. apply Hnotin.
        apply in_map_iff. exists (k, v). split; [reflexivity | exact Hin].
      * apply IH; assumption.
Qed.

Lemma get_all_user_data_NoDup (F : Font) (name : string) (mapping : dict (list Q)) :
  _get_all_user_data F name = Ok mapping -> NoDup (dict_keys mapping).
Proof.
  unfold _get_all_user_data. intros H. inv_bind H.
  eapply (foldM_invariant (fun m => NoDup (dict_keys m))); [| | exact H].
  - intros m g m' Hm Hstep. inv_bind Hstep.
    destruct a0 as [| v vs]; injection Hstep as <-.
    + exact Hm.
    + apply dict_set_NoDup. exact Hm.
  - constructor.
Qed.

Lemma get_all_user_data_nonempty (F : Font) (name : string) (mapping : dict (list Q)) :
  _get_all_user_data F name = Ok mapping ->
  forall glyph values, In (glyph, values) mapping -> values <> [].
Proof.
  unfold _get_all_user_data. intros H. inv_bind H.
  eapply (foldM_invariant
            (fun m : dict (list Q) => forall glyph values, In (glyph, values) m -> values <> []));
    [| | exact H].
  - intros m g m' Hm Hstep glyph values Hin. inv_bind Hstep.
    destruct a0 as [| v vs]; injection Hstep as <-.
    + eapply Hm. exact Hin.
    + apply In_dict_set in Hin. destruct Hin as [E | Hin].
      * injection E as _ ->. discriminate.
      * eapply Hm. exact Hin.
  - intros glyph values [].
Qed.

(** One recorded item: the table of [name] gets the broadcast values, and
    the diagnostic is printed when the item is incomplete. *)
Lemma glyph_info_glyph_step (F : Font) (name : string) (gi gi1 : dict GlyphInfoEntry)
    (item : string * list Q) (log : list Warning) :
  glyph_info_glyph F name gi item = (Ok gi1, log) ->
  log = warnings_of F name item /\
  exists d, dict_get gi name = Some (GIValues d) /\
            gi1 = dict_set gi name (GIValues (dict_set d (fst item) (broadcast F (snd item)))).
Proof.
  unfold glyph_info_glyph, warnings_of, broadcast. intros H.
  apply lbind_inv in H. destruct H as [values' [l1 [l2 [H1 [H2 ->]]]]].
  unfold lift in H2. injection H2 as H2 <-. rewrite app_nil_r.
  assert (Hv : l1 = (if Nat.eqb (List.length (snd item)) (_masters_num F) then []
                     else [mkWarning (fst item) name (snd item)]) /\
               values' = (if Nat.eqb (List.length (snd item)) (_masters_num F) then snd item
                          else repeat (hd 0%Q (snd item)) (_masters_num F))).
  { destruct (Nat.eqb (List.length (snd item)) (_masters_num F)).
    - unfold lift in H1. injection H1 as <- <-. split; reflexivity.
    - apply lbind_inv in H1. destruct H1 as [u [l3 [l4 [W [H1 ->]]]]].
      unfold warn in W. injection W as _ <-.
      unfold lift in H1. injection H1 as H1 <-.
      inv_bind H1. injection H1 as <-.
      unfold py_index in Ha. destruct (snd item) as [| v0 rest]; simpl in Ha.
      + discriminate Ha.
      + injection Ha as <-. split; reflexivity. }
  destruct Hv as [-> ->]. split; [reflexivity |].
  unfold glyph_info_assign in H2. inv_bind H2.
  unfold dict_item in Ha. destruct (dict_get gi name) as [e |]; [| discriminate Ha].
  injection Ha as ->. destruct a as [d | l]; [| discriminate H2].
  injection H2 as <-. exists d. split; reflexivity.
Qed.

(** The warning path returns normally: a recorded item always has a first
    value to repeat. *)
Lemma glyph_info_glyph_total (F : Font) (name glyph : string) (gi : dict GlyphInfoEntry)
    (d : dict (list Q)) (v : Q) (rest : list Q) :
  dict_get gi name = Some (GIValues d) ->
  glyph_info_glyph F name gi (glyph, v :: rest)
  = (Ok (dict_set gi name (GIValues (dict_set d glyph (broadcast F (v :: rest))))),
     warnings_of F name (glyph, v :: rest)).
Proof.
  intros G. unfold glyph_info_glyph, warnings_of, broadcast. simpl fst. simpl snd.
  destruct (Nat.eqb (List.length (v :: rest)) (_masters_num F)); simpl;
    unfold lbind, glyph_info_assign, dict_item; simpl; rewrite G; reflexivity.
Qed.

(** The loop over the recorded items of one name. *)
Lemma glyph_info_glyphs_loop (F : Font) (name : string) (mapping : dict (list Q)) :
  forall (gi gi' : dict GlyphInfoEntry) (log : list Warning),
    lfoldM (glyph_info_glyph F name) mapping gi = (Ok gi', log) ->
    log = flat_map (warnings_of F name) mapping /\
    (forall n, n <> name -> dict_get gi' n = dict_get gi n) /\
    (mapping <> [] -> exists d, dict_get gi name = Some (GIValues d)) /\
    (forall d, dict_get gi name = Some (GIValues d) ->
               dict_get gi' name
               = Some (GIValues
                         (fold_left (fun d item => dict_set d (fst item) (broadcast F (snd item)))
                                    mapping d))).
Proof.
  induction mapping as [| item rest IH]; intros gi gi' log H.
  - simpl in H. unfold lift in H. injection H as <- <-. simpl.
    split; [reflexivity |]. split; [reflexivity |]. split; [intros C; contradiction C; reflexivity |].
    intros d G. exact G.
  - simpl in H. apply lbind_inv in H. destruct H as [gi1 [l1 [l2 [Hstep [Hrest ->]]]]].
    apply glyph_info_glyph_step in Hstep. destruct Hstep as [-> [d0 [G0 ->]]].
    destruct (IH _ _ _ Hrest) as [-> [Hother [_ Hname]]].
    split; [reflexivity |]. split; [| split].
    + intros n Hn. rewrite (Hother n Hn). apply dict_get_set_other. congruence.
    + intros _. exists d0. exact G0.
    + intros d G. rewrite G0 in G. injection G as <-. simpl.
      apply Hname. apply dict_get_set_same.
Qed.

Lemma broadcast_fold_get (F : Font) (mapping : dict (list Q)) (d : dict (list Q))
    (glyph : string) (values : list Q) :
  NoDup (dict_keys mapping) -> In (glyph, values) mapping ->
  dict_get (fold_left (fun d item => dict_set d (fst item) (broadcast F (snd item))) mapping d)
           glyph
  = Some (broadcast F values).
Proof.
  intros Hnd Hin.
  assert (E : forall (l : dict (list Q)) d0,
             fold_left (fun d item => dict_set d (fst item) (broadcast F (snd item))) l d0
             = fold_left (fun d kv => dict_set d (fst kv) (snd kv))
                         (map (fun item => (fst item, broadcast F (snd item))) l) d0).
  { induction l as [| x r IHl]; simpl; intros d0; [reflexivity | apply IHl]. }
  rewrite E, dict_get_fold_set.
  rewrite (NoDup_dict_get _ glyph (broadcast F values)).
  - reflexivity.
  - unfold dict_keys. rewrite map_rev, map_map. simpl.
    apply NoDup_rev. exact Hnd.
  - apply in_rev. rewrite rev_involutive.
    apply in_map_iff. exists (glyph, values). split; [reflexivity | exact Hin].
Qed.

(** One name of the outer loop. *)
Lemma glyph_info_name_step (F : Font) (name : string) (gi gi' : dict GlyphInfoEntry)
    (log : list Warning) :
  glyph_info_name F gi name = (Ok gi', log) ->
  exists mapping,
    _get_all_user_data F name = Ok mapping /\
    log = flat_map (warnings_of F name) mapping /\
    recorded_in F name gi' /\
    (forall n, n <> name -> dict_get gi' n = dict_get gi n).
Proof.
  unfold glyph_info_name. intros H.
  apply lbind_inv in H. destruct H as [mapping [l1 [l2 [Hm [Hloop ->]]]]].
  unfold lift in Hm. injection Hm as Hm <-. simpl.
  destruct (glyph_info_glyphs_loop F name mapping _ _ _ Hloop) as [-> [Hother [Hex Hname]]].
  exists mapping. split; [exact Hm |]. split; [reflexivity |]. split; [| exact Hother].
  intros mapping' glyph values Hm' Hin. rewrite Hm in Hm'. injection Hm' as <-.
  destruct Hex as [d Hd]; [intros ->; contradiction |].
  exists (fold_left (fun d item => dict_set d (fst item) (broadcast F (snd item))) mapping d).
  split; [apply Hname; exact Hd |].
  apply broadcast_fold_get; [| exact Hin].
  eapply get_all_user_data_NoDup. exact Hm.
Qed.

Lemma recorded_in_other (F : Font) (name n : string) (gi gi' : dict GlyphInfoEntry) :
  dict_get gi' name = dict_get gi name -> recorded_in F name gi -> recorded_in F name gi'.
Proof.
  intros E R mapping glyph values Hm Hin. rewrite E. eapply R; eassumption.
Qed.

(** The whole loop: every name met has its table filled, and every
    diagnostic of every name is in the output. *)
Lemma glyph_info_names_loop (F : Font) (names : list string) :
  forall (gi gi' : dict GlyphInfoEntry) (log : list Warning),
    lfoldM (glyph_info_name F) names gi = (Ok gi', log) ->
    forall name,
      (In name names \/ recorded_in F name gi -> recorded_in F name gi') /\
      (In name names ->
       forall mapping w, _get_all_user_data F name = Ok mapping ->
                         In w (flat_map (warnings_of F name) mapping) -> In w log).
Proof.
  induction names as [| n0 rest IH]; intros gi gi' log H name.
  - simpl in H. unfold lift in H. injection H as <- <-.
    split; [intros [[] | R]; exact R | intros []].
  - simpl in H. apply lbind_inv in H. destruct H as [gi1 [l1 [l2 [Hstep [Hrest ->]]]]].
    destruct (glyph_info_name_step F n0 gi gi1 l1 Hstep) as [m0 [Hm0 [-> [R0 Hother]]]].
    destruct (IH _ _ _ Hrest name) as [IHrec IHlog].
    split.
    + intros Hor. apply IHrec.
      destruct (string_dec name n0) as [-> | Hne].
      * right. exact R0.
      * destruct Hor as [[E | Hin] | R].
        -- congruence.
        -- left. exact Hin.
        -- right. apply (recorded_in_other F name n0 gi gi1); [apply Hother; exact Hne | exact R].
    + intros Hin mapping w Hm Hw. apply in_or_app.
      destruct (string_dec name n0) as [-> | Hne].
      * left. rewrite Hm0 in Hm. injection Hm as <-. exact Hw.
      * right. destruct Hin as [E | Hin]; [congruence |].
        eapply IHlog; eassumption.
Qed.

Lemma broadcast_length (F : Font) (values : list Q) :
  List.length (broadcast F values) = _masters_num F.
Proof.
  unfold broadcast. destruct (Nat.eqb (List.length values) (_masters_num F)) eqn:E.
  - apply Nat.eqb_eq. exact E.
  - apply repeat_length.
Qed.

(** C7. A glyph with fewer recorded values than masters makes the parser
    print a diagnostic and store the first recorded value once per master;
    this step does not raise, and afterwards the list of every glyph with
    recorded values has one entry per master. *)
Theorem incomplete_glyph_info_is_broadcast :
  forall (F : Font) (glyph_info gi' : dict GlyphInfoEntry) (log : list Warning)
         (name : string) (mapping : dict (list Q)) (glyph : string) (values : list Q),
    parse_glyph_info F glyph_info = (Ok gi', log) ->
    In name (dict_keys glyph_info) ->
    _get_all_user_data F name = Ok mapping ->
    In (glyph, values) mapping ->
    (List.length values < _masters_num F)%nat ->
    exists v rest d',
      values = v :: rest /\
      In (mkWarning glyph name values) log /\
      dict_get gi' name = Some (GIValues d') /\
      dict_get d' glyph = Some (repeat v (_masters_num F)) /\
      (forall g vs, In (g, vs) mapping ->
                    exists l, dict_get d' g = Some l /\ List.length l = _masters_num F) /\
      (forall gi d, dict_get gi name = Some (GIValues d) ->
                    fst (glyph_info_glyph F name gi (glyph, values))
                    = Ok (dict_set gi name
                            (GIValues (dict_set d glyph (repeat v (_masters_num F)))))).
Proof.
  intros F glyph_info gi' log name mapping glyph values H Hname Hm Hin Hlt.
  unfold parse_glyph_info in H.
  destruct (glyph_info_names_loop F _ _ _ _ H name) as [Hrec Hlog].
  specialize (Hrec (or_introl Hname)).
  assert (Hb : broadcast F values = repeat (hd 0%Q values) (_masters_num F)).
  { unfold broadcast. replace (Nat.eqb (List.length values) (_masters_num F)) with false.
    - reflexivity.
    - symmetry. apply Nat.eqb_neq. lia. }
  destruct values as [| v rest].
  - exfalso. exact (get_all_user_data_nonempty F name mapping Hm glyph [] Hin eq_refl).
  - simpl in Hb.
    destruct (Hrec mapping glyph (v :: rest) Hm Hin) as [d' [Hd' Hg]].
    exists v, rest, d'. split; [reflexivity |]. split; [| split; [exact Hd' |]].
    + apply (Hlog Hname mapping _ Hm). apply in_flat_map.
      exists (glyph, v :: rest). split; [exact Hin |].
      unfold warnings_of. cbn [fst snd].
      replace (Nat.eqb (List.length (v :: rest)) (_masters_num F)) with false.
      * left. reflexivity.
      * symmetry. apply Nat.eqb_neq. lia.
    + split; [rewrite Hg, Hb; reflexivity |]. split.
      * intros g vs Hgin.
        destruct (Hrec mapping g vs Hm Hgin) as [d'' [Hd'' Hg'']].
        rewrite Hd' in Hd''. injection Hd'' as <-.
        exists (broadcast F vs). split; [exact Hg'' | apply broadcast_length].
      * intros gi d G. rewrite (glyph_info_glyph_total F name glyph gi d v rest G).
        simpl. rewrite Hb. reflexivity.
Qed.

Lemma incomplete_glyph_info_is_broadcast_witness :
  exists v rest d',
    [40%Q] = v :: rest /\
    In (mkWarning "x" "ItalicCorrection" [40%Q])
       [mkWarning "x" "ItalicCorrection" [40%Q]] /\
    dict_get [("ItalicCorrection", GIValues [("x", [40%Q; 40%Q; 40%Q])]);
              ("ExtendedShapes", GIList [])] "ItalicCorrection"
    = Some (GIValues d') /\
    dict_get d' "x" = Some (repeat v 3) /\
    (forall g vs, In (g, vs) [("x", [40%Q])] ->
                  exists l, dict_get d' g = Some l /\ List.length l = 3%nat) /\
    (forall gi d, dict_get gi "ItalicCorrection" = Some (GIValues d) ->
                  fst (glyph_info_glyph Sample.F3 "ItalicCorrection" gi ("x", [40%Q]))
                  = Ok (dict_set gi "ItalicCorrection"
                          (GIValues (dict_set d "x" (repeat v 3))))).
Proof.
  apply (incomplete_glyph_info_is_broadcast Sample.F3
           [("ItalicCorrection", GIValues []); ("ExtendedShapes", GIList [])]
           [("ItalicCorrection", GIValues [("x", [40%Q; 40%Q; 40%Q])]);
            ("ExtendedShapes", GIList [])]
           [mkWarning "x" "ItalicCorrection" [40%Q]]
           "ItalicCorrection" [("x", [40%Q])] "x" [40%Q]).
  - reflexivity.
  - left. reflexivity.
  - reflexivity.
  - left. reflexivity.
  - simpl. lia.
Defined.

(** ** The component decomposer *)

(** *** Updating one element of a list *)

Lemma update_nth_ext {A : Type} (l : list A) (i : nat) (u u' : A -> A) :
  (forall x, u x = u' x) -> update_nth l i u = update_nth l i u'.
Proof.
  intros E. revert i. induction l as [| x r IH]; intros [| i]; simpl; try reflexivity.
  - rewrite E. reflexivity.
  - rewrite IH. reflexivity.
Qed.

Lemma update_nth_ext_at {A : Type} (l : list A) (i : nat) (u u' : A -> A) (x : A) :
  nth_error l i = Some x -> u x = u' x -> update_nth l i u = update_nth l i u'.
Proof.
  revert i. induction l as [| y r IH]; intros [| i]; simpl; intros H E;
    try discriminate H.
  - injection H as ->. rewrite E. reflexivity.
  - rewrite (IH i H E). reflexivity.
Qed.

Lemma update_nth_compose {A : Type} (l : list A) (i : nat) (u1 u2 : A -> A) :
  update_nth (update_nth l i u1) i u2 = update_nth l i (fun x => u2 (u1 x)).
Proof.
  revert i. induction l as [| y r IH]; intros [| i]; simpl; try reflexivity.
  rewrite IH. reflexivity.
Qed.

Lemma update_nth_id {A : Type} (l : list A) (i : nat) (u : A -> A) :
  (forall x, nth_error l i = Some x -> u x = x) -> update_nth l i u = l.
Proof.
  revert i. induction l as [| y r IH]; intros [| i]; simpl; intros H; try reflexivity.
  - rewrite (H y eq_refl). reflexivity.
  - rewrite (IH i H). reflexivity.
Qed.

Lemma update_nth_app {A : Type} (pre suf : list A) (x : A) (u : A -> A) :
  update_nth (pre ++ x :: suf) (List.length pre) u = pre ++ u x :: suf.
Proof.
  induction pre as [| y r IH]; simpl; [reflexivity | rewrite IH; reflexivity].
Qed.

Lemma nth_error_app_mid {A : Type} (pre suf : list A) (x : A) :
  nth_error (pre ++ x :: suf) (List.length pre) = Some x.
Proof.
  induction pre as [| y r IH]; simpl; [reflexivity | exact IH].
Qed.

(** *** Updating one layer of a font *)

Lemma set_shapes_same (l : GSLayer) : set_shapes l (_shapes l) = l.
Proof. destruct l. reflexivity. Qed.

Lemma update_layer_ext_at (f : GSFont) (gi li : nat) (u u' : GSLayer -> GSLayer)
    (layer : GSLayer) :
  get_layer f gi li = Some layer -> u layer = u' layer ->
  update_layer f gi li u = update_layer f gi li u'.
Proof.
  unfold get_layer, update_layer. intros H E.
  destruct (nth_error (glyphs f) gi) as [g |] eqn:G; [| discriminate H].
  f_equal. apply (update_nth_ext_at _ _ _ _ g G).
  f_equal. apply (update_nth_ext_at _ _ _ _ layer H E).
Qed.

Lemma update_layer_compose (f : GSFont) (gi li : nat) (u1 u2 : GSLayer -> GSLayer) :
  update_layer (update_layer f gi li u1) gi li u2
  = update_layer f gi li (fun l => u2 (u1 l)).
Proof.
  unfold update_layer, set_glyphs. cbn [glyphs masters instances]. f_equal.
  rewrite update_nth_compose. apply update_nth_ext.
  intros g. unfold set_layers. cbn [layers glyph_name export smartComponentAxes].
  rewrite update_nth_compose. reflexivity.
Qed.

Lemma update_layer_id (f : GSFont) (gi li : nat) (u : GSLayer -> GSLayer) :
  (forall layer, get_layer f gi li = Some layer -> u layer = layer) ->
  update_layer f gi li u = f.
Proof.
  unfold get_layer, update_layer. intros H.
  rewrite update_nth_id.
  - destruct f. reflexivity.
  - intros g G. rewrite G in H. rewrite update_nth_id.
    + destruct g. reflexivity.
    + exact H.
Qed.

Lemma update_layer_app (f : GSFont) (pre suf : list GSGlyph) (g : GSGlyph)
    (lpre lsuf : list GSLayer) (layer : GSLayer) (u : GSLayer -> GSLayer) :
  glyphs f = pre ++ g :: suf ->
  layers g = lpre ++ layer :: lsuf ->
  update_layer f (List.length pre) (List.length lpre) u
  = set_glyphs f (pre ++ set_layers g (lpre ++ u layer :: lsuf) :: suf).
Proof.
  intros Hg Hl. unfold update_layer. rewrite Hg, update_nth_app, Hl, update_nth_app.
  reflexivity.
Qed.

(** *** The loop over the components of a layer *)

Lemma comp_eqb_refl (c : GSComponent) : comp_eqb c c = true.
Proof.
  assert (Q : forall q, Q_eqb q q = true).
  { intros q. unfold Q_eqb. apply Qeq_bool_iff. reflexivity. }
  unfold comp_eqb, transform_eqb. rewrite String.eqb_refl, !Q. simpl.
  induction (smartComponentValues c) as [| [k v] r IH]; simpl.
  - reflexivity.
  - rewrite String.eqb_refl, Q, IH. reflexivity.
Qed.

Lemma comp_eqb_has_values (c c' : GSComponent) :
  comp_eqb c c' = true -> has_values c = has_values c'.
Proof.
  unfold comp_eqb, has_values. intros H.
  apply andb_true_iff in H. destruct H as [_ H].
  destruct (smartComponentValues c) as [| [k v] r];
    destruct (smartComponentValues c') as [| [k' v'] r']; simpl in H;
    try reflexivity; discriminate H.
Qed.

Lemma expanded_compat (smart : bool) (c c' : GSComponent) :
  comp_eqb c c' = true -> expanded smart c = expanded smart c'.
Proof.
  unfold expanded. destruct smart; [reflexivity | apply comp_eqb_has_values].
Qed.

Lemma extend_paths_nil (layer : GSLayer) : extend_paths [] layer = layer.
Proof.
  unfold extend_paths. simpl. rewrite app_nil_r. apply set_shapes_same.
Qed.

Lemma extend_paths_app (p1 p2 : list GSPath) (layer : GSLayer) :
  extend_paths p2 (extend_paths p1 layer) = extend_paths (p1 ++ p2) layer.
Proof.
  unfold extend_paths, set_shapes. simpl. rewrite map_app, app_assoc. reflexivity.
Qed.

Lemma decompose_comps_loop (expand : expander) (expands : GSComponent -> bool)
    (f : GSFont) (gi li : nat) (layer : GSLayer) :
  expander_ok expand expands ->
  forall (comps : list GSComponent) (acc : list GSPath) (rem : list GSComponent)
         (st : GSFont * list GSComponent),
    foldM (decompose_comp expand gi li layer) comps
          (update_layer f gi li (extend_paths acc), rem) = Ok st ->
    exists acc', st = (update_layer f gi li (extend_paths acc'), rem ++ filter expands comps).
Proof.
  intros Hok. induction comps as [| c r IH]; simpl; intros acc rem st H.
  - injection H as <-. exists acc. rewrite app_nil_r. reflexivity.
  - inv_bind H. unfold decompose_comp in Ha. simpl in Ha. inv_bind Ha.
    pose proof (Hok _ _ _ _ Ha0) as E.
    destruct a0 as [paths |]; injection Ha as <-.
    + rewrite <- E. rewrite update_layer_compose in H.
      assert (Eu : update_layer f gi li (fun l => extend_paths paths (extend_paths acc l))
                   = update_layer f gi li (extend_paths (acc ++ paths))).
      { unfold update_layer. f_equal. apply update_nth_ext. intros g. f_equal.
        apply update_nth_ext. intros l. apply extend_paths_app. }
      rewrite Eu in H.
      destruct (IH _ _ _ H) as [acc' ->]. exists acc'.
      rewrite <- app_assoc. reflexivity.
    + rewrite <- E. apply (IH _ _ _ H).
Qed.

Lemma In_layer_components (layer : GSLayer) (c : GSComponent) :
  In c (layer_components layer) <-> In (SComp c) (_shapes layer).
Proof.
  unfold layer_components. rewrite in_flat_map. split.
  - intros [[p | c'] [Hin Hc]]; simpl in Hc.
    + contradiction.
    + destruct Hc as [-> | []]. exact Hin.
  - intros Hin. exists (SComp c). split; [exact Hin | left; reflexivity].
Qed.

Lemma removed_is_not_kept (expands : GSComponent -> bool) (layer : GSLayer) (s : GSShape) :
  (forall c c', comp_eqb c c' = true -> expands c = expands c') ->
  In s (_shapes layer) ->
  negb (shape_in s (filter expands (layer_components layer))) = keep_shape expands s.
Proof.
  intros Hcompat Hin. destruct s as [p | c]; simpl; [reflexivity |].
  f_equal. destruct (expands c) eqn:E.
  - apply existsb_exists. exists c. split; [| apply comp_eqb_refl].
    apply filter_In. split; [| exact E]. apply In_layer_components. exact Hin.
  - destruct (existsb (comp_eqb c) (filter expands (layer_components layer))) eqn:X;
      [| reflexivity].
    apply existsb_exists in X. destruct X as [c' [Hc' Heq]].
    apply filter_In in Hc'. destruct Hc' as [_ Hc'].
    rewrite (Hcompat c c' Heq) in E. congruence.
Qed.

Lemma filter_new_paths (rem : list GSComponent) (paths : list GSPath) :
  filter (fun s => negb (shape_in s rem)) (map SPath paths) = map SPath paths.
Proof.
  induction paths as [| p r IH]; simpl; [reflexivity | rewrite IH; reflexivity].
Qed.

(** The body of the loop over the layers of a glyph. *)
Lemma decompose_layer_spec (expand : expander) (expands : GSComponent -> bool)
    (f f' : GSFont) (gi li : nat) (layer : GSLayer) :
  expander_ok expand expands ->
  (forall c c', comp_eqb c c' = true -> expands c = expands c') ->
  get_layer f gi li = Some layer ->
  decompose_layer expand gi f li = Ok f' ->
  exists paths,
    f' = update_layer f gi li
           (fun l => set_shapes l (filter (keep_shape expands) (_shapes l) ++ map SPath paths)).
Proof.
  intros Hok Hcompat Hl H. unfold decompose_layer in H. rewrite Hl in H.
  inv_bind H. injection H as <-.
  assert (E0 : update_layer f gi li (extend_paths []) = f).
  { apply update_layer_id. intros l _. apply extend_paths_nil. }
  rewrite <- E0 in Ha at 1.
  destruct (decompose_comps_loop expand expands f gi li layer Hok _ _ _ _ Ha) as [acc ->].
  simpl. exists acc. rewrite update_layer_compose.
  apply (update_layer_ext_at f gi li _ _ layer Hl).
  unfold extend_paths, set_shapes. simpl. f_equal.
  rewrite filter_app, filter_new_paths. f_equal.
  apply filter_ext_in. intros s Hs. apply removed_is_not_kept; assumption.
Qed.

(** *** The loops over the layers and over the glyphs *)

Section Pass.

Variable select : GSGlyph -> bool.
Variable expand : expander.
Variable expands : GSComponent -> bool.
Hypothesis expand_ok : expander_ok expand expands.
Hypothesis expands_compat : forall c c', comp_eqb c c' = true -> expands c = expands c'.

Lemma decompose_layers_loop (pre suf : list GSGlyph) :
  forall (lsuf lpre : list GSLayer) (f f' : GSFont) (g : GSGlyph),
    glyphs f = pre ++ g :: suf ->
    layers g = lpre ++ lsuf ->
    foldM (decompose_layer expand (List.length pre))
          (seq (List.length lpre) (List.length lsuf)) f = Ok f' ->
    exists lsuf',
      f' = set_glyphs f (pre ++ set_layers g (lpre ++ lsuf') :: suf) /\
      Forall2 (layer_done (keep_shape expands)) lsuf lsuf'.
Proof.
  induction lsuf as [| layer rest IH]; intros lpre f f' g Hg Hl H.
  - simpl in H. injection H as <-. exists []. split; [| constructor].
    rewrite <- Hl.
    replace (set_layers g (layers g)) with g by (destruct g; reflexivity).
    rewrite <- Hg. destruct f. reflexivity.
  - simpl in H. inv_bind H. rename a into f1.
    assert (Hget : get_layer f (List.length pre) (List.length lpre) = Some layer).
    { unfold get_layer. rewrite Hg, nth_error_app_mid, Hl. apply nth_error_app_mid. }
    destruct (decompose_layer_spec expand expands f f1 _ _ layer
                expand_ok expands_compat Hget Ha) as [paths Hf1].
    rewrite (update_layer_app f pre suf g lpre rest layer _ Hg Hl) in Hf1.
    set (layer' := set_shapes layer
                     (filter (keep_shape expands) (_shapes layer) ++ map SPath paths)) in *.
    set (g1 := set_layers g (lpre ++ layer' :: rest)) in *.
    assert (Hg1 : glyphs f1 = pre ++ g1 :: suf) by (rewrite Hf1; reflexivity).
    assert (Hl1 : layers g1 = (lpre ++ [layer']) ++ rest).
    { unfold g1. simpl. rewrite <- app_assoc. reflexivity. }
    assert (Hlen : S (List.length lpre) = List.length (lpre ++ [layer'])).
    { rewrite length_app. simpl. lia. }
    rewrite Hlen in H.
    destruct (IH _ _ _ _ Hg1 Hl1 H) as [lsuf' [-> Hall]].
    exists (layer' :: lsuf'). split.
    + rewrite Hf1. unfold g1, set_glyphs, set_layers. simpl.
      rewrite <- app_assoc. reflexivity.
    + constructor; [| exact Hall]. exists paths. reflexivity.
Qed.

Lemma decompose_glyph_step (pre suf : list GSGlyph) (g : GSGlyph) (f f' : GSFont) :
  glyphs f = pre ++ g :: suf ->
  decompose_glyph select expand f (List.length pre) = Ok f' ->
  exists g',
    f' = set_glyphs f (pre ++ g' :: suf) /\
    glyph_pass select (keep_shape expands) g g'.
Proof.
  intros Hg H. unfold decompose_glyph in H. rewrite Hg, nth_error_app_mid in H.
  unfold glyph_pass. destruct (select g) eqn:S.
  - destruct (decompose_layers_loop pre suf (layers g) [] f f' g Hg eq_refl H)
      as [lsuf' [-> Hall]].
    exists (set_layers g lsuf'). split; [reflexivity |].
    simpl. repeat split. exact Hall.
  - injection H as <-. exists g. split.
    + rewrite <- Hg. destruct f. reflexivity.
    + repeat split.
Qed.

Lemma decompose_glyphs_loop :
  forall (suf pre : list GSGlyph) (f f' : GSFont),
    glyphs f = pre ++ suf ->
    foldM (decompose_glyph select expand) (seq (List.length pre) (List.length suf)) f = Ok f' ->
    exists suf',
      f' = set_glyphs f (pre ++ suf') /\
      Forall2 (glyph_pass select (keep_shape expands)) suf suf'.
Proof.
  induction suf as [| g rest IH]; intros pre f f' Hg H.
  - simpl in H. injection H as <-. exists []. split; [| constructor].
    rewrite <- Hg. destruct f. reflexivity.
  - simpl in H. inv_bind H. rename a into f1.
    destruct (decompose_glyph_step pre rest g f f1 Hg Ha) as [g' [Hf1 Hpass]].
    assert (Hg1 : glyphs f1 = (pre ++ [g']) ++ rest).
    { rewrite Hf1. simpl. rewrite <- app_assoc. reflexivity. }
    assert (Hlen : S (List.length pre) = List.length (pre ++ [g'])).
    { rewrite length_app. simpl. lia. }
    rewrite Hlen in H.
    destruct (IH _ _ _ Hg1 H) as [suf' [-> Hall]].
    exists (g' :: suf'). split.
    + rewrite Hf1. unfold set_glyphs. simpl. rewrite <- app_assoc. reflexivity.
    + constructor; assumption.
Qed.

Lemma decompose_pass_spec (f f' : GSFont) :
  decompose_pass select expand f = Ok f' -> font_pass select (keep_shape expands) f f'.
Proof.
  unfold decompose_pass. intros H.
  destruct (decompose_glyphs_loop (glyphs f) [] f f' eq_refl H) as [suf' [-> Hall]].
  unfold font_pass. simpl. repeat split. exact Hall.
Qed.

End Pass.

(** *** The two passes *)

Section Decomposer.

Variable applyTransform : Transform -> GSPath -> GSPath.

Lemma expand_in_smart_glyph_ok :
  expander_ok (expand_in_smart_glyph applyTransform) (fun _ => true).
Proof.
  intros f parent c r H. unfold expand_in_smart_glyph in H.
  inv_bind H. inv_bind H. injection H as <-. reflexivity.
Qed.

Lemma expand_in_plain_glyph_ok :
  expander_ok (expand_in_plain_glyph applyTransform) has_values.
Proof.
  intros f parent c r H. unfold expand_in_plain_glyph, has_values in *.
  destruct (smartComponentValues c) as [| kv vs].
  - injection H as <-. reflexivity.
  - inv_bind H. injection H as <-. reflexivity.
Qed.

Lemma is_smart_glyph_axes (g g' : GSGlyph) :
  smartComponentAxes g' = smartComponentAxes g -> _is_smart_glyph g' = _is_smart_glyph g.
Proof.
  unfold _is_smart_glyph. intros ->. reflexivity.
Qed.

Lemma two_passes (f f1 f2 : GSFont) :
  font_pass _is_smart_glyph (keep_shape (fun _ => true)) f f1 ->
  font_pass (fun g => negb (_is_smart_glyph g)) (keep_shape has_values) f1 f2 ->
  decomposed_from f f2.
Proof.
  intros [M1 [I1 G1]] [M2 [I2 G2]]. unfold decomposed_from.
  split; [congruence |]. split; [congruence |].
  revert G2. generalize (glyphs f2). clear M1 I1 M2 I2.
  induction G1 as [| g g1 r r1 P1 _ IH]; intros gl2 G2; inversion G2 as [| ? g2 ? r2 P2 R2];
    subst; constructor; [| apply IH; exact R2].
  destruct P1 as [N1 [E1 [A1 L1]]]. destruct P2 as [N2 [E2 [A2 L2]]].
  split; [congruence |]. split; [congruence |]. split; [congruence |].
  rewrite (is_smart_glyph_axes g g1 A1) in L2.
  destruct (_is_smart_glyph g); simpl in L2.
  - rewrite L2. exact L1.
  - rewrite L1 in L2. exact L2.
Qed.

Lemma kept_shape_decomposed (smart : bool) (s : GSShape) :
  kept_shape smart s = true <-> shape_decomposed smart s.
Proof.
  unfold kept_shape, keep_shape, expanded, has_values, shape_decomposed.
  destruct s as [p | c]; [intuition |].
  destruct smart; simpl.
  - split; [discriminate | intros [C _]; discriminate C].
  - destruct (smartComponentValues c); simpl; split; try discriminate; intuition.
    discriminate.
Qed.

Lemma decomposed_from_decomposed (f f' : GSFont) :
  decomposed_from f f' -> font_decomposed f'.
Proof.
  intros [_ [_ G]]. unfold font_decomposed.
  induction G as [| g g' r r' [_ [_ [A L]]] _ IH]; constructor; [| exact IH].
  unfold glyph_decomposed. rewrite (is_smart_glyph_axes g g' A).
  induction L as [| l l' ls ls' [paths ->] _ IHL]; constructor; [| exact IHL].
  simpl. apply Forall_app. split.
  - apply Forall_forall. intros s Hs. apply filter_In in Hs.
    apply kept_shape_decomposed. apply Hs.
  - apply Forall_forall. intros s Hs. apply in_map_iff in Hs.
    destruct Hs as [p [<- _]]. exact I.
Qed.

(** *** A decomposed font is left as it is *)

Lemma foldM_fixed {A S : Type} (step : S -> A -> result S) (l : list A) (s : S) :
  (forall x, In x l -> step s x = Ok s) -> foldM step l s = Ok s.
Proof.
  induction l as [| x r IH]; simpl; intros H.
  - reflexivity.
  - rewrite (H x (or_introl eq_refl)). simpl. apply IH.
    intros y Hy. apply H. right. exact Hy.
Qed.

Lemma decompose_layer_fixed (expand : expander) (f : GSFont) (gi li : nat) :
  (forall layer c,
      get_layer f gi li = Some layer -> In c (layer_components layer) ->
      expand f layer c = Ok None) ->
  decompose_layer expand gi f li = Ok f.
Proof.
  intros H. unfold decompose_layer.
  destruct (get_layer f gi li) as [layer |] eqn:Hl; [| reflexivity].
  rewrite (foldM_fixed (decompose_comp expand gi li layer) (layer_components layer) (f, [])).
  - simpl. f_equal. apply update_layer_id. intros l _.
    rewrite (filter_ext_in _ (fun _ => true)).
    + rewrite filter_true. apply set_shapes_same.
    + intros s _. destruct s; reflexivity.
  - intros c Hc. unfold decompose_comp. simpl.
    rewrite (H layer c eq_refl Hc). reflexivity.
Qed.

Lemma get_layer_decomposed (f : GSFont) (gi li : nat) (g : GSGlyph) (layer : GSLayer) :
  font_decomposed f ->
  nth_error (glyphs f) gi = Some g ->
  get_layer f gi li = Some layer ->
  Forall (shape_decomposed (_is_smart_glyph g)) (_shapes layer).
Proof.
  intros Hf Hg Hl. unfold get_layer in Hl. rewrite Hg in Hl.
  unfold font_decomposed in Hf. rewrite Forall_forall in Hf.
  specialize (Hf g (nth_error_In _ _ Hg)). unfold glyph_decomposed in Hf.
  rewrite Forall_forall in Hf. apply Hf. eapply nth_error_In. exact Hl.
Qed.

Lemma decomposed_is_fixed (f : GSFont) :
  font_decomposed f -> _decompose_smart_comp applyTransform f = Ok f.
Proof.
  intros Hf. unfold _decompose_smart_comp, decompose_pass.
  rewrite foldM_fixed.
  - simpl. apply foldM_fixed. intros gi _. unfold decompose_glyph.
    destruct (nth_error (glyphs f) gi) as [g |] eqn:Hg; [| reflexivity].
    destruct (_is_smart_glyph g) eqn:S; simpl; [reflexivity |].
    apply foldM_fixed. intros li _. apply decompose_layer_fixed.
    intros layer c Hl Hc.
    pose proof (get_layer_decomposed f gi li g layer Hf Hg Hl) as D.
    rewrite Forall_forall in D. apply In_layer_components in Hc.
    specialize (D _ Hc). simpl in D. destruct D as [_ D].
    unfold expand_in_plain_glyph. rewrite D. reflexivity.
  - intros gi _. unfold decompose_glyph.
    destruct (nth_error (glyphs f) gi) as [g |] eqn:Hg; [| reflexivity].
    destruct (_is_smart_glyph g) eqn:S; [| reflexivity].
    apply foldM_fixed. intros li _. apply decompose_layer_fixed.
    intros layer c Hl Hc.
    pose proof (get_layer_decomposed f gi li g layer Hf Hg Hl) as D.
    rewrite Forall_forall in D. apply In_layer_components in Hc.
    specialize (D _ Hc). simpl in D. destruct D as [D _].
    rewrite S in D. discriminate D.
Qed.

End Decomposer.

Lemma Forall2_nth_error {A B : Type} (R : A -> B -> Prop) (l : list A) (l' : list B)
    (i : nat) (x : A) :
  Forall2 R l l' -> nth_error l i = Some x ->
  exists y, nth_error l' i = Some y /\ R x y.
Proof.
  intros H. revert i. induction H as [| a b r r' Hab _ IH]; intros [| i] Hi; simpl in *;
    try discriminate Hi.
  - injection Hi as ->. exists b. split; [reflexivity | exact Hab].
  - apply IH. exact Hi.
Qed.

(** *** The loop over the components, with the paths it appends *)

Lemma decompose_comps_resolved (expand : expander) (expands : GSComponent -> bool)
    (fm : GSFont) (gi li : nat) (layer : GSLayer) :
  expander_ok expand expands ->
  forall (comps : list GSComponent) (acc : list GSPath) (rem : list GSComponent)
         (st : GSFont * list GSComponent),
    foldM (decompose_comp expand gi li layer) comps
          (update_layer fm gi li (extend_paths acc), rem) = Ok st ->
    exists pss,
      st = (update_layer fm gi li (extend_paths (acc ++ List.concat pss)),
            rem ++ filter expands comps) /\
      resolved_in_turn expand (update_layer fm gi li (extend_paths acc)) gi li layer
        (filter expands comps) pss.
Proof.
  intros Hok. induction comps as [| c r IH]; simpl; intros acc rem st H.
  - injection H as <-. exists []. simpl. rewrite !app_nil_r. split; [reflexivity | exact I].
  - inv_bind H. unfold decompose_comp in Ha. simpl in Ha. inv_bind Ha.
    pose proof (Hok _ _ _ _ Ha0) as E.
    destruct a0 as [paths |]; injection Ha as <-.
    + rewrite <- E.
      assert (Eu : update_layer (update_layer fm gi li (extend_paths acc)) gi li
                     (extend_paths paths)
                   = update_layer fm gi li (extend_paths (acc ++ paths))).
      { rewrite update_layer_compose.
        unfold update_layer. f_equal. apply update_nth_ext. intros g. f_equal.
        apply update_nth_ext. intros l. apply extend_paths_app. }
      rewrite Eu in H.
      destruct (IH _ _ _ H) as [pss [-> Hres]].
      exists (paths :: pss). simpl. split.
      * rewrite <- !app_assoc. reflexivity.
      * split; [exact Ha0 |]. rewrite Eu. exact Hres.
    + rewrite <- E. apply (IH _ _ _ H).
Qed.

Lemma decompose_layer_resolved (expand : expander) (expands : GSComponent -> bool)
    (f f' : GSFont) (gi li : nat) (layer : GSLayer) :
  expander_ok expand expands ->
  (forall c c', comp_eqb c c' = true -> expands c = expands c') ->
  get_layer f gi li = Some layer ->
  decompose_layer expand gi f li = Ok f' ->
  exists pss,
    resolved_in_turn expand f gi li layer (filter expands (layer_components layer)) pss /\
    f' = update_layer f gi li
           (fun l => set_shapes l (filter (keep_shape expands) (_shapes l)
                                   ++ map SPath (List.concat pss))).
Proof.
  intros Hok Hcompat Hl H. unfold decompose_layer in H. rewrite Hl in H.
  inv_bind H. injection H as <-.
  assert (E0 : update_layer f gi li (extend_paths []) = f).
  { apply update_layer_id. intros l _. apply extend_paths_nil. }
  rewrite <- E0 in Ha at 1.
  destruct (decompose_comps_resolved expand expands f gi li layer Hok _ _ _ _ Ha)
    as [pss [-> Hres]].
  rewrite E0 in Hres. exists pss. split; [exact Hres |].
  simpl. rewrite update_layer_compose.
  apply (update_layer_ext_at f gi li _ _ layer Hl).
  unfold extend_paths, set_shapes. simpl. f_equal.
  rewrite filter_app, filter_new_paths. f_equal.
  apply filter_ext_in. intros s Hs. apply removed_is_not_kept; assumption.
Qed.

Section PassSteps.

Variable select : GSGlyph -> bool.
Variable expand : expander.
Variable expands : GSComponent -> bool.
Variable I : GSFont -> Prop.
Hypothesis expand_ok : expander_ok expand expands.
Hypothesis expands_compat : forall c c', comp_eqb c c' = true -> expands c = expands c'.
Hypothesis select_layers : forall g ls, select (set_layers g ls) = select g.
Hypothesis I_step :
  forall fm gi li g l pss,
    I fm -> nth_error (glyphs fm) gi = Some g -> select g = true ->
    nth_error (layers g) li = Some l ->
    resolved_in_turn expand fm gi li l (filter expands (layer_components l)) pss ->
    I (update_layer fm gi li
         (fun l => set_shapes l (filter (keep_shape expands) (_shapes l)
                                 ++ map SPath (List.concat pss)))).

Lemma decompose_layers_steps (pre suf : list GSGlyph) :
  forall (lsuf lpre : list GSLayer) (f f' : GSFont) (g : GSGlyph),
    I f -> select g = true ->
    glyphs f = pre ++ g :: suf ->
    layers g = lpre ++ lsuf ->
    foldM (decompose_layer expand (List.length pre))
          (seq (List.length lpre) (List.length lsuf)) f = Ok f' ->
    exists lsuf',
      f' = set_glyphs f (pre ++ set_layers g (lpre ++ lsuf') :: suf) /\
      I f' /\
      Forall2i (layer_step I expand expands (List.length pre)) (List.length lpre) lsuf lsuf'.
Proof.
  induction lsuf as [| layer rest IH]; intros lpre f f' g HI Hsel Hg Hl H.
  - simpl in H. injection H as <-. exists []. split; [| split; [exact HI | exact Logic.I]].
    rewrite <- Hl.
    replace (set_layers g (layers g)) with g by (destruct g; reflexivity).
    rewrite <- Hg. destruct f. reflexivity.
  - simpl in H. inv_bind H. rename a into f1.
    assert (Hnth : nth_error (glyphs f) (List.length pre) = Some g).
    { rewrite Hg. apply nth_error_app_mid. }
    assert (Hlay : nth_error (layers g) (List.length lpre) = Some layer).
    { rewrite Hl. apply nth_error_app_mid. }
    assert (Hget : get_layer f (List.length pre) (List.length lpre) = Some layer).
    { unfold get_layer. rewrite Hnth. exact Hlay. }
    destruct (decompose_layer_resolved expand expands f f1 _ _ layer
                expand_ok expands_compat Hget Ha) as [pss [Hres Hf1]].
    assert (HI1 : I f1).
    { rewrite Hf1. apply (I_step f _ _ g layer pss HI Hnth Hsel Hlay Hres). }
    rewrite (update_layer_app f pre suf g lpre rest layer _ Hg Hl) in Hf1.
    set (layer' := set_shapes layer
                     (filter (keep_shape expands) (_shapes layer)
                      ++ map SPath (List.concat pss))) in *.
    set (g1 := set_layers g (lpre ++ layer' :: rest)) in *.
    assert (Hg1 : glyphs f1 = pre ++ g1 :: suf) by (rewrite Hf1; reflexivity).
    assert (Hl1 : layers g1 = (lpre ++ [layer']) ++ rest).
    { unfold g1. simpl. rewrite <- app_assoc. reflexivity. }
    assert (Hlen : S (List.length lpre) = List.length (lpre ++ [layer'])).
    { rewrite length_app. simpl. lia. }
    assert (Hsel1 : select g1 = true) by (unfold g1; rewrite select_layers; exact Hsel).
    rewrite Hlen in H.
    destruct (IH _ _ _ _ HI1 Hsel1 Hg1 Hl1 H) as [lsuf' [-> [HI' Hall]]].
    exists (layer' :: lsuf'). split; [| split; [exact HI' |]].
    + rewrite Hf1. unfold g1, set_glyphs, set_layers. simpl.
      rewrite <- app_assoc. reflexivity.
    + simpl. split.
      * exists f, pss. repeat split; assumption.
      * rewrite Hlen. exact Hall.
Qed.

Lemma decompose_glyph_steps (pre suf : list GSGlyph) (g : GSGlyph) (f f' : GSFont) :
  I f ->
  glyphs f = pre ++ g :: suf ->
  decompose_glyph select expand f (List.length pre) = Ok f' ->
  exists g',
    f' = set_glyphs f (pre ++ g' :: suf) /\ I f' /\
    glyph_step I select expand expands (List.length pre) g g'.
Proof.
  intros HI Hg H. unfold decompose_glyph in H. rewrite Hg, nth_error_app_mid in H.
  unfold glyph_step. destruct (select g) eqn:S.
  - destruct (decompose_layers_steps pre suf (layers g) [] f f' g HI S Hg eq_refl H)
      as [lsuf' [-> [HI' Hall]]].
    exists (set_layers g lsuf'). split; [reflexivity |]. split; [exact HI' |].
    simpl. repeat split. exact Hall.
  - injection H as <-. exists g. split; [| split; [exact HI |]].
    + rewrite <- Hg. destruct f. reflexivity.
    + repeat split.
Qed.

Lemma decompose_glyphs_steps :
  forall (suf pre : list GSGlyph) (f f' : GSFont),
    I f ->
    glyphs f = pre ++ suf ->
    foldM (decompose_glyph select expand) (seq (List.length pre) (List.length suf)) f = Ok f' ->
    exists suf',
      f' = set_glyphs f (pre ++ suf') /\ I f' /\
      Forall2i (glyph_step I select expand expands) (List.length pre) suf suf'.
Proof.
  induction suf as [| g rest IH]; intros pre f f' HI Hg H.
  - simpl in H. injection H as <-. exists []. split; [| split; [exact HI | exact Logic.I]].
    rewrite <- Hg. destruct f. reflexivity.
  - simpl in H. inv_bind H. rename a into f1.
    destruct (decompose_glyph_steps pre rest g f f1 HI Hg Ha) as [g' [Hf1 [HI1 Hpass]]].
    assert (Hg1 : glyphs f1 = (pre ++ [g']) ++ rest).
    { rewrite Hf1. simpl. rewrite <- app_assoc. reflexivity. }
    assert (Hlen : S (List.length pre) = List.length (pre ++ [g'])).
    { rewrite length_app. simpl. lia. }
    rewrite Hlen in H.
    destruct (IH _ _ _ HI1 Hg1 H) as [suf' [-> [HI' Hall]]].
    exists (g' :: suf'). split; [| split; [exact HI' |]].
    + rewrite Hf1. unfold set_glyphs. simpl. rewrite <- app_assoc. reflexivity.
    + simpl. split; [exact Hpass | rewrite Hlen; exact Hall].
Qed.

Lemma decompose_pass_steps (f f' : GSFont) :
  I f ->
  decompose_pass select expand f = Ok f' ->
  masters f' = masters f /\ instances f' = instances f /\ I f' /\
  Forall2i (glyph_step I select expand expands) 0%nat (glyphs f) (glyphs f').
Proof.
  unfold decompose_pass. intros HI H.
  destruct (decompose_glyphs_steps (glyphs f) [] f f' HI eq_refl H) as [suf' [-> [HI' Hall]]].
  simpl. repeat split; assumption.
Qed.

End PassSteps.

(** *** The fonts between the start and the end of the run *)

Lemma Forall2_refl_on {A : Type} (R : A -> A -> Prop) (l : list A) :
  (forall a, R a a) -> Forall2 R l l.
Proof.
  intros H. induction l; constructor; auto.
Qed.

Lemma font_between_refl (f : GSFont) : font_between f f.
Proof.
  unfold font_between. repeat split.
  apply Forall2_refl_on. intros g. repeat split.
  apply Forall2_refl_on. intros l. left. reflexivity.
Qed.

Lemma Forall2_update_nth {A B : Type} (R : A -> B -> Prop) (u : B -> B) :
  forall (l : list A) (l' : list B) (i : nat),
    Forall2 R l l' ->
    (forall a b, nth_error l i = Some a -> nth_error l' i = Some b -> R a b -> R a (u b)) ->
    Forall2 R l (update_nth l' i u).
Proof.
  intros l l' i H. revert i. induction H as [| a b r r' Hab Hr IH]; intros i Hu.
  - destruct i; constructor.
  - destruct i as [| i]; simpl.
    + constructor; [apply Hu; auto | exact Hr].
    + constructor; [exact Hab | apply IH; intros a' b' Ha' Hb'; apply Hu; assumption].
Qed.

Lemma resolved_in_turn_nil (expand : expander) (fm : GSFont) (gi li : nat) (l : GSLayer)
    (pss : list (list GSPath)) :
  resolved_in_turn expand fm gi li l [] pss -> pss = [].
Proof.
  destruct pss; simpl; [reflexivity | intros []].
Qed.

Lemma filter_keep_idem (expands : GSComponent -> bool) (ss : list GSShape)
    (paths : list GSPath) :
  filter (keep_shape expands) (filter (keep_shape expands) ss ++ map SPath paths)
  = filter (keep_shape expands) ss ++ map SPath paths.
Proof.
  rewrite filter_app. f_equal.
  - induction ss as [| s r IH]; simpl; [reflexivity |].
    destruct (keep_shape expands s) eqn:E; simpl; [rewrite E, IH |]; auto.
  - induction paths as [| p r IH]; simpl; [reflexivity | rewrite IH; reflexivity].
Qed.

Lemma kept_components_not_expanded (expands : GSComponent -> bool) (l : GSLayer)
    (paths : list GSPath) :
  filter expands
    (layer_components
       (set_shapes l (filter (keep_shape expands) (_shapes l) ++ map SPath paths))) = [].
Proof.
  unfold layer_components. simpl. rewrite flat_map_app.
  rewrite filter_app.
  assert (E1 : filter expands
                 (flat_map (fun s => match s with SPath _ => [] | SComp c => [c] end)
                    (filter (keep_shape expands) (_shapes l))) = []).
  { induction (_shapes l) as [| s r IH]; simpl; [reflexivity |].
    destruct s as [p | c]; simpl; [exact IH |].
    destruct (expands c) eqn:E; simpl; [exact IH |]. rewrite E. exact IH. }
  assert (E2 : flat_map (fun s => match s with SPath _ => [] | SComp c => [c] end)
                 (map SPath paths) = []).
  { induction paths as [| p r IH]; simpl; [reflexivity | exact IH]. }
  rewrite E1, E2. reflexivity.
Qed.

Lemma layer_between_step (smart : bool) (expand : expander) (fm : GSFont) (gi li : nat)
    (l0 l parent : GSLayer) (pss : list (list GSPath)) :
  layer_between smart l0 l ->
  resolved_in_turn expand fm gi li parent (filter (expanded smart) (layer_components l)) pss ->
  layer_between smart l0
    (set_shapes l (filter (keep_shape (expanded smart)) (_shapes l)
                   ++ map SPath (List.concat pss))).
Proof.
  intros [-> | [paths [-> Hside]]] Hres.
  - right. exists (List.concat pss). split; [reflexivity |].
    intros E. rewrite E in Hres. apply resolved_in_turn_nil in Hres. subst. reflexivity.
  - right. exists paths. split; [| exact Hside].
    unfold kept_shape in *. rewrite kept_components_not_expanded in Hres.
    apply resolved_in_turn_nil in Hres. subst pss. simpl. rewrite app_nil_r.
    rewrite filter_keep_idem. reflexivity.
Qed.

Lemma font_between_step (f0 fm : GSFont) (gi li : nat) (g : GSGlyph) (l : GSLayer)
    (pss : list (list GSPath)) (smart : bool) (expand : expander) :
  font_between f0 fm ->
  nth_error (glyphs fm) gi = Some g ->
  _is_smart_glyph g = smart ->
  nth_error (layers g) li = Some l ->
  resolved_in_turn expand fm gi li l (filter (expanded smart) (layer_components l)) pss ->
  font_between f0
    (update_layer fm gi li
       (fun l => set_shapes l (filter (keep_shape (expanded smart)) (_shapes l)
                               ++ map SPath (List.concat pss)))).
Proof.
  intros [M [In G]] Hg Hs Hl Hres. unfold font_between, update_layer. simpl.
  split; [exact M |]. split; [exact In |].
  apply Forall2_update_nth; [exact G |].
  intros g0 gm Hg0 Hgm [N [E [A L]]]. simpl.
  split; [exact N |]. split; [exact E |]. split; [exact A |].
  rewrite Hg in Hgm. injection Hgm as <-.
  apply Forall2_update_nth; [exact L |].
  intros l0 lm Hl0 Hlm B. rewrite Hl in Hlm. injection Hlm as <-.
  rewrite <- (is_smart_glyph_axes g0 g A), Hs.
  apply (layer_between_step smart expand fm gi li l0 l l pss); [| exact Hres].
  rewrite <- Hs, (is_smart_glyph_axes g0 g A). exact B.
Qed.

(** *** The two passes, component by component *)

Lemma Forall2i_impl {A B : Type} (R R' : nat -> A -> B -> Prop) :
  forall (l : list A) (l' : list B) (i : nat),
    (forall k a b, nth_error l k = Some a -> R (i + k)%nat a b -> R' (i + k)%nat a b) ->
    Forall2i R i l l' -> Forall2i R' i l l'.
Proof.
  induction l as [| a r IH]; intros [| b r'] i H F; simpl in *; try exact F.
  destruct F as [Hab F]. split.
  - specialize (H 0%nat a b eq_refl). rewrite Nat.add_0_r in H. apply H. exact Hab.
  - apply IH; [| exact F]. intros k a' b' Hk.
    specialize (H (S k) a' b' Hk). rewrite Nat.add_succ_r in H. exact H.
Qed.

Lemma Forall2i_Forall2 {A B : Type} (R : nat -> A -> B -> Prop) (R' : A -> B -> Prop) :
  forall (l : list A) (l' : list B) (i : nat),
    (forall k a b, nth_error l k = Some a -> R (i + k)%nat a b -> R' a b) ->
    Forall2i R i l l' -> Forall2 R' l l'.
Proof.
  induction l as [| a r IH]; intros [| b r'] i H F; simpl in *; try contradiction;
    constructor.
  - destruct F as [Hab _]. apply (H 0%nat a b eq_refl). rewrite Nat.add_0_r. exact Hab.
  - destruct F as [_ F]. apply (IH r' (S i)); [| exact F].
    intros k a' b' Hk Hr. apply (H (S k) a' b' Hk). rewrite Nat.add_succ_r. exact Hr.
Qed.

Section Expanded.

Variable applyTransform : Transform -> GSPath -> GSPath.

Lemma two_passes_steps (f : GSFont) :
  forall (gs gs1 gs2 : list GSGlyph) (i : nat),
    Forall2i (glyph_step (font_between f) _is_smart_glyph
                (expand_in_smart_glyph applyTransform) (expanded true)) i gs gs1 ->
    Forall2i (glyph_step (font_between f) (fun g => negb (_is_smart_glyph g))
                (expand_in_plain_glyph applyTransform) (expanded false)) i gs1 gs2 ->
    Forall2i (fun gi g g' =>
                glyph_name g' = glyph_name g /\ export g' = export g /\
                smartComponentAxes g' = smartComponentAxes g /\
                Forall2i (fun li => layer_expanded applyTransform f gi li (_is_smart_glyph g))
                         0%nat (layers g) (layers g'))
             i gs gs2.
Proof.
  induction gs as [| g r IH]; intros [| g1 r1] [| g2 r2] i F1 F2; simpl in *;
    try contradiction; try exact I.
  destruct F1 as [[N1 [E1 [A1 L1]]] F1]. destruct F2 as [[N2 [E2 [A2 L2]]] F2].
  split; [| apply (IH r1 r2 (S i)); assumption].
  split; [congruence |]. split; [congruence |]. split; [congruence |].
  rewrite (is_smart_glyph_axes g g1 A1) in L2.
  unfold layer_expanded, expander_of.
  destruct (_is_smart_glyph g); simpl in L2.
  - rewrite L2. exact L1.
  - rewrite L1 in L2. exact L2.
Qed.

Lemma decomposer_expanded (f f' : GSFont) :
  _decompose_smart_comp applyTransform f = Ok f' -> expanded_from applyTransform f f'.
Proof.
  intros H. unfold _decompose_smart_comp in H. inv_bind H. rename a into f1.
  destruct (decompose_pass_steps _is_smart_glyph (expand_in_smart_glyph applyTransform)
              (expanded true) (font_between f)) with (f := f) (f' := f1)
    as [M1 [I1 [B1 G1]]].
  - apply expand_in_smart_glyph_ok.
  - intros c c' _. reflexivity.
  - intros g ls. reflexivity.
  - intros fm gi li g l pss HB Hg Hs Hl Hres.
    apply (font_between_step f fm gi li g l pss true _ HB Hg Hs Hl Hres).
  - apply font_between_refl.
  - exact Ha.
  - destruct (decompose_pass_steps (fun g => negb (_is_smart_glyph g))
                (expand_in_plain_glyph applyTransform) (expanded false) (font_between f))
      with (f := f1) (f' := f') as [M2 [I2 [B2 G2]]].
    + apply expand_in_plain_glyph_ok.
    + apply comp_eqb_has_values.
    + intros g ls. reflexivity.
    + intros fm gi li g l pss HB Hg Hs Hl Hres.
      apply (font_between_step f fm gi li g l pss false (expand_in_plain_glyph applyTransform) HB Hg);
        [| exact Hl | exact Hres].
      destruct (_is_smart_glyph g); [discriminate Hs | reflexivity].
    + exact B1.
    + exact H.
    + unfold expanded_from. split; [congruence |]. split; [congruence |].
      apply (two_passes_steps f (glyphs f) (glyphs f1) (glyphs f') 0%nat G1 G2).
Qed.

(** *** Flat references *)

Lemma expander_frame (smart : bool) (f1 f2 : GSFont) (parent : GSLayer) (c : GSComponent) :
  glyph_by_name f1 (comp_name c) = glyph_by_name f2 (comp_name c) ->
  expander_of applyTransform smart f1 parent c = expander_of applyTransform smart f2 parent c.
Proof.
  intros E. unfold expander_of, expand_in_smart_glyph, expand_in_plain_glyph,
    _is_smart_component, _smart_component_to_paths, _component_to_paths.
  destruct smart; cbv beta zeta; rewrite E; reflexivity.
Qed.

Lemma decomposed_layer_between (smart : bool) (l lm : GSLayer) :
  Forall (shape_decomposed smart) (_shapes l) -> layer_between smart l lm -> lm = l.
Proof.
  intros D [-> | [paths [-> Hside]]]; [reflexivity |].
  assert (K : filter (kept_shape smart) (_shapes l) = _shapes l).
  { induction D as [| s r Hs _ IH]; simpl; [reflexivity |].
    apply kept_shape_decomposed in Hs. rewrite Hs, IH. reflexivity. }
  assert (E : filter (expanded smart) (layer_components l) = []).
  { unfold layer_components. induction D as [| s r Hs _ IH]; simpl; [reflexivity |].
    rewrite filter_app. simpl in K. 
    destruct s as [p | c]; simpl.
    - apply IH. apply kept_shape_decomposed in Hs. rewrite Hs in K. injection K as K. exact K.
    - pose proof Hs as Hs'. apply kept_shape_decomposed in Hs'. rewrite Hs' in K.
      injection K as K. rewrite (IH K).
      unfold kept_shape, keep_shape in Hs'. destruct (expanded smart c); [discriminate Hs' |].
      reflexivity. }
  rewrite (Hside E), K. simpl. rewrite app_nil_r. apply set_shapes_same.
Qed.

Lemma decomposed_glyph_between (g gm : GSGlyph) :
  glyph_decomposed g ->
  glyph_name gm = glyph_name g -> export gm = export g ->
  smartComponentAxes gm = smartComponentAxes g ->
  Forall2 (layer_between (_is_smart_glyph g)) (layers g) (layers gm) ->
  gm = g.
Proof.
  intros D N E A L.
  assert (HL : layers gm = layers g).
  { unfold glyph_decomposed in D. revert D. induction L as [| l lm r rm B _ IH]; intros D.
    - reflexivity.
    - inversion D as [| ? ? Dl Dr]; subst. f_equal.
      + apply (decomposed_layer_between _ _ _ Dl B).
      + apply IH. exact Dr. }
  destruct g, gm; simpl in *. congruence.
Qed.

Lemma glyph_by_name_between (f fm : GSFont) (n : string) :
  font_between f fm ->
  (forall r, glyph_by_name f n = Some r -> glyph_decomposed r) ->
  glyph_by_name fm n = glyph_by_name f n.
Proof.
  intros [_ [_ G]]. unfold glyph_by_name.
  induction G as [| g gm r rm [N [E [A L]]] _ IH]; intros D; simpl in *; [reflexivity |].
  rewrite N. destruct (String.eqb (glyph_name g) n) eqn:X.
  - f_equal. apply decomposed_glyph_between; try assumption. apply D. reflexivity.
  - apply IH. exact D.
Qed.

Lemma glyph_by_name_update_layer (f : GSFont) (gi li : nat) (u : GSLayer -> GSLayer)
    (g : GSGlyph) (n : string) :
  nth_error (glyphs f) gi = Some g ->
  glyph_by_name f n <> Some g ->
  glyph_by_name (update_layer f gi li u) n = glyph_by_name f n.
Proof.
  unfold glyph_by_name, update_layer. simpl. generalize (glyphs f). clear f.
  intros gs. revert gi. induction gs as [| a r IH]; intros gi Hg Hne; [reflexivity |].
  destruct gi as [| gi]; simpl in *.
  - injection Hg as ->. destruct (String.eqb (glyph_name g) n); [| reflexivity].
    exfalso. apply Hne. reflexivity.
  - destruct (String.eqb (glyph_name a) n); [reflexivity |].
    apply IH; assumption.
Qed.

Lemma resolved_in_turn_flat (smart : bool) (f : GSFont) (gi li : nat) (l : GSLayer) :
  forall (comps : list GSComponent) (pss : list (list GSPath)) (fm : GSFont)
         (gm : GSGlyph) (acc : list GSPath),
    (forall c, In c comps -> In (SComp c) (_shapes l) /\ expanded smart c = true) ->
    (forall c r, In c comps -> glyph_by_name f (comp_name c) = Some r -> glyph_decomposed r) ->
    (forall c, In c comps -> glyph_by_name fm (comp_name c) = glyph_by_name f (comp_name c)) ->
    nth_error (glyphs fm) gi = Some gm ->
    _is_smart_glyph gm = smart ->
    nth_error (layers gm) li = Some (extend_paths acc l) ->
    resolved_in_turn (expander_of applyTransform smart) fm gi li l comps pss ->
    Forall2 (fun c ps => expander_of applyTransform smart f l c = Ok (Some ps)) comps pss.
Proof.
  induction comps as [| c cs IH]; intros [| ps pss] fm gm acc Hin Hflat Hagree Hgm Hs Hl Hres;
    simpl in Hres; try contradiction; constructor.
  - destruct Hres as [Hc _].
    rewrite <- (expander_frame smart fm f l c (Hagree c (or_introl eq_refl))). exact Hc.
  - destruct Hres as [_ Hres].
    assert (Hnot : forall c', In c' (c :: cs) -> glyph_by_name fm (comp_name c') <> Some gm).
    { intros c' Hc' Eq. rewrite (Hagree c' Hc') in Eq.
      pose proof (Hflat c' gm Hc' Eq) as D.
      unfold glyph_decomposed in D. rewrite Forall_forall in D.
      specialize (D _ (nth_error_In _ _ Hl)). rewrite Forall_forall in D.
      destruct (Hin c' Hc') as [Hsh Hex].
      assert (Hsh' : In (SComp c') (_shapes (extend_paths acc l))).
      { unfold extend_paths. simpl. apply in_or_app. left. exact Hsh. }
      specialize (D _ Hsh'). simpl in D. destruct D as [D1 D2].
      rewrite Hs in D1. rewrite D1 in Hex. unfold expanded, has_values in Hex.
      rewrite D2 in Hex. discriminate Hex. }
    apply (IH pss (update_layer fm gi li (extend_paths ps))
              (set_layers gm (update_nth (layers gm) li (extend_paths ps))) (acc ++ ps)).
    + intros c' Hc'. apply Hin. right. exact Hc'.
    + intros c' r Hc'. apply Hflat. right. exact Hc'.
    + intros c' Hc'. rewrite <- (Hagree c' (or_intror Hc')).
      apply (glyph_by_name_update_layer fm gi li _ gm); [exact Hgm |].
      apply Hnot. right. exact Hc'.
    + unfold update_layer. simpl.
      rewrite (update_nth_ext_at _ _ _ (fun _ => set_layers gm (update_nth (layers gm) li (extend_paths ps))) gm Hgm) by reflexivity.
      clear - Hgm. revert gi Hgm. induction (glyphs fm) as [| a r IH]; intros [| gi] H;
        simpl in *; try discriminate H; [injection H as ->; reflexivity | apply IH; exact H].
    + exact Hs.
    + simpl. clear - Hl. revert li Hl. induction (layers gm) as [| a r IH]; intros [| li] H;
        simpl in *; try discriminate H.
      * injection H as ->. rewrite extend_paths_app. reflexivity.
      * apply IH. exact H.
    + exact Hres.
Qed.

Lemma decomposer_flattened (f f' : GSFont) :
  flat_references f ->
  expanded_from applyTransform f f' ->
  flattened_from applyTransform f f'.
Proof.
  intros Hflat [_ [_ G]]. unfold flattened_from.
  apply (Forall2i_Forall2 _ _ _ _ 0%nat) with (2 := G). simpl.
  intros gi g g' Hg [_ [_ [_ L]]].
  apply (Forall2i_Forall2 _ _ _ _ 0%nat) with (2 := L). simpl.
  intros li l l' Hl [fm [pss [HB [Hget [Hres ->]]]]].
  exists pss. split; [| reflexivity].
  unfold get_layer in Hget.
  destruct (nth_error (glyphs fm) gi) as [gm |] eqn:Hgm; [| discriminate Hget].
  assert (Hs : _is_smart_glyph gm = _is_smart_glyph g).
  { destruct HB as [_ [_ GB]].
    destruct (Forall2_nth_error _ _ _ gi g GB Hg) as [gm' [Hgm' [_ [_ [A _]]]]].
    rewrite Hgm in Hgm'. injection Hgm' as <-. apply is_smart_glyph_axes. exact A. }
  assert (Hex : forall c, In c (filter (expanded (_is_smart_glyph g)) (layer_components l)) ->
                          In (SComp c) (_shapes l) /\ expanded (_is_smart_glyph g) c = true).
  { intros c Hc. apply filter_In in Hc. destruct Hc as [Hc He].
    split; [apply In_layer_components; exact Hc | exact He]. }
  assert (Hdec : forall c r,
             In c (filter (expanded (_is_smart_glyph g)) (layer_components l)) ->
             glyph_by_name f (comp_name c) = Some r -> glyph_decomposed r).
  { intros c r Hc Hr. apply filter_In in Hc. destruct Hc as [Hc He].
    apply (Hflat g l c r); try assumption.
    - eapply nth_error_In. exact Hg.
    - eapply nth_error_In. exact Hl. }
  apply (resolved_in_turn_flat (_is_smart_glyph g) f gi li l _ pss fm gm []); try assumption.
  - intros c Hc. apply glyph_by_name_between; [exact HB |].
    intros r. apply Hdec. exact Hc.
  - rewrite extend_paths_nil. exact Hget.
Qed.

End Expanded.



(** The references of the sample font are flat, so the paths its glyphs
    gain are those the resolver gives in the font before the run. *)
Example sample_references_are_flat :
  flat_references Sample.gsfont /\
  flattened_from Sample.affine Sample.gsfont (font Sample.F).
Proof.
  assert (Hflat : flat_references Sample.gsfont).
  { intros g l c r Hg Hl Hc He Hr. simpl in Hg.
    destruct Hg as [<- | [<- | [<- | [<- | []]]]]; simpl in Hl;
      repeat (destruct Hl as [<- | Hl]); try contradiction; simpl in Hc;
      repeat (destruct Hc as [<- | Hc]); try contradiction;
      try discriminate He; vm_compute in Hr; injection Hr as <-; repeat constructor. }
  split; [exact Hflat |].
  apply decomposer_flattened; [exact Hflat |].
  apply decomposer_expanded. reflexivity.
Qed.


(** ** The numbers, in the arithmetic of the interpreter *)

Lemma py_round_nearest_even (q : Q) : nearest_even q (py_round q).
Proof.
  unfold nearest_even, py_round.
  pose proof (Qfloor_le q) as L. pose proof (Qlt_floor q) as U.
  rewrite inject_Z_plus in U. change (inject_Z 1) with 1%Q in U.
  set (f := Qfloor q) in *.
  destruct (Qcompare (q - inject_Z f) (1 # 2)) eqn:C.
  - apply Qeq_alt in C. destruct (Z.even f) eqn:E.
    + split; [| intros _; exact E].
      rewrite Qabs_pos by lra. lra.
    + rewrite inject_Z_plus. change (inject_Z 1) with 1%Q. split.
      * rewrite Qabs_neg by lra. lra.
      * intros _. rewrite Z.even_add, E. reflexivity.
  - apply Qlt_alt in C. split.
    + rewrite Qabs_pos by lra. lra.
    + rewrite Qabs_pos by lra. intros E. lra.
  - apply Qgt_alt in C. rewrite inject_Z_plus. change (inject_Z 1) with 1%Q. split.
    + rewrite Qabs_neg by lra. lra.
    + rewrite Qabs_neg by lra. intros E. lra.
Qed.

Lemma to_float_Raise (n : Machine.num) (e : exn) :
  Machine.to_float n = Raise e -> e = OverflowError.
Proof.
  destruct n as [z | x]; simpl; [| discriminate].
  destruct (Machine.float_of_Z z); try discriminate. intros H. injection H as <-. reflexivity.
Qed.

Lemma SFmul_comm (x y : spec_float) :
  SFmul Machine.prec Machine.emax x y = SFmul Machine.prec Machine.emax y x.
Proof.
  destruct x as [sx | sx | | sx mx ex], y as [sy | sy | | sy my ey]; simpl;
    try reflexivity; try (rewrite xorb_comm; reflexivity).
  rewrite xorb_comm, Pos.mul_comm, Z.add_comm. reflexivity.
Qed.

Lemma mul_comm (a b : Machine.num) : Machine.mul a b = Machine.mul b a.
Proof.
  unfold Machine.mul, Machine.arith.
  destruct a as [x | x], b as [y | y].
  - rewrite Z.mul_comm. reflexivity.
  - destruct (Machine.to_float (Machine.Int x)) as [fx | e] eqn:E; simpl.
    + rewrite SFmul_comm. reflexivity.
    + reflexivity.
  - destruct (Machine.to_float (Machine.Int y)) as [fy | e] eqn:E; simpl.
    + rewrite SFmul_comm. reflexivity.
    + reflexivity.
  - simpl. rewrite SFmul_comm. reflexivity.
Qed.

Lemma arith_Raise (iop : Z -> Z -> Z) (fop : Machine.float -> Machine.float -> Machine.float)
    (a b : Machine.num) (e : exn) :
  Machine.arith iop fop a b = Raise e -> e = OverflowError.
Proof.
  unfold Machine.arith. destruct a as [x | x], b as [y | y]; try discriminate.
  - destruct (Machine.to_float (Machine.Int x)) eqn:E; simpl; [discriminate |].
    intros H. injection H as <-. eapply to_float_Raise. exact E.
  - destruct (Machine.to_float (Machine.Int y)) eqn:E; simpl; [discriminate |].
    intros H. injection H as <-. eapply to_float_Raise. exact E.
Qed.

Lemma round_Raise (n : Machine.num) (e : exn) :
  Machine.round n = Raise e -> e = OverflowError \/ e = ValueError.
Proof.
  destruct n as [z | [s | s | | s m x]]; simpl; try discriminate;
    intros H; injection H as <-; auto.
Qed.

(** [round] on what it accepts *)
Lemma round_finite (n : Machine.num) :
  Machine.finite n ->
  exists r, Machine.round n = Ok r /\ nearest_even (Machine.value_of n) r.
Proof.
  destruct n as [z | [s | s | | s m x]]; simpl; intros F; try contradiction.
  - exists z. split; [reflexivity |]. rewrite <- (py_round_inject_Z z) at 2.
    apply py_round_nearest_even.
  - exists (py_round 0). split; [reflexivity | apply py_round_nearest_even].
  - eexists. split; [reflexivity | apply py_round_nearest_even].
Qed.

Lemma round_Ok_finite (n : Machine.num) (r : Z) :
  Machine.round n = Ok r -> Machine.finite n.
Proof.
  destruct n as [z | [s | s | | s m x]]; simpl; try discriminate; intros _; exact I.
Qed.

(** *** The interpolated value of a style *)

Lemma generate_loop (values : list Machine.num) :
  forall (interpolation : list (nat * Machine.num)) (acc : Machine.num),
    Machine.indices_in_range interpolation (List.length values) ->
    foldM (fun acc iv =>
             x <- py_index values (fst iv) ;;
             term <- Machine.mul x (snd iv) ;;
             Machine.add acc term)
          interpolation acc
    = Machine.weighted_sum_from acc interpolation values.
Proof.
  induction interpolation as [| [i w] r IH]; intros acc Hr; simpl; [reflexivity |].
  inversion Hr as [| ? ? Hi Hrest]; subst. simpl in Hi.
  rewrite (py_index_nth values i (Machine.Int 0) Hi). simpl.
  rewrite (mul_comm (nth i values (Machine.Int 0)) w).
  destruct (Machine.mul w (nth i values (Machine.Int 0))) as [term | e]; simpl; [| reflexivity].
  destruct (Machine.add acc term) as [acc' | e]; simpl; [| reflexivity].
  apply IH. exact Hrest.
Qed.

Lemma weighted_sum_from_Raise (values : list Machine.num) :
  forall (interpolation : list (nat * Machine.num)) (acc : Machine.num) (e : exn),
    Machine.weighted_sum_from acc interpolation values = Raise e -> e = OverflowError.
Proof.
  induction interpolation as [| [i w] r IH]; intros acc e H; simpl in H; [discriminate H |].
  destruct (Machine.mul w (nth i values (Machine.Int 0))) as [term | e1] eqn:M; simpl in H.
  - destruct (Machine.add acc term) as [acc' | e2] eqn:A; simpl in H.
    + eapply IH. exact H.
    + injection H as <-. eapply arith_Raise. exact A.
  - injection H as <-. eapply arith_Raise. exact M.
Qed.

Lemma nearest_even_unique (q : Q) (r r' : Z) :
  nearest_even q r -> nearest_even q r' -> r = r'.
Proof.
  intros [A1 E1] [A2 E2].
  apply Qabs_Qle_condition in A1. apply Qabs_Qle_condition in A2.
  destruct A1 as [L1 U1]. destruct A2 as [L2 U2].
  assert (B1 : (inject_Z (r - r') <= inject_Z 1)%Q).
  { unfold Z.sub. rewrite inject_Z_plus, inject_Z_opp. change (inject_Z 1) with 1%Q. lra. }
  assert (B2 : (inject_Z (-1) <= inject_Z (r - r'))%Q).
  { unfold Z.sub. rewrite inject_Z_plus, inject_Z_opp. change (inject_Z (-1)) with (-1)%Q. lra. }
  rewrite <- Zle_Qle in B1, B2.
  assert (C : r - r' = -1 \/ r - r' = 0 \/ r - r' = 1) by lia.
  destruct C as [C | [C | C]]; [| lia |]; exfalso.
  - assert (Er : r' = r + 1) by lia. subst r'.
    rewrite inject_Z_plus in *. change (inject_Z 1) with 1%Q in *.
    assert (Q1 : (q - inject_Z r == 1 # 2)%Q) by lra.
    assert (X1 : Z.even r = true).
    { apply E1. rewrite Qabs_pos by lra. exact Q1. }
    assert (X2 : Z.even (r + 1) = true).
    { apply E2. rewrite Qabs_neg by lra. lra. }
    rewrite Z.even_add, X1 in X2. discriminate X2.
  - assert (Er : r = r' + 1) by lia. subst r.
    rewrite inject_Z_plus in *. change (inject_Z 1) with 1%Q in *.
    assert (Q1 : (q - inject_Z r' == 1 # 2)%Q) by lra.
    assert (X1 : Z.even r' = true).
    { apply E2. rewrite Qabs_pos by lra. exact Q1. }
    assert (X2 : Z.even (r' + 1) = true).
    { apply E1. rewrite Qabs_neg by lra. lra. }
    rewrite Z.even_add, X1 in X2. discriminate X2.
Qed.

(** [round] of a computed number, in the words of the specification. *)
Lemma round_rounds_to (c : result Machine.num) (z : Z) :
  (s <- c ;; Machine.round s) = Ok z <-> Machine.rounds_to c z.
Proof.
  unfold Machine.rounds_to. split.
  - intros H. inv_bind H. exists a. split; [exact Ha |].
    pose proof (round_Ok_finite _ _ H) as F. split; [exact F |].
    destruct (round_finite a F) as [r' [H' N]]. rewrite H in H'. injection H' as <-. exact N.
  - intros [s [-> [F N]]]. simpl.
    destruct (round_finite s F) as [r' [H' N']]. rewrite H'. f_equal.
    apply (nearest_even_unique _ _ _ N' N).
Qed.

Lemma round_roundable (c : result Machine.num) :
  Machine.roundable c -> exists z, (s <- c ;; Machine.round s) = Ok z.
Proof.
  intros [s [-> F]]. simpl. destruct (round_finite s F) as [r [H _]]. exists r. exact H.
Qed.

Lemma generate_round_weighted_sum (interpolation : list (nat * Machine.num))
    (values : list Machine.num) :
  Machine.indices_in_range interpolation (List.length values) ->
  Machine._generate interpolation values
  = (s <- Machine.weighted_sum interpolation values ;; Machine.round s).
Proof.
  intros Hr. unfold Machine._generate, Machine.weighted_sum.
  rewrite (generate_loop _ _ _ Hr). reflexivity.
Qed.

(** A value is only returned when every master index has an entry. *)
Lemma generate_loop_in_range (values : list Machine.num) :
  forall (interpolation : list (nat * Machine.num)) (acc s : Machine.num),
    foldM (fun acc iv =>
             x <- py_index values (fst iv) ;;
             term <- Machine.mul x (snd iv) ;;
             Machine.add acc term)
          interpolation acc = Ok s ->
    Machine.indices_in_range interpolation (List.length values).
Proof.
  induction interpolation as [| [i w] r IH]; intros acc s H; [constructor |].
  simpl in H. inv_bind H. inv_bind Ha. constructor.
  - simpl. destruct (Nat.lt_ge_cases i (List.length values)) as [Hlt | Hge]; [exact Hlt |].
    rewrite (py_index_out values i Hge) in Ha0. discriminate Ha0.
  - eapply IH. exact H.
Qed.

Lemma generate_machine_in_range (interpolation : list (nat * Machine.num))
    (values : list Machine.num) (r : Z) :
  Machine._generate interpolation values = Ok r ->
  Machine.indices_in_range interpolation (List.length values).
Proof.
  unfold Machine._generate. intros H. inv_bind H. eapply generate_loop_in_range. exact Ha.
Qed.

(** C3. For every interpolation vector whose master indices have an entry
    in the per-master value list, the value computed for the style is
    [round] of the sum over the vector of [w_j * masterValue[i_j]], in the
    arithmetic of the interpreter: the terms are added from the left, ints
    exactly and floats as doubles, and the sum, when it is an int or a
    finite double, goes to the nearest integer of its exact value, the
    even one on a tie. *)
Theorem generate_is_rounded_weighted_sum :
  forall (interpolation : list (nat * Machine.num)) (masterValue : list Machine.num),
    Machine.indices_in_range interpolation (List.length masterValue) ->
    Machine._generate interpolation masterValue
    = (s <- Machine.weighted_sum interpolation masterValue ;; Machine.round s) /\
    (forall r,
        Machine._generate interpolation masterValue = Ok r <->
        Machine.rounds_to (Machine.weighted_sum interpolation masterValue) r).
Proof.
  intros interpolation masterValue Hr.
  pose proof (generate_round_weighted_sum interpolation masterValue Hr) as E.
  split; [exact E |].
  intros r. rewrite E. apply round_rounds_to.
Qed.

(** The scenario of C3: vector [(0, 0.5), (1, 0.5)] over master values
    [100, 200] gives 150. *)
Lemma generate_axis_height_150 :
  Machine.indices_in_range [(0%nat, Machine.half); (1%nat, Machine.half)]
    (List.length [Machine.Int 100; Machine.Int 200]) /\
  Machine._generate [(0%nat, Machine.half); (1%nat, Machine.half)]
    [Machine.Int 100; Machine.Int 200] = Ok 150.
Proof.
  assert (Hr : Machine.indices_in_range [(0%nat, Machine.half); (1%nat, Machine.half)]
                 (List.length [Machine.Int 100; Machine.Int 200])).
  { repeat constructor. }
  split; [exact Hr |].
  exact (eq_trans
           (proj1 (generate_is_rounded_weighted_sum
                     [(0%nat, Machine.half); (1%nat, Machine.half)]
                     [Machine.Int 100; Machine.Int 200] Hr))
           eq_refl).
Defined.

(** The interpreter's numbers at work: a tie that only the double sum
    meets, an int that a double cannot hold, and sums that [round]
    refuses. *)
Example generate_in_doubles :
  Machine._generate [(0%nat, Machine.decimal 2 100); (1%nat, Machine.decimal 98 100)]
    [Machine.Int 1; Machine.Int 26] = Ok 26 /\
  Machine._generate [(0%nat, Machine.decimal 1 1)] [Machine.Int (2 ^ 53 + 1)] = Ok (2 ^ 53) /\
  Machine._generate [(0%nat, Machine.Int 1)] [Machine.Int (2 ^ 53 + 1)] = Ok (2 ^ 53 + 1) /\
  Machine._generate [(0%nat, Machine.decimal 1 1); (1%nat, Machine.decimal 1 1)]
    [Machine.decimal (10 ^ 308) 1; Machine.decimal (10 ^ 308) 1] = Raise OverflowError /\
  Machine._generate [(0%nat, Machine.decimal 1 2)] [Machine.Int (10 ^ 400)]
  = Raise OverflowError /\
  Machine._generate [(0%nat, Machine.decimal 1 1)] [Machine.Float (S754_infinity false)]
  = Raise OverflowError /\
  Machine._generate [(0%nat, Machine.decimal 1 1)] [Machine.Float S754_nan]
  = Raise ValueError.
Proof.
  repeat split; vm_compute; reflexivity.
Qed.

(** *** Node interpolation *)

Lemma coordinate_blend (p0 p1 t : Machine.num) :
  Machine.coordinate p0 p1 t = (s <- Machine.blend p0 p1 t ;; Machine.round s).
Proof.
  unfold Machine.coordinate, Machine.blend.
  destruct (Machine.sub (Machine.Int 1) t) as [u | e]; simpl; [| reflexivity].
  destruct (Machine.mul p0 u) as [a | e]; simpl; [| reflexivity].
  destruct (Machine.mul p1 t) as [b | e]; simpl; reflexivity.
Qed.

Lemma interpolate_node_Ok (node_0 node_1 node : Machine.GSNode) (t : Machine.num) :
  Machine._interpolate_node node_0 node_1 t = Ok node <->
  exists x y,
    Machine.rounds_to
      (Machine.blend (Machine.px (Machine.position node_0))
                     (Machine.px (Machine.position node_1)) t) x /\
    Machine.rounds_to
      (Machine.blend (Machine.py (Machine.position node_0))
                     (Machine.py (Machine.position node_1)) t) y /\
    node = Machine.mkNode (Machine.mkPoint (Machine.Int x) (Machine.Int y))
             (Machine.node_type node_0) (Machine.smooth node_0).
Proof.
  unfold Machine._interpolate_node. rewrite !coordinate_blend. split.
  - intros H. inv_bind H. inv_bind H. injection H as <-.
    exists a, a0. repeat split; apply round_rounds_to; assumption.
  - intros [x [y [Hx [Hy ->]]]].
    apply round_rounds_to in Hx. apply round_rounds_to in Hy.
    rewrite Hx. simpl. rewrite Hy. reflexivity.
Qed.

Lemma nth_error_combine {A B : Type} (l : list A) (l' : list B) (i : nat) (a : A) (b : B) :
  nth_error l i = Some a -> nth_error l' i = Some b ->
  nth_error (combine l l') i = Some (a, b).
Proof.
  revert l' i. induction l as [| x r IH]; intros [| y r'] [| i] Ha Hb; simpl in *;
    try discriminate.
  - injection Ha as ->. injection Hb as ->. reflexivity.
  - apply IH; assumption.
Qed.

(** C5. Corresponding nodes of the two paths give an output node at the
    same place in the interpolated path; its coordinates are
    [round(pos0 * (1 - t) + pos1 * t)] in the arithmetic of the
    interpreter, and its type and smooth flag are those of the part-1
    node.  The path is produced whenever every blend of corresponding
    coordinates is an int or a finite double. *)
Theorem interpolate_path_nodes :
  forall (path_0 path_1 : Machine.GSPath) (t : Machine.num) (i : nat)
         (node_0 node_1 : Machine.GSNode),
    nth_error (Machine.nodes path_0) i = Some node_0 ->
    nth_error (Machine.nodes path_1) i = Some node_1 ->
    (forall path,
        Machine._interpolate_path path_0 path_1 t = Ok path ->
        exists node x y,
          nth_error (Machine.nodes path) i = Some node /\
          Machine.rounds_to
            (Machine.blend (Machine.px (Machine.position node_0))
                           (Machine.px (Machine.position node_1)) t) x /\
          Machine.rounds_to
            (Machine.blend (Machine.py (Machine.position node_0))
                           (Machine.py (Machine.position node_1)) t) y /\
          Machine.position node = Machine.mkPoint (Machine.Int x) (Machine.Int y) /\
          Machine.node_type node = Machine.node_type node_0 /\
          Machine.smooth node = Machine.smooth node_0) /\
    (Forall (fun nn =>
               Machine.roundable
                 (Machine.blend (Machine.px (Machine.position (fst nn)))
                                (Machine.px (Machine.position (snd nn))) t) /\
               Machine.roundable
                 (Machine.blend (Machine.py (Machine.position (fst nn)))
                                (Machine.py (Machine.position (snd nn))) t))
            (combine (Machine.nodes path_0) (Machine.nodes path_1)) ->
     exists path, Machine._interpolate_path path_0 path_1 t = Ok path).
Proof.
  intros path_0 path_1 t i node_0 node_1 H0 H1. split.
  - intros path H. unfold Machine._interpolate_path in H. inv_bind H. injection H as <-.
    apply mapM_Ok_Forall2 in Ha.
    destruct (Forall2_nth_error _ _ _ i (node_0, node_1) Ha (nth_error_combine _ _ _ _ _ H0 H1))
      as [node [Hn Hnode]].
    simpl in Hnode. apply interpolate_node_Ok in Hnode.
    destruct Hnode as [x [y [Hx [Hy ->]]]].
    exists (Machine.mkNode (Machine.mkPoint (Machine.Int x) (Machine.Int y))
              (Machine.node_type node_0) (Machine.smooth node_0)), x, y.
    repeat split; assumption.
  - intros Hall. unfold Machine._interpolate_path.
    destruct (mapM_succeeds (fun nn => Machine._interpolate_node (fst nn) (snd nn) t)
                (combine (Machine.nodes path_0) (Machine.nodes path_1))) as [ns Hns].
    + intros nn Hin. rewrite Forall_forall in Hall. destruct (Hall nn Hin) as [Rx Ry].
      unfold Machine._interpolate_node. rewrite !coordinate_blend.
      destruct (round_roundable _ Rx) as [x Hx]. destruct (round_roundable _ Ry) as [y Hy].
      rewrite Hx. simpl. rewrite Hy. simpl. eexists. reflexivity.
    + rewrite Hns. simpl. eexists. reflexivity.
Qed.

Lemma interpolate_path_nodes_witness :
  (forall path,
      Machine._interpolate_path (Machine.box 10 100) (Machine.box 10 200) Machine.half = Ok path ->
      exists node x y,
        nth_error (Machine.nodes path) 2 = Some node /\
        Machine.rounds_to (Machine.blend (Machine.Int 10) (Machine.Int 10) Machine.half) x /\
        Machine.rounds_to (Machine.blend (Machine.Int 100) (Machine.Int 200) Machine.half) y /\
        Machine.position node = Machine.mkPoint (Machine.Int x) (Machine.Int y) /\
        Machine.node_type node = "line" /\
        Machine.smooth node = false) /\
  (Forall (fun nn =>
             Machine.roundable
               (Machine.blend (Machine.px (Machine.position (fst nn)))
                              (Machine.px (Machine.position (snd nn))) Machine.half) /\
             Machine.roundable
               (Machine.blend (Machine.py (Machine.position (fst nn)))
                              (Machine.py (Machine.position (snd nn))) Machine.half))
          (combine (Machine.nodes (Machine.box 10 100)) (Machine.nodes (Machine.box 10 200))) ->
   exists path,
     Machine._interpolate_path (Machine.box 10 100) (Machine.box 10 200) Machine.half = Ok path).
Proof.
  exact (interpolate_path_nodes (Machine.box 10 100) (Machine.box 10 200) Machine.half 2
           (Machine.line 10 100) (Machine.line 10 200) eq_refl eq_refl).
Defined.

(** The interpolated box, and blends that the double arithmetic puts
    beside the exact one: just below a tie, and outside the two equal
    coordinates it blends. *)
Example interpolate_in_doubles :
  Machine._interpolate_path (Machine.box 10 100) (Machine.box 10 200) Machine.half
  = Ok (Machine.mkPath true
          [Machine.line 0 0; Machine.line 10 0; Machine.line 10 150; Machine.line 0 150]) /\
  Machine.coordinate (Machine.Int 7) (Machine.Int 32) (Machine.decimal 2 100) = Ok 7 /\
  (t <- Machine._rescale (Machine.Int 70) (Machine.Int 0) (Machine.Int 100) ;;
   Machine.coordinate (Machine.Int 15) (Machine.Int 0) t) = Ok 5 /\
  Machine.coordinate (Machine.Int 8258786944323093) (Machine.Int 8258786944323093)
    (Machine.decimal 718481835103385 1000000000000000) = Ok 8258786944323094.
Proof.
  repeat split; vm_compute; reflexivity.
Qed.

(** *** The variant advances of a style *)

Lemma variant_lookup_machine (interpolation : list (nat * Machine.num))
    (master : dict (dict (list Z))) (style : dict (dict Z)) (glyph var : string)
    (vs : dict Z) (adv : Z) :
  Machine._variant interpolation master = Ok style ->
  dict_get style glyph = Some vs ->
  dict_get vs var = Some adv ->
  exists mvs values,
    In (glyph, mvs) master /\ In (var, values) mvs /\
    Machine._generate interpolation (map Machine.Int values) = Ok adv.
Proof.
  unfold Machine._variant. intros H G1 G2.
  destruct (dict_compM_get_Some _ _ _ _ _ _ H G1) as [_ [mvs [Hmvs Hvs]]].
  destruct (dict_compM_get_Some _ _ _ _ _ _ Hvs G2) as [_ [values [Hvalues Hadv]]].
  exists mvs, values. repeat split.
  - apply dict_get_In in Hmvs. apply in_rev in Hmvs. exact Hmvs.
  - apply dict_get_In in Hvalues. apply in_rev in Hvalues. exact Hvalues.
  - exact Hadv.
Qed.

(** C4, amended. The advance of a master is the width (direction [H]) or
    the height (direction [V]) of the bounding box, rounded and made
    non-negative; one unit is added to the advance of every master, and
    the advance in the variant record of a style is what [_generate] makes
    of these padded advances: [round] of their weighted sum, in the
    arithmetic of the interpreter. *)
Theorem variant_advance_padded_per_master :
  forall (bounds_size : GSLayer -> option Size) (F : Font) (data : TomlData)
         (md : MasterData) (interpolation : list (nat * Machine.num))
         (direction glyph var : string) (style_variants : dict (dict Z))
         (vs : dict Z) (adv : Z),
    fst (_parse_master_math_table bounds_size F data) = Ok md ->
    (direction = "H" /\
     Machine._variant interpolation (mv_HorizontalVariants (md_MathVariants md))
     = Ok style_variants) \/
    (direction = "V" /\
     Machine._variant interpolation (mv_VerticalVariants (md_MathVariants md))
     = Ok style_variants) ->
    dict_get style_variants glyph = Some vs ->
    dict_get vs var = Some adv ->
    exists (g : GSGlyph) (ls : list GSLayer) (raw : list Z),
      glyph_by_name (font F) var = Some g /\
      _master_layers F (layers g) = Ok ls /\
      Forall2 (layer_advance bounds_size direction) ls raw /\
      Machine._generate interpolation (map (fun a => Machine.Int (a + 1)) raw) = Ok adv /\
      Machine.rounds_to
        (Machine.weighted_sum interpolation (map (fun a => Machine.Int (a + 1)) raw)) adv /\
      In (mkVariantRecord var adv) (VariantRecords (_glyph_construction vs)).
Proof.
  intros bounds_size F data md interpolation direction glyph var style_variants vs adv
    Hmd Hdir Hvs Hadv.
  destruct (parse_master_variants bounds_size F data md Hmd) as [_ [_ [Hh [Hv _]]]].
  assert (Hvalues : exists values,
             _advances bounds_size F var direction true = Ok values /\
             Machine._generate interpolation (map Machine.Int values) = Ok adv).
  { destruct Hdir as [[-> S] | [-> S]].
    - destruct (variant_lookup_machine _ _ _ _ _ _ _ S Hvs Hadv) as [mvs [values [M1 [M2 M3]]]].
      destruct (map_valuesM_In _ _ _ _ _ Hh M1) as [suffixes [_ Hva]].
      exists values. split; [| exact M3].
      eapply variant_advances_In; eassumption.
    - destruct (variant_lookup_machine _ _ _ _ _ _ _ S Hvs Hadv) as [mvs [values [M1 [M2 M3]]]].
      destruct (map_valuesM_In _ _ _ _ _ Hv M1) as [suffixes [_ Hva]].
      exists values. split; [| exact M3].
      eapply variant_advances_In; eassumption. }
  destruct Hvalues as [values [Hvalues Hgen]].
  destruct (advances_plus_1 _ _ _ _ _ Hvalues) as [raw [Hraw ->]].
  destruct (advances_raw _ _ _ _ _ Hraw) as [g [ls [Hg [Hls Hall]]]].
  rewrite map_map in Hgen.
  exists g, ls, raw. repeat split; try assumption.
  - pose proof (generate_machine_in_range _ _ _ Hgen) as Hr.
    rewrite (generate_round_weighted_sum _ _ Hr) in Hgen.
    apply round_rounds_to. exact Hgen.
  - apply glyph_construction_records. exact Hadv.
Qed.

Lemma variant_advance_padded_per_master_witness :
  exists (g : GSGlyph) (ls : list GSLayer) (raw : list Z),
    glyph_by_name (font Sample.F) "dot" = Some g /\
    _master_layers Sample.F (layers g) = Ok ls /\
    Forall2 (layer_advance Sample.node_box "H") ls raw /\
    Machine._generate [(0%nat, Machine.half); (1%nat, Machine.half)]
      (map (fun a => Machine.Int (a + 1)) raw) = Ok 12 /\
    Machine.rounds_to
      (Machine.weighted_sum [(0%nat, Machine.half); (1%nat, Machine.half)]
         (map (fun a => Machine.Int (a + 1)) raw)) 12 /\
    In (mkVariantRecord "dot" 12) (VariantRecords (_glyph_construction [("dot", 12)])).
Proof.
  apply (variant_advance_padded_per_master Sample.node_box Sample.F Sample.toml
           Sample.master_data [(0%nat, Machine.half); (1%nat, Machine.half)]
           "H" "dot" "dot" [("dot", [("dot", 12)])] [("dot", 12)] 12).
  - reflexivity.
  - left. split; reflexivity.
  - reflexivity.
  - reflexivity.
Defined.

(** * Further properties *)

(** ** Rounding and the blend factor *)

Lemma py_round_floor (x : Q) : Qfloor x <= py_round x <= Qfloor x + 1.
Proof.
  unfold py_round. destruct (Qcompare _ _); try lia.
  destruct (Z.even (Qfloor x)); lia.
Qed.

Lemma py_round_lower (lo : Z) (x : Q) : (inject_Z lo <= x)%Q -> lo <= py_round x.
Proof.
  intros H. apply Qfloor_resp_le in H. rewrite Qfloor_Z in H.
  pose proof (py_round_floor x). lia.
Qed.

Lemma py_round_upper (hi : Z) (x : Q) : (x <= inject_Z hi)%Q -> py_round x <= hi.
Proof.
  intros H. pose proof (Qfloor_resp_le _ _ H) as Hf. rewrite Qfloor_Z in Hf.
  pose proof (py_round_floor x) as Hr.
  destruct (Z.eq_dec (Qfloor x) hi) as [E | Hne]; [| lia].
  unfold py_round. rewrite E.
  assert (L : ((x - inject_Z hi) ?= (1 # 2))%Q = Lt).
  { rewrite <- Qlt_alt. lra. }
  rewrite L. lia.
Qed.



(** ** Smart references at the ends of the axis *)




Section AxisEnds.

Variable applyTransform : Transform -> GSPath -> GSPath.




End AxisEnds.


(** ** The interpolated value of a style *)

Lemma weighted_sum_lower (interpolation : list (nat * Q)) (values : list Q) (lo : Q) :
  Forall (fun iw => (0 <= snd iw)%Q) interpolation ->
  indices_in_range interpolation (List.length values) ->
  Forall (fun v => (lo <= v)%Q) values ->
  (lo * weights_total interpolation <= weighted_sum interpolation values)%Q.
Proof.
  intros Hw Hr Hv. unfold weights_total.
  induction interpolation as [| [i w] r IH]; simpl.
  - lra.
  - inversion Hw as [| ? ? Hw0 Hw']; subst. inversion Hr as [| ? ? Hi Hr']; subst.
    simpl in Hw0, Hi. specialize (IH Hw' Hr').
    assert (Hn : (lo <= nth i values 0)%Q).
    { rewrite Forall_forall in Hv. apply Hv. apply nth_In. exact Hi. }
    assert (P : (lo * w <= nth i values 0 * w)%Q) by (apply Qmult_le_compat_r; assumption).
    lra.
Qed.

Lemma weighted_sum_upper (interpolation : list (nat * Q)) (values : list Q) (hi : Q) :
  Forall (fun iw => (0 <= snd iw)%Q) interpolation ->
  indices_in_range interpolation (List.length values) ->
  Forall (fun v => (v <= hi)%Q) values ->
  (weighted_sum interpolation values <= hi * weights_total interpolation)%Q.
Proof.
  intros Hw Hr Hv. unfold weights_total.
  induction interpolation as [| [i w] r IH]; simpl.
  - lra.
  - inversion Hw as [| ? ? Hw0 Hw']; subst. inversion Hr as [| ? ? Hi Hr']; subst.
    simpl in Hw0, Hi. specialize (IH Hw' Hr').
    assert (Hn : (nth i values 0 <= hi)%Q).
    { rewrite Forall_forall in Hv. apply Hv. apply nth_In. exact Hi. }
    assert (P : (nth i values 0 * w <= hi * w)%Q) by (apply Qmult_le_compat_r; assumption).
    lra.
Qed.

Lemma generate_lower (interpolation : list (nat * Q)) (values : list Q) (lo r : Z) :
  convex interpolation ->
  Forall (fun v => (inject_Z lo <= v)%Q) values ->
  _generate interpolation values = Ok r ->
  lo <= r.
Proof.
  intros [Hw Ht] Hv H.
  pose proof (generate_Ok_in_range _ _ _ H) as Hr.
  rewrite (generate_weighted_sum _ _ Hr) in H. injection H as <-.
  apply py_round_lower.
  pose proof (weighted_sum_lower _ _ _ Hw Hr Hv) as L. rewrite Ht in L. lra.
Qed.

Lemma generate_upper (interpolation : list (nat * Q)) (values : list Q) (hi r : Z) :
  convex interpolation ->
  Forall (fun v => (v <= inject_Z hi)%Q) values ->
  _generate interpolation values = Ok r ->
  r <= hi.
Proof.
  intros [Hw Ht] Hv H.
  pose proof (generate_Ok_in_range _ _ _ H) as Hr.
  rewrite (generate_weighted_sum _ _ Hr) in H. injection H as <-.
  apply py_round_upper.
  pose proof (weighted_sum_upper _ _ _ Hw Hr Hv) as U. rewrite Ht in U. lra.
Qed.

(** ** Advances *)

Section AdvanceBounds.

Variable bounds_size : GSLayer -> option Size.

(** X6. [_advances] gives one advance per master layer of the glyph, in
    the order of [_master_layers]; each is at least 0, and at least 1 when
    [plus_1] is set. *)
Theorem advances_per_master_layer :
  forall (F : Font) (glyph direction : string) (plus_1 : bool) (advances : list Z),
    _advances bounds_size F glyph direction plus_1 = Ok advances ->
    exists g ls,
      glyph_by_name (font F) glyph = Some g /\
      _master_layers F (layers g) = Ok ls /\
      List.length advances = List.length ls /\
      Forall (fun a => (if plus_1 then 1 else 0) <= a) advances.
Proof.
  intros F glyph direction plus_1 advances H.
  assert (Hraw : exists raw, _advances bounds_size F glyph direction false = Ok raw /\
                             advances = if plus_1 then map (fun i => i + 1) raw else raw).
  { destruct plus_1.
    - apply advances_plus_1. exact H.
    - exists advances. split; [exact H | reflexivity]. }
  destruct Hraw as [raw [Hraw ->]].
  destruct (advances_raw _ _ _ _ _ Hraw) as [g [ls [Hg [Hls Hall]]]].
  exists g, ls. split; [exact Hg |]. split; [exact Hls |].
  assert (Hlen : List.length raw = List.length ls).
  { symmetry. eapply Forall2_length. exact Hall. }
  assert (Hnn : Forall (fun a => 0 <= a) raw).
  { clear - Hall. induction Hall as [| l a r r' [size [_ [_ Ha]]] _ IH]; constructor;
      assumption. }
  destruct plus_1.
  - split; [rewrite length_map; exact Hlen |].
    apply Forall_forall. intros a Ha. apply in_map_iff in Ha.
    destruct Ha as [a0 [<- Ha0]]. rewrite Forall_forall in Hnn. specialize (Hnn a0 Ha0). lia.
  - split; [exact Hlen | exact Hnn].
Qed.

(** X7. With weights that are non-negative and sum to one, every advance
    in the variant data of a style is at least 1. *)
Theorem style_variant_advance_positive :
  forall (F : Font) (data : TomlData) (md : MasterData) (style : string)
         (interpolation : list (nat * Q)) (t : MathTable)
         (glyph var : string) (vs : dict Z) (adv : Z),
    fst (_parse_master_math_table bounds_size F data) = Ok md ->
    style_math_table F md style interpolation = Ok t ->
    convex interpolation ->
    dict_get (HorizontalVariants (variants t)) glyph = Some vs \/
    dict_get (VerticalVariants (variants t)) glyph = Some vs ->
    dict_get vs var = Some adv ->
    1 <= adv.
Proof.
  intros F data md style interpolation t glyph var vs adv Hmd Ht Hc Hdir Hadv.
  destruct (parse_master_variants bounds_size F data md Hmd) as [_ [_ [Hh [Hv _]]]].
  destruct (style_math_table_variants F md style interpolation t Ht) as [Sh [Sv _]].
  assert (Hvalues : exists direction values,
             _advances bounds_size F var direction true = Ok values /\
             _generate interpolation (map inject_Z values) = Ok adv).
  { destruct Hdir as [G | G].
    - destruct (variant_lookup _ _ _ _ _ _ _ Sh G Hadv) as [mvs [values [M1 [M2 M3]]]].
      destruct (map_valuesM_In _ _ _ _ _ Hh M1) as [suffixes [_ Hva]].
      exists "H", values. split; [| exact M3]. eapply variant_advances_In; eassumption.
    - destruct (variant_lookup _ _ _ _ _ _ _ Sv G Hadv) as [mvs [values [M1 [M2 M3]]]].
      destruct (map_valuesM_In _ _ _ _ _ Hv M1) as [suffixes [_ Hva]].
      exists "V", values. split; [| exact M3]. eapply variant_advances_In; eassumption. }
  destruct Hvalues as [direction [values [Hvalues Hgen]]].
  destruct (advances_plus_1 _ _ _ _ _ Hvalues) as [raw [Hraw ->]].
  destruct (advances_raw _ _ _ _ _ Hraw) as [g [ls [_ [_ Hall]]]].
  apply (generate_lower interpolation (map inject_Z (map (fun i => i + 1) raw)) 1 adv Hc);
    [| exact Hgen].
  apply Forall_forall. intros q Hq. apply in_map_iff in Hq. destruct Hq as [z [<- Hz]].
  apply in_map_iff in Hz. destruct Hz as [a [<- Ha]].
  assert (Hnn : 0 <= a).
  { clear - Hall Ha. induction Hall as [| l a0 r r' [size [_ [_ Ha0]]] _ IH].
    - contradiction.
    - destruct Ha as [<- | Ha]; [exact Ha0 | apply IH; exact Ha]. }
  rewrite <- Zle_Qle. lia.
Qed.

End AdvanceBounds.

Lemma advances_per_master_layer_witness :
  exists g ls,
    glyph_by_name (font Sample.F) "dot" = Some g /\
    _master_layers Sample.F (layers g) = Ok ls /\
    List.length [11; 12] = List.length ls /\
    Forall (fun a => 1 <= a) [11; 12].
Proof.
  exact (advances_per_master_layer Sample.node_box Sample.F "dot" "H" true [11; 12] eq_refl).
Defined.

Lemma style_variant_advance_positive_witness : 1 <= 12.
Proof.
  apply (style_variant_advance_positive Sample.node_box Sample.F Sample.toml
           Sample.master_data "Regular" Sample.regular Sample.regular_table
           "dot" "dot" [("dot", 12)] 12).
  - reflexivity.
  - reflexivity.
  - split; [repeat constructor; discriminate | reflexivity].
  - left. reflexivity.
  - reflexivity.
Defined.

(** ** Sorting by key *)

Section SortByKey.

Context {K A : Type}.
Variable leb : K -> K -> bool.
Hypothesis leb_total : forall a b, leb a b = false -> leb b a = true.
Hypothesis leb_trans : forall a b c, leb a b = true -> leb b c = true -> leb a c = true.

Lemma insert_by_key_perm (x : K * A) (l : list (K * A)) :
  Permutation (insert_by_key leb x l) (x :: l).
Proof.
  induction l as [| y r IH]; simpl.
  - apply Permutation_refl.
  - destruct (leb (fst x) (fst y)).
    + apply Permutation_refl.
    + apply perm_trans with (y :: x :: r); [apply perm_skip; exact IH | apply perm_swap].
Qed.

Lemma sort_pairs_perm (l : list (K * A)) :
  Permutation (fold_right (insert_by_key leb) [] l) l.
Proof.
  induction l as [| x r IH]; simpl.
  - apply Permutation_refl.
  - apply perm_trans with (x :: fold_right (insert_by_key leb) [] r).
    + apply insert_by_key_perm.
    + apply perm_skip. exact IH.
Qed.

Lemma insert_by_key_sorted (x : K * A) (l : list (K * A)) :
  Sorted (key_le leb) l -> Sorted (key_le leb) (insert_by_key leb x l).
Proof.
  induction 1 as [| y r Hs IH Hhd]; simpl.
  - repeat constructor.
  - destruct (leb (fst x) (fst y)) eqn:E.
    + constructor; [constructor; assumption | constructor; exact E].
    + constructor; [exact IH |].
      destruct r as [| z r']; simpl.
      * constructor. apply leb_total. exact E.
      * destruct (leb (fst x) (fst z)) eqn:E'.
        -- constructor. apply leb_total. exact E.
        -- inversion Hhd; subst. constructor. assumption.
Qed.

Lemma sort_pairs_sorted (l : list (K * A)) :
  StronglySorted (key_le leb) (fold_right (insert_by_key leb) [] l).
Proof.
  apply Sorted_StronglySorted.
  - intros a b c Hab Hbc. unfold key_le in *. eapply leb_trans; eassumption.
  - induction l as [| x r IH]; simpl; [constructor | apply insert_by_key_sorted; exact IH].
Qed.

(** Sorting values by a key computed from them. *)
Lemma sort_by_key_spec (key : A -> K) (xs : list A) :
  Permutation (sort_by_key leb (map (fun a => (key a, a)) xs)) xs /\
  StronglySorted (fun a b => leb (key a) (key b) = true)
                 (sort_by_key leb (map (fun a => (key a, a)) xs)).
Proof.
  unfold sort_by_key.
  set (l := map (fun a => (key a, a)) xs).
  pose proof (sort_pairs_perm l) as P. pose proof (sort_pairs_sorted l) as S.
  split.
  - apply perm_trans with (map snd l).
    + apply Permutation_map. exact P.
    + unfold l. rewrite map_map. simpl. rewrite map_id. apply Permutation_refl.
  - assert (Hkey : forall p, In p (fold_right (insert_by_key leb) [] l) -> fst p = key (snd p)).
    { intros p Hp. apply (Permutation_in _ P) in Hp. unfold l in Hp.
      apply in_map_iff in Hp. destruct Hp as [a [<- _]]. reflexivity. }
    clear P. revert Hkey. induction S as [| p r Sr IH Hp]; intros Hkey; simpl.
    + constructor.
    + constructor.
      * apply IH. intros q Hq. apply Hkey. right. exact Hq.
      * rewrite Forall_forall in Hp. apply Forall_forall. intros b Hb.
        apply in_map_iff in Hb. destruct Hb as [q [<- Hq]].
        rewrite <- (Hkey p (or_introl eq_refl)), <- (Hkey q (or_intror Hq)).
        apply Hp. exact Hq.
Qed.

End SortByKey.

Lemma mapM_keyed {A K : Type} (f : A -> result K) (key : A -> K) (l : list A)
    (keyed : list (K * A)) :
  (forall x k, f x = Ok k -> k = key x) ->
  mapM (fun x => k <- f x ;; Ok (k, x)) l = Ok keyed ->
  keyed = map (fun x => (key x, x)) l.
Proof.
  intros Hkey H. apply mapM_Ok_Forall2 in H.
  induction H as [| x kx r r' Hxy _ IH]; simpl.
  - reflexivity.
  - inv_bind Hxy. injection Hxy as <-. rewrite (Hkey x a Ha), IH. reflexivity.
Qed.

Lemma StronglySorted_weaken {A : Type} (R R' : A -> A -> Prop) (l : list A) :
  (forall a b, R a b -> R' a b) -> StronglySorted R l -> StronglySorted R' l.
Proof.
  intros HR. induction 1 as [| a r S IH Ha]; constructor.
  - exact IH.
  - eapply Forall_impl; [| exact Ha]. intros b. apply HR.
Qed.

(** X8. [_master_layers] either raises [KeyError], because some layer that
    is its own master has no master index, or returns exactly the layers
    that are their own master, ordered by master index. *)
Theorem master_layers_sorted_or_KeyError :
  forall (F : Font) (ls : list GSLayer),
    (exists r,
        _master_layers F ls = Ok r /\
        Permutation r (filter is_master_layer ls) /\
        StronglySorted (fun a b => (master_index F a <= master_index F b)%nat) r /\
        Forall (fun l => dict_get (_master_id_indices F) (associatedMasterId l)
                         = Some (master_index F l)) r)
    \/
    (_master_layers F ls = Raise KeyError /\
     exists l, In l ls /\ is_master_layer l = true /\
               dict_get (_master_id_indices F) (associatedMasterId l) = None).
Proof.
  intros F ls. unfold _master_layers.
  fold is_master_layer.
  change (filter (fun l => String.eqb (associatedMasterId l) (layerId l)) ls)
    with (filter is_master_layer ls).
  destruct (mapM (fun l => k <- dict_item (_master_id_indices F) (associatedMasterId l) ;;
                           Ok (k, l)) (filter is_master_layer ls)) as [keyed | e] eqn:M.
  - left. simpl. eexists. split; [reflexivity |].
    assert (Hk : keyed = map (fun l => (master_index F l, l)) (filter is_master_layer ls)).
    { refine (mapM_keyed _ _ _ _ _ M). intros x k H.
      unfold dict_item, master_index in *.
      destruct (dict_get (_master_id_indices F) (associatedMasterId x)); [| discriminate H].
      injection H as <-. reflexivity. }
    destruct (sort_by_key_spec Nat.leb
                (fun a b H => proj2 (Nat.leb_le _ _)
                                (Nat.lt_le_incl _ _ (proj1 (Nat.leb_gt _ _) H)))
                (fun a b c H1 H2 => proj2 (Nat.leb_le _ _)
                                      (Nat.le_trans _ _ _ (proj1 (Nat.leb_le _ _) H1)
                                                    (proj1 (Nat.leb_le _ _) H2)))
                (master_index F) (filter is_master_layer ls)) as [P S].
    rewrite Hk. split; [exact P |]. split.
    + eapply StronglySorted_weaken; [| exact S].
      intros a b H. apply Nat.leb_le. exact H.
    + apply Forall_forall. intros l Hl. apply (Permutation_in _ P) in Hl.
      apply mapM_Ok_Forall2 in M. clear Hk P S.
      induction M as [| x kx r r' Hxy _ IH]; [contradiction |].
      simpl in Hl. destruct Hl as [<- | Hl]; [| apply IH; exact Hl].
      inv_bind Hxy. unfold dict_item, master_index in *.
      destruct (dict_get (_master_id_indices F) (associatedMasterId x)); [reflexivity |].
      discriminate Ha.
  - right. simpl. destruct (mapM_Raise _ _ _ M) as [l [Hl Hf]].
    apply filter_In in Hl. destruct Hl as [Hin Hm].
    unfold dict_item in Hf.
    destruct (dict_get (_master_id_indices F) (associatedMasterId l)) eqn:G;
      simpl in Hf; [discriminate Hf |].
    injection Hf as <-. split; [reflexivity |].
    exists l. repeat split; assumption.
Qed.

(** ** [Font.__init__] *)

Lemma In_combine_seq {A : Type} (l : list A) (s i : nat) (x : A) :
  In (i, x) (combine (seq s (List.length l)) l)
  <-> (s <= i)%nat /\ nth_error l (i - s) = Some x.
Proof.
  revert s. induction l as [| y r IH]; intros s; simpl.
  - split; [contradiction | intros [_ H]; destruct (i - s)%nat; discriminate H].
  - rewrite IH. split.
    + intros [E | [Hle Hn]].
      * injection E as -> ->. split; [lia |]. rewrite Nat.sub_diag. reflexivity.
      * split; [lia |]. replace (i - s)%nat with (S (i - S s)) by lia. exact Hn.
    + intros [Hle Hn]. destruct (Nat.eq_dec s i) as [-> | Hne].
      * left. rewrite Nat.sub_diag in Hn. simpl in Hn. injection Hn as ->. reflexivity.
      * right. split; [lia |]. replace (i - s)%nat with (S (i - S s)) in Hn by lia.
        exact Hn.
Qed.

Lemma In_enumerate {A : Type} (l : list A) (i : nat) (x : A) :
  In (i, x) (enumerate l) <-> nth_error l i = Some x.
Proof.
  unfold enumerate. rewrite In_combine_seq, Nat.sub_0_r. split; [intros [_ H]; exact H |].
  intros H. split; [lia | exact H].
Qed.

Lemma StronglySorted_nth {A : Type} (R : A -> A -> Prop) (l : list A) :
  StronglySorted R l ->
  forall i j a b, (i < j)%nat -> nth_error l i = Some a -> nth_error l j = Some b -> R a b.
Proof.
  induction 1 as [| x r S IH Hx]; intros i j a b Hij Hi Hj.
  - destruct i; discriminate Hi.
  - destruct j as [| j]; [lia |]. simpl in Hj. destruct i as [| i]; simpl in Hi.
    + injection Hi as <-. rewrite Forall_forall in Hx. apply Hx.
      eapply nth_error_In. exact Hj.
    + apply (IH i j); [lia | assumption | assumption].
Qed.

Lemma next_where_found {A : Type} (p : A -> bool) (l : list A) (x : A) :
  In x l -> p x = true ->
  exists y, next_where (fun a => Ok (p a)) l = Ok y /\ p y = true /\ In y l.
Proof.
  induction l as [| z r IH]; simpl; intros Hin Hp.
  - contradiction.
  - destruct (p z) eqn:E.
    + exists z. split; [reflexivity |]. split; [exact E | left; reflexivity].
    + destruct Hin as [-> | Hin]; [congruence |].
      destruct (IH Hin Hp) as [y [Hy [Hpy Hiny]]].
      exists y. split; [exact Hy |]. split; [exact Hpy | right; exact Hiny].
Qed.

Lemma Qle_bool_total (a b : Q) : Qle_bool a b = false -> Qle_bool b a = true.
Proof.
  intros H. apply Qle_bool_iff. destruct (Qlt_le_dec b a) as [L | L].
  - apply Qlt_le_weak. exact L.
  - apply Qle_bool_iff in L. congruence.
Qed.

Lemma Qle_bool_trans (a b c : Q) :
  Qle_bool a b = true -> Qle_bool b c = true -> Qle_bool a c = true.
Proof.
  rewrite !Qle_bool_iff. apply Qle_trans.
Qed.

Section Init.

Variable applyTransform : Transform -> GSPath -> GSPath.

Lemma decompose_smart_comp_frame (f f' : GSFont) :
  _decompose_smart_comp applyTransform f = Ok f' -> decomposed_from f f'.
Proof.
  intros H. unfold _decompose_smart_comp in H. inv_bind H.
  apply (two_passes f a f').
  - apply (decompose_pass_spec _ _ _ (expand_in_smart_glyph_ok applyTransform)); [| exact Ha].
    intros c c' _. reflexivity.
  - apply (decompose_pass_spec _ _ _ (expand_in_plain_glyph_ok applyTransform)); [| exact H].
    apply comp_eqb_has_values.
Qed.

(** X9. A font object built by [__init__] has one index below
    [_masters_num] for every master, in the order of the master weights;
    every style comes from an instance of that name, and every master index
    of its interpolation vector is below [_masters_num]; the glyphs are
    decomposed. *)
Theorem font_init_invariants :
  forall (gsfont : GSFont) (F : Font),
    Font_init applyTransform gsfont = Ok F ->
    _masters_num F = List.length (masters gsfont) /\
    (forall m, In m (masters gsfont) ->
               exists i, dict_get (_master_id_indices F) (master_id m) = Some i) /\
    (forall id i,
        dict_get (_master_id_indices F) id = Some i ->
        (i < _masters_num F)%nat /\
        exists m, In m (masters gsfont) /\ master_id m = id) /\
    (forall id1 id2 i1 i2,
        dict_get (_master_id_indices F) id1 = Some i1 ->
        dict_get (_master_id_indices F) id2 = Some i2 ->
        (i1 < i2)%nat ->
        exists m1 m2, In m1 (masters gsfont) /\ In m2 (masters gsfont) /\
                      master_id m1 = id1 /\ master_id m2 = id2 /\
                      (weightValue m1 <= weightValue m2)%Q) /\
    (forall style interpolation,
        dict_get (interpolations F) style = Some interpolation ->
        indices_in_range interpolation (_masters_num F) /\
        exists instance,
          next_where (fun i => Ok (String.eqb (instance_name i) style)) (instances (font F))
          = Ok instance) /\
    font_decomposed (font F).
Proof.
  intros gsfont F H. unfold Font_init in H.
  set (sm := sort_by_key Qle_bool (map (fun m => (weightValue m, m)) (masters gsfont))) in *.
  set (idx := dict_of_items (map (fun im => (master_id (snd im), fst im)) (enumerate sm))) in *.
  inv_bind H. rename a into interps. rename Ha into Hint.
  inv_bind H. rename a into decomposed. rename Ha into Hdec.
  injection H as <-. simpl.
  destruct (sort_by_key_spec Qle_bool Qle_bool_total Qle_bool_trans weightValue (masters gsfont))
    as [P S]. fold sm in P, S.
  assert (Hlen : List.length sm = List.length (masters gsfont))
    by (apply Permutation_length; exact P).
  assert (Hidx : forall id i, dict_get idx id = Some i ->
                              exists m, nth_error sm i = Some m /\ master_id m = id).
  { intros id i G. unfold idx in G. rewrite dict_get_of_items in G.
    apply dict_get_In in G. apply in_rev in G. apply in_map_iff in G.
    destruct G as [[i' m] [E Hin]]. simpl in E. injection E as <- <-.
    apply In_enumerate in Hin. exists m. split; [exact Hin | reflexivity]. }
  assert (Hlt : forall id i, dict_get idx id = Some i -> (i < List.length sm)%nat).
  { intros id i G. destruct (Hidx id i G) as [m [Hn _]].
    apply nth_error_Some. congruence. }
  split; [exact Hlen |]. split; [| split; [| split; [| split]]].
  - intros m Hm. apply (Permutation_in _ (Permutation_sym P)) in Hm.
    destruct (In_nth_error _ _ Hm) as [i Hi].
    apply dict_get_keys. unfold idx. apply dict_keys_of_items.
    unfold dict_keys. rewrite map_map. simpl. apply in_map_iff.
    exists (i, m). split; [reflexivity | apply In_enumerate; exact Hi].
  - intros id i G. split; [apply (Hlt id i G) |].
    destruct (Hidx id i G) as [m [Hn Hid]]. exists m. split; [| exact Hid].
    apply (Permutation_in _ P). eapply nth_error_In. exact Hn.
  - intros id1 id2 i1 i2 G1 G2 Hlt12.
    destruct (Hidx id1 i1 G1) as [m1 [Hn1 Hid1]].
    destruct (Hidx id2 i2 G2) as [m2 [Hn2 Hid2]].
    exists m1, m2. repeat split; try assumption.
    + apply (Permutation_in _ P). eapply nth_error_In. exact Hn1.
    + apply (Permutation_in _ P). eapply nth_error_In. exact Hn2.
    + apply Qle_bool_iff. apply (StronglySorted_nth _ _ S i1 i2); assumption.
  - intros style interpolation G. rewrite dict_get_of_items in G.
    apply dict_get_In in G. apply in_rev in G.
    destruct (mapM_In _ _ _ _ Hint G) as [ins [Hins Hf]].
    inv_bind Hf. injection Hf as <- <-.
    apply filter_In in Hins. destruct Hins as [Hins _].
    split.
    + apply mapM_Ok_Forall2 in Ha. unfold indices_in_range.
      clear - Ha Hlt. induction Ha as [| kv iw r r' Hxy _ IH]; constructor; [| exact IH].
      inv_bind Hxy. injection Hxy as <-. simpl.
      unfold dict_item in Ha. destruct (dict_get idx (fst kv)) as [i |] eqn:G;
        [| discriminate Ha].
      injection Ha as <-. apply (Hlt _ _ G).
    + destruct (decompose_smart_comp_frame _ _ Hdec) as [_ [Hinst _]]. rewrite Hinst.
      destruct (next_where_found (fun i => String.eqb (instance_name i) (instance_name ins))
                  (instances gsfont) ins Hins (String.eqb_refl _)) as [y [Hy _]].
      exists y. exact Hy.
  - apply (decomposed_from_decomposed gsfont). apply decompose_smart_comp_frame. exact Hdec.
Qed.

End Init.

Lemma font_init_invariants_witness :
  _masters_num Sample.F = List.length (masters Sample.gsfont) /\
  (forall m, In m (masters Sample.gsfont) ->
             exists i, dict_get (_master_id_indices Sample.F) (master_id m) = Some i) /\
  (forall id i,
      dict_get (_master_id_indices Sample.F) id = Some i ->
      (i < _masters_num Sample.F)%nat /\
      exists m, In m (masters Sample.gsfont) /\ master_id m = id) /\
  (forall id1 id2 i1 i2,
      dict_get (_master_id_indices Sample.F) id1 = Some i1 ->
      dict_get (_master_id_indices Sample.F) id2 = Some i2 ->
      (i1 < i2)%nat ->
      exists m1 m2, In m1 (masters Sample.gsfont) /\ In m2 (masters Sample.gsfont) /\
                    master_id m1 = id1 /\ master_id m2 = id2 /\
                    (weightValue m1 <= weightValue m2)%Q) /\
  (forall style interpolation,
      dict_get (interpolations Sample.F) style = Some interpolation ->
      indices_in_range interpolation (_masters_num Sample.F) /\
      exists instance,
        next_where (fun i => Ok (String.eqb (instance_name i) style))
                   (instances (font Sample.F))
        = Ok instance) /\
  font_decomposed (font Sample.F).
Proof.
  exact (font_init_invariants Sample.affine Sample.gsfont Sample.F eq_refl).
Defined.

(** ** Recorded user data *)

Lemma layer_user_data_length (name : string) (layer : GSLayer) :
  (List.length (layer_user_data name layer) <= 1)%nat.
Proof.
  unfold layer_user_data. destruct (find (has_key name) (userData layer)) as [d |]; [| simpl; lia].
  destruct (dict_get d name); simpl; lia.
Qed.

Lemma flat_map_length_le {A B : Type} (f : A -> list B) (l : list A) :
  (forall x, List.length (f x) <= 1)%nat ->
  (List.length (flat_map f l) <= List.length l)%nat.
Proof.
  intros H. induction l as [| x r IH]; simpl; [lia |].
  rewrite length_app. specialize (H x). lia.
Qed.

(** X10. The recorded values [_get_all_user_data] returns are keyed by
    distinct glyph names; each key is the name of an exported glyph, its
    list is what [_get_user_data] gives for that glyph under the
    uncapitalised name, it is not empty and has at most one value per
    master layer. *)
Theorem all_user_data_entries :
  forall (F : Font) (name : string) (mapping : dict (list Q)),
    _get_all_user_data F name = Ok mapping ->
    NoDup (dict_keys mapping) /\
    forall glyph values,
      In (glyph, values) mapping ->
      values <> [] /\
      exists g name' ls,
        In g (glyphs (font F)) /\ export g = true /\ glyph_name g = glyph /\
        uncapitalize name = Ok name' /\
        _get_user_data F g name' = Ok values /\
        _master_layers F (layers g) = Ok ls /\
        (List.length values <= List.length ls)%nat.
Proof.
  intros F name mapping H.
  split; [eapply get_all_user_data_NoDup; exact H |].
  intros glyph values Hin.
  split; [eapply get_all_user_data_nonempty; eassumption |].
  unfold _get_all_user_data in H. inv_bind H. rename a into name'. rename Ha into Hunc.
  assert (Inv : forall gs m0 m,
             (forall g, In g gs -> In g (glyphs (font F)) /\ export g = true) ->
             foldM (fun mappings glyph =>
                      values <- _get_user_data F glyph name' ;;
                      match values with
                      | [] => Ok mappings
                      | _ :: _ => Ok (dict_set mappings (glyph_name glyph) values)
                      end) gs m0 = Ok m ->
             forall k v, In (k, v) m ->
                         In (k, v) m0 \/
                         exists g, In g (glyphs (font F)) /\ export g = true /\
                                   glyph_name g = k /\ _get_user_data F g name' = Ok v).
  { induction gs as [| g r IH]; simpl; intros m0 m Hgs Hm k v Hkv.
    - injection Hm as <-. left. exact Hkv.
    - inv_bind Hm. rename a into m1. inv_bind Ha. rename a into vals.
      destruct (IH _ _ (fun g' Hg' => Hgs g' (or_intror Hg')) Hm k v Hkv) as [Hin0 | Hex];
        [| right; exact Hex].
      destruct vals as [| v0 vs]; injection Ha as <-.
      + left. exact Hin0.
      + apply In_dict_set in Hin0. destruct Hin0 as [E | Hin0]; [| left; exact Hin0].
        injection E as -> ->. right. exists g.
        destruct (Hgs g (or_introl eq_refl)) as [Hg He].
        repeat split; assumption. }
  destruct (Inv _ _ _ (fun g Hg => proj1 (filter_In _ _ _) Hg) H glyph values Hin)
    as [[] | [g [Hg [He [Hn Hu]]]]].
  pose proof Hu as Hu'. unfold _get_user_data in Hu'. inv_bind Hu'. injection Hu' as <-.
  exists g, name', a. repeat split; try assumption.
  apply flat_map_length_le. intros l. apply layer_user_data_length.
Qed.

Lemma all_user_data_entries_witness :
  NoDup (dict_keys [("x", [40%Q])]) /\
  forall glyph values,
    In (glyph, values) [("x", [40%Q])] ->
    values <> [] /\
    exists g name' ls,
      In g (glyphs (font Sample.F3)) /\ export g = true /\ glyph_name g = glyph /\
      uncapitalize "ItalicCorrection" = Ok name' /\
      _get_user_data Sample.F3 g name' = Ok values /\
      _master_layers Sample.F3 (layers g) = Ok ls /\
      (List.length values <= List.length ls)%nat.
Proof.
  exact (all_user_data_entries Sample.F3 "ItalicCorrection" [("x", [40%Q])] eq_refl).
Defined.

(** ** Diagnostics and the entries of the TOML table *)

Lemma warnings_of_incomplete (F : Font) (name : string) (item : string * list Q)
    (w : Warning) :
  In w (warnings_of F name item) ->
  w = mkWarning (fst item) name (snd item) /\
  List.length (snd item) <> _masters_num F.
Proof.
  unfold warnings_of. destruct (Nat.eqb (List.length (snd item)) (_masters_num F)) eqn:E.
  - contradiction.
  - intros [<- | []]. split; [reflexivity |]. apply Nat.eqb_neq. exact E.
Qed.

Lemma glyph_info_names_log (F : Font) (names : list string) :
  forall (gi gi' : dict GlyphInfoEntry) (log : list Warning),
    lfoldM (glyph_info_name F) names gi = (Ok gi', log) ->
    log = flat_map (warnings_of_name F) names /\
    Forall (fun name => exists mapping, _get_all_user_data F name = Ok mapping) names.
Proof.
  induction names as [| n0 rest IH]; intros gi gi' log H.
  - simpl in H. unfold lift in H. injection H as <- <-. split; [reflexivity | constructor].
  - simpl in H. apply lbind_inv in H. destruct H as [gi1 [l1 [l2 [Hstep [Hrest ->]]]]].
    destruct (glyph_info_name_step F n0 gi gi1 l1 Hstep) as [m0 [Hm0 [-> _]]].
    destruct (IH _ _ _ Hrest) as [-> Hall].
    split.
    + simpl. unfold warnings_of_name at 2. rewrite Hm0. reflexivity.
    + constructor; [exists m0; exact Hm0 | exact Hall].
Qed.

(** X11. When parsing the glyph-info table succeeds, the diagnostics it
    printed are exactly those of the incomplete records, name by name and
    glyph by glyph in iteration order: no diagnostic is printed for a glyph
    with one value per master. *)
Theorem diagnostics_are_the_incomplete_records :
  forall (F : Font) (glyph_info gi' : dict GlyphInfoEntry) (log : list Warning),
    parse_glyph_info F glyph_info = (Ok gi', log) ->
    log = flat_map (warnings_of_name F) (dict_keys glyph_info) /\
    forall w,
      In w log ->
      List.length (w_values w) <> _masters_num F /\
      w_values w <> [] /\
      In (w_name w) (dict_keys glyph_info) /\
      exists mapping,
        _get_all_user_data F (w_name w) = Ok mapping /\
        In (w_glyph w, w_values w) mapping.
Proof.
  intros F glyph_info gi' log H. unfold parse_glyph_info in H.
  destruct (glyph_info_names_log F _ _ _ _ H) as [-> Hall].
  split; [reflexivity |].
  intros w Hw. apply in_flat_map in Hw. destruct Hw as [name [Hname Hw]].
  rewrite Forall_forall in Hall. destruct (Hall name Hname) as [mapping Hm].
  unfold warnings_of_name in Hw. rewrite Hm in Hw.
  apply in_flat_map in Hw. destruct Hw as [item [Hitem Hw]].
  destruct (warnings_of_incomplete F name item w Hw) as [-> Hlen]. simpl.
  split; [exact Hlen |]. split; [| split; [exact Hname |]].
  - destruct item as [g vs]. simpl. eapply get_all_user_data_nonempty; eassumption.
  - exists mapping. split; [exact Hm |]. destruct item. exact Hitem.
Qed.

Lemma diagnostics_are_the_incomplete_records_witness :
  [mkWarning "x" "ItalicCorrection" [40%Q]]
  = flat_map (warnings_of_name Sample.F3) ["ItalicCorrection"; "ExtendedShapes"] /\
  forall w,
    In w [mkWarning "x" "ItalicCorrection" [40%Q]] ->
    List.length (w_values w) <> 3%nat /\
    w_values w <> [] /\
    In (w_name w) ["ItalicCorrection"; "ExtendedShapes"] /\
    exists mapping,
      _get_all_user_data Sample.F3 (w_name w) = Ok mapping /\
      In (w_glyph w, w_values w) mapping.
Proof.
  exact (diagnostics_are_the_incomplete_records Sample.F3
           [("ItalicCorrection", GIValues []); ("ExtendedShapes", GIList [])]
           [("ItalicCorrection", GIValues [("x", [40%Q; 40%Q; 40%Q])]);
            ("ExtendedShapes", GIList [])]
           [mkWarning "x" "ItalicCorrection" [40%Q]] eq_refl).
Defined.

Lemma dict_keys_set_existing {V : Type} (d : dict V) (k : string) (v0 v : V) :
  dict_get d k = Some v0 -> dict_keys (dict_set d k v) = dict_keys d.
Proof.
  unfold dict_keys. induction d as [| [k' v'] r IH]; simpl; intros H.
  - discriminate H.
  - destruct (String.eqb k' k) eqn:E; simpl; [reflexivity |].
    rewrite (IH H). reflexivity.
Qed.

Lemma glyph_info_glyphs_keys (F : Font) (name : string) (mapping : dict (list Q)) :
  forall (gi gi' : dict GlyphInfoEntry) (log : list Warning),
    lfoldM (glyph_info_glyph F name) mapping gi = (Ok gi', log) ->
    dict_keys gi' = dict_keys gi.
Proof.
  induction mapping as [| item rest IH]; intros gi gi' log H.
  - simpl in H. unfold lift in H. injection H as <- _. reflexivity.
  - simpl in H. apply lbind_inv in H. destruct H as [gi1 [l1 [l2 [Hstep [Hrest _]]]]].
    apply glyph_info_glyph_step in Hstep. destruct Hstep as [_ [d0 [G0 ->]]].
    rewrite (IH _ _ _ Hrest). eapply dict_keys_set_existing. exact G0.
Qed.

Lemma broadcast_fold_other (F : Font) (mapping : dict (list Q)) (g : string) :
  dict_get mapping g = None ->
  forall d,
    dict_get (fold_left (fun d item => dict_set d (fst item) (broadcast F (snd item)))
                        mapping d) g
    = dict_get d g.
Proof.
  induction mapping as [| [k v] r IH]; simpl; intros H d.
  - reflexivity.
  - destruct (String.eqb k g) eqn:E; [discriminate H |].
    rewrite (IH H). apply dict_get_set_other. apply String.eqb_neq. exact E.
Qed.

Lemma entry_kept_refl (F : Font) (name : string) (e : GlyphInfoEntry) :
  entry_kept F name e e.
Proof.
  destruct e as [d | l]; simpl; [| reflexivity].
  exists d. split; [reflexivity | intros g _; reflexivity].
Qed.

(** One name of the outer loop leaves the keys and keeps every entry. *)
Lemma glyph_info_name_keeps (F : Font) (n0 : string) (gi gi1 : dict GlyphInfoEntry)
    (log : list Warning) :
  glyph_info_name F gi n0 = (Ok gi1, log) ->
  dict_keys gi1 = dict_keys gi /\
  forall name e, dict_get gi name = Some e ->
                 exists e', dict_get gi1 name = Some e' /\ entry_kept F name e e'.
Proof.
  unfold glyph_info_name. intros H.
  apply lbind_inv in H. destruct H as [mapping [l1 [l2 [Hm [Hloop _]]]]].
  unfold lift in Hm. injection Hm as Hm _.
  split; [eapply glyph_info_glyphs_keys; exact Hloop |].
  destruct (glyph_info_glyphs_loop F n0 mapping _ _ _ Hloop) as [_ [Hother [Hex Hname]]].
  intros name e G. destruct (string_dec name n0) as [-> | Hne].
  - destruct e as [d | l].
    + eexists. split; [apply Hname; exact G |]. simpl. eexists. split; [reflexivity |].
      intros g Hg. apply broadcast_fold_other. apply Hg. exact Hm.
    + destruct mapping as [| item rest].
      * simpl in Hloop. unfold lift in Hloop. injection Hloop as <- _.
        exists (GIList l). split; [exact G | reflexivity].
      * destruct Hex as [d Hd]; [discriminate |]. rewrite G in Hd. discriminate Hd.
  - exists e. split; [rewrite (Hother name Hne); exact G | apply entry_kept_refl].
Qed.

Lemma entry_kept_trans (F : Font) (name : string) (e1 e2 e3 : GlyphInfoEntry) :
  entry_kept F name e1 e2 -> entry_kept F name e2 e3 -> entry_kept F name e1 e3.
Proof.
  destruct e1 as [d1 | l1]; simpl.
  - intros [d2 [-> H12]] [d3 [-> H23]]. exists d3. split; [reflexivity |].
    intros g Hg. rewrite (H23 g Hg). apply H12. exact Hg.
  - intros -> H. exact H.
Qed.

Lemma parse_glyph_info_keeps (F : Font) (glyph_info gi' : dict GlyphInfoEntry)
    (log : list Warning) :
  parse_glyph_info F glyph_info = (Ok gi', log) ->
  dict_keys gi' = dict_keys glyph_info /\
  forall name e,
    dict_get glyph_info name = Some e ->
    exists e', dict_get gi' name = Some e' /\ entry_kept F name e e'.
Proof.
  revert glyph_info gi' log.
  intros glyph_info gi' log. unfold parse_glyph_info.
  generalize (dict_keys glyph_info) at 1. intros names. revert glyph_info gi' log.
  induction names as [| n0 rest IH]; intros gi gi' log H.
  - simpl in H. unfold lift in H. injection H as <- _.
    split; [reflexivity |]. intros name e G. exists e. split; [exact G | apply entry_kept_refl].
  - simpl in H. apply lbind_inv in H. destruct H as [gi1 [l1 [l2 [Hstep [Hrest _]]]]].
    destruct (glyph_info_name_keeps F n0 gi gi1 l1 Hstep) as [K1 E1].
    destruct (IH _ _ _ Hrest) as [K2 E2].
    split; [congruence |].
    intros name e G. destruct (E1 name e G) as [e1 [G1 R1]].
    destruct (E2 name e1 G1) as [e2 [G2 R2]].
    exists e2. split; [exact G2 | eapply entry_kept_trans; eassumption].
Qed.

(** X12. Parsing the glyph-info table keeps its names in their order; a
    list entry ([ExtendedShapes]) is kept as it is, and in a value table the
    entries of the glyphs without recorded values are those of the TOML
    document: they are neither changed nor checked. *)
Theorem toml_glyph_info_entries_survive :
  forall (F : Font) (glyph_info gi' : dict GlyphInfoEntry) (log : list Warning),
    parse_glyph_info F glyph_info = (Ok gi', log) ->
    dict_keys gi' = dict_keys glyph_info /\
    forall name e,
      dict_get glyph_info name = Some e ->
      exists e', dict_get gi' name = Some e' /\ entry_kept F name e e'.
Proof.
  intros F glyph_info gi' log H. apply (parse_glyph_info_keeps F glyph_info gi' log H).
Qed.

Lemma toml_glyph_info_entries_survive_witness :
  dict_keys [("ItalicCorrection", GIValues [("y", [1%Q]); ("x", [40%Q; 40%Q; 40%Q])]);
             ("ExtendedShapes", GIList ["x"])]
  = dict_keys [("ItalicCorrection", GIValues [("y", [1%Q]); ("x", [7%Q])]);
               ("ExtendedShapes", GIList ["x"])] /\
  forall name e,
    dict_get [("ItalicCorrection", GIValues [("y", [1%Q]); ("x", [7%Q])]);
              ("ExtendedShapes", GIList ["x"])] name = Some e ->
    exists e',
      dict_get [("ItalicCorrection", GIValues [("y", [1%Q]); ("x", [40%Q; 40%Q; 40%Q])]);
                ("ExtendedShapes", GIList ["x"])] name = Some e' /\
      entry_kept Sample.F3 name e e'.
Proof.
  exact (toml_glyph_info_entries_survive Sample.F3
           [("ItalicCorrection", GIValues [("y", [1%Q]); ("x", [7%Q])]);
            ("ExtendedShapes", GIList ["x"])]
           [("ItalicCorrection", GIValues [("y", [1%Q]); ("x", [40%Q; 40%Q; 40%Q])]);
            ("ExtendedShapes", GIList ["x"])]
           [mkWarning "x" "ItalicCorrection" [40%Q]] eq_refl).
Defined.

(** ** From the TOML assembly to the encoded assembly *)

Section AssemblyStructure.

Variable bounds_size : GSLayer -> option Size.

(** X13. The parts of a TOML assembly reach the encoded glyph assembly one
    to one and in order: as many part records as TOML parts, each with the
    glyph name and the flag of its part, and the italic correction of the
    TOML entry in a value record without device table. *)
Theorem assembly_parts_preserved :
  forall (F : Font) (direction : string) (value : TomlComponent) (mc : MasterComponent)
         (interpolation : list (nat * Q)) (c : Component),
    master_component bounds_size F direction value = Ok mc ->
    style_component interpolation mc = Ok c ->
    PartCount (_glyph_assembly c) = List.length (tc_parts value) /\
    map part_glyph (PartRecords (_glyph_assembly c)) = map tp_name (tc_parts value) /\
    map PartFlags (PartRecords (_glyph_assembly c))
    = map (fun p => if tp_isExtender p then 0x0001 else 0xFFFE) (tc_parts value) /\
    ItalicsCorrection (_glyph_assembly c)
    = mkMathValueRecord None (tc_italicsCorrection value).
Proof.
  intros F direction value mc interpolation c Hm Hs.
  unfold master_component in Hm. inv_bind Hm. rename a into mps. injection Hm as <-.
  unfold style_component in Hs. simpl in Hs. inv_bind Hs. rename a into ps.
  injection Hs as <-.
  apply mapM_Ok_Forall2 in Ha. apply mapM_Ok_Forall2 in Ha0.
  assert (Hall : Forall2 (fun tp p => p_name p = tp_name tp /\ isExtender p = tp_isExtender tp)
                         (tc_parts value) ps).
  { revert ps Ha0. induction Ha as [| tp mp r r' Hxy _ IH]; intros ps Hps;
      inversion Hps as [| ? p ? ps' Hp Hps']; subst; constructor.
    - inv_bind Hxy. injection Hxy as <-.
      destruct (style_part_isExtender _ _ _ _ Hp) as [E N]. split; assumption.
    - apply IH. exact Hps'. }
  unfold _glyph_assembly, _math_value. simpl. rewrite !map_map. simpl.
  split; [symmetry; eapply Forall2_length; exact Hall |].
  split; [| split; [| reflexivity]].
  - clear - Hall. induction Hall as [| tp p r r' [N _] _ IH]; simpl; [reflexivity |].
    rewrite N, IH. reflexivity.
  - clear - Hall. induction Hall as [| tp p r r' [_ E] _ IH]; simpl; [reflexivity |].
    rewrite E, IH. reflexivity.
Qed.

End AssemblyStructure.

Lemma assembly_parts_preserved_witness :
  PartCount (_glyph_assembly
               (mkStyleComponent 3 [mkPart "dot" true 3 4 11; mkPart "i" false 2 2 150]))
  = 2%nat /\
  map part_glyph
      (PartRecords (_glyph_assembly
                      (mkStyleComponent 3 [mkPart "dot" true 3 4 11; mkPart "i" false 2 2 150])))
  = ["dot"; "i"] /\
  map PartFlags
      (PartRecords (_glyph_assembly
                      (mkStyleComponent 3 [mkPart "dot" true 3 4 11; mkPart "i" false 2 2 150])))
  = [0x0001; 0xFFFE] /\
  ItalicsCorrection
    (_glyph_assembly (mkStyleComponent 3 [mkPart "dot" true 3 4 11; mkPart "i" false 2 2 150]))
  = mkMathValueRecord None 3.
Proof.
  exact (assembly_parts_preserved Sample.node_box Sample.F "V"
           (mkTomlComponent 3 [mkTomlPart "dot" true; mkTomlPart "i" false])
           (mkMasterComponent 3
              [mkMasterPart "dot" true [2%Q; 4%Q] [3%Q; 6%Q] [10; 12];
               mkMasterPart "i" false [1%Q; 2%Q] [1%Q; 2%Q] [150; 150]])
           Sample.regular
           (mkStyleComponent 3 [mkPart "dot" true 3 4 11; mkPart "i" false 2 2 150])
           eq_refl eq_refl).
Defined.

(** ** The encoder *)

Lemma part_record_injective (p q : Part) :
  mkPartRecord (p_name p) (startConnector p) (endConnector p) (fullAdvance p)
    (if isExtender p then 0x0001 else 0xFFFE)
  = mkPartRecord (p_name q) (startConnector q) (endConnector q) (fullAdvance q)
      (if isExtender q then 0x0001 else 0xFFFE) ->
  p = q.
Proof.
  destruct p as [n e s ec fa], q as [n' e' s' ec' fa']. simpl.
  intros H. injection H as -> -> -> -> Hf.
  destruct e, e'; try reflexivity; discriminate Hf.
Qed.

Lemma map_injective {A B : Type} (f : A -> B) (l l' : list A) :
  (forall a b, f a = f b -> a = b) -> map f l = map f l' -> l = l'.
Proof.
  intros Hinj. revert l'. induction l as [| x r IH]; intros [| y r'] H; simpl in H;
    try reflexivity; try discriminate H.
  injection H as Hxy Hr. rewrite (Hinj _ _ Hxy), (IH _ Hr). reflexivity.
Qed.

(** X14. Encoding loses nothing of a component or of a variant list: two
    components with the same glyph assembly are equal (the two flag values
    tell extenders apart), and two variant lists with the same glyph
    construction are equal. *)
Theorem assembly_and_construction_injective :
  (forall c1 c2 : Component, _glyph_assembly c1 = _glyph_assembly c2 -> c1 = c2) /\
  (forall v1 v2 : dict Z, _glyph_construction v1 = _glyph_construction v2 -> v1 = v2).
Proof.
  split.
  - intros [i1 ps1] [i2 ps2]. unfold _glyph_assembly, _math_value. simpl.
    intros H. injection H as Hi _ Hps. subst i2. f_equal.
    apply (map_injective _ _ _ part_record_injective Hps).
  - intros v1 v2. unfold _glyph_construction. intros H. injection H as _ Hr.
    refine (map_injective _ _ _ _ Hr).
    intros [g a] [g' a']. simpl. intros E. injection E as -> ->. reflexivity.
Qed.

(** X15. In the encoded glyph info, the value records of the italic
    corrections and of the top accents are aligned with their coverage:
    pairing the coverage glyphs with the record values gives back the map
    of the model, the counts are the numbers of entries, and no record has
    a device table; the extended-shape coverage lists the extended shapes. *)
Theorem encoded_glyph_info_aligned :
  forall t : MathTable,
    let e := _encode_glyph_info t in
    let ic := enc_MathItalicsCorrectionInfo e in
    let ta := enc_MathTopAccentAttachment e in
    combine (cov_glyphs (ItalicsCorrection_Coverage ic))
            (map Value (ItalicsCorrection_records ic))
    = ItalicCorrection (glyph_info t) /\
    combine (cov_glyphs (TopAccentCoverage ta)) (map Value (TopAccentAttachment_records ta))
    = TopAccent (glyph_info t) /\
    ItalicsCorrectionCount ic = List.length (cov_glyphs (ItalicsCorrection_Coverage ic)) /\
    ItalicsCorrectionCount ic = List.length (ItalicsCorrection_records ic) /\
    TopAccentAttachmentCount ta = List.length (cov_glyphs (TopAccentCoverage ta)) /\
    TopAccentAttachmentCount ta = List.length (TopAccentAttachment_records ta) /\
    Forall (fun r => DeviceTable r = None)
           (ItalicsCorrection_records ic ++ TopAccentAttachment_records ta) /\
    cov_glyphs (ExtendedShapeCoverage e) = entry_glyphs (ExtendedShapes (glyph_info t)) /\
    MathKernInfo e = None.
Proof.
  intros t. simpl.
  assert (C : forall d : dict Z,
             combine (dict_keys d) (map Value (map (fun kv => _math_value (snd kv)) d)) = d).
  { induction d as [| [k v] r IH]; simpl; [reflexivity | rewrite IH; reflexivity]. }
  unfold dict_keys in *. rewrite !C, !length_map.
  repeat split.
  apply Forall_app. split; apply Forall_forall; intros r Hr; apply in_map_iff in Hr;
    destruct Hr as [kv [<- _]]; reflexivity.
Qed.

Lemma dict_get_map_values {V W : Type} (f : V -> W) (d : dict V) (k : string) :
  dict_get (map (fun kv => (fst kv, f (snd kv))) d) k = option_map f (dict_get d k).
Proof.
  induction d as [| [k0 v0] r IH]; simpl; [reflexivity |].
  destruct (String.eqb k0 k); [reflexivity | exact IH].
Qed.

Lemma NoDup_dict_get_rev {V : Type} (d : dict V) (k : string) :
  NoDup (dict_keys d) -> dict_get (rev d) k = dict_get d k.
Proof.
  intros Hnd.
  assert (Hnd' : NoDup (dict_keys (rev d))).
  { unfold dict_keys. rewrite map_rev. apply NoDup_rev. exact Hnd. }
  destruct (dict_get d k) as [v |] eqn:G.
  - apply NoDup_dict_get; [exact Hnd' |]. apply in_rev. rewrite rev_involutive.
    apply dict_get_In. exact G.
  - destruct (dict_get (rev d) k) as [v |] eqn:G'; [| reflexivity].
    apply dict_get_In in G'. apply in_rev in G'.
    rewrite (NoDup_dict_get d k v Hnd G') in G. discriminate G.
Qed.

Lemma nth_error_dict {V : Type} (d : dict V) (i : nat) (k : string) :
  NoDup (dict_keys d) -> nth_error (dict_keys d) i = Some k ->
  nth_error (map snd d) i = dict_get d k.
Proof.
  intros Hnd Hk. unfold dict_keys in Hk.
  destruct (nth_error d i) as [[k' v] |] eqn:E.
  - rewrite (map_nth_error fst _ _ E) in Hk. simpl in Hk. injection Hk as ->.
    rewrite (map_nth_error snd _ _ E). simpl. symmetry.
    apply NoDup_dict_get; [exact Hnd |]. eapply nth_error_In. exact E.
  - apply nth_error_None in E. assert (L : (List.length (map fst d) <= i)%nat)
      by (rewrite length_map; exact E).
    apply nth_error_None in L. rewrite L in Hk. discriminate Hk.
Qed.

(** The two loops of [MathTable._variants]. *)
Lemma variants_loop (vs : dict (dict Z)) :
  fold_left (fun d gv => dict_set d (fst gv) (_glyph_construction (snd gv))) vs []
  = dict_of_items (map (fun gv => (fst gv, _glyph_construction (snd gv))) vs).
Proof.
  unfold dict_of_items. generalize (@nil (string * MathGlyphConstruction)).
  induction vs as [| x r IH]; simpl; intros d; [reflexivity | apply IH].
Qed.

Lemma components_loop_get (cs : dict Component) :
  forall (d : dict MathGlyphConstruction) (g : string),
    dict_get
      (fold_left (fun d gc =>
                    let c := match dict_get d (fst gc) with
                             | Some c => c
                             | None => _glyph_construction []
                             end in
                    dict_set d (fst gc)
                      (mkConstruction (Some (_glyph_assembly (snd gc)))
                         (VariantCount c) (VariantRecords c)))
                 cs d) g
    = match dict_get (rev cs) g with
      | Some comp =>
          Some (mkConstruction (Some (_glyph_assembly comp))
                  (VariantCount (base_construction d g))
                  (VariantRecords (base_construction d g)))
      | None => dict_get d g
      end.
Proof.
  induction cs as [| [k comp] r IH]; intros d g; simpl.
  - reflexivity.
  - rewrite IH, dict_get_app. simpl. unfold base_construction.
    destruct (String.eqb k g) eqn:E.
    + apply String.eqb_eq in E. subst k. rewrite dict_get_set_same. simpl.
      destruct (dict_get (rev r) g); reflexivity.
    + apply String.eqb_neq in E. rewrite (dict_get_set_other _ _ _ _ E).
      destruct (dict_get (rev r) g); reflexivity.
Qed.

Lemma components_loop_keys (cs : dict Component) :
  forall (d : dict MathGlyphConstruction) (g : string),
    In g (dict_keys
            (fold_left (fun d gc =>
                          let c := match dict_get d (fst gc) with
                                   | Some c => c
                                   | None => _glyph_construction []
                                   end in
                          dict_set d (fst gc)
                            (mkConstruction (Some (_glyph_assembly (snd gc)))
                               (VariantCount c) (VariantRecords c)))
                       cs d))
    <-> In g (dict_keys cs) \/ In g (dict_keys d).
Proof.
  induction cs as [| [k comp] r IH]; intros d g; simpl.
  - intuition.
  - rewrite IH, dict_keys_set. simpl. intuition.
Qed.

Lemma components_loop_NoDup (cs : dict Component) :
  forall d : dict MathGlyphConstruction,
    NoDup (dict_keys d) ->
    NoDup (dict_keys
             (fold_left (fun d gc =>
                           let c := match dict_get d (fst gc) with
                                    | Some c => c
                                    | None => _glyph_construction []
                                    end in
                           dict_set d (fst gc)
                             (mkConstruction (Some (_glyph_assembly (snd gc)))
                                (VariantCount c) (VariantRecords c)))
                        cs d)).
Proof.
  induction cs as [| [k comp] r IH]; intros d Hd; simpl.
  - exact Hd.
  - apply IH. apply dict_set_NoDup. exact Hd.
Qed.

Lemma dict_of_items_NoDup {V : Type} (items : list (string * V)) :
  NoDup (dict_keys (dict_of_items items)).
Proof.
  unfold dict_of_items.
  assert (G : forall d : dict V, NoDup (dict_keys d) ->
              NoDup (dict_keys (fold_left (fun d kv => dict_set d (fst kv) (snd kv)) items d))).
  { induction items as [| x r IH]; simpl; intros d Hd; [exact Hd |].
    apply IH. apply dict_set_NoDup. exact Hd. }
  apply G. constructor.
Qed.

(** X16. The coverage [MathTable._variants] builds has no glyph twice and
    holds exactly the glyphs with variants or with a component; there is
    one construction per coverage glyph and the count is their number. *)
Theorem constructions_coverage :
  forall (vs : dict (dict Z)) (cs : dict Component),
    let r := encode_constructions vs cs in
    NoDup (cov_glyphs (snd (fst r))) /\
    List.length (fst (fst r)) = snd r /\
    List.length (cov_glyphs (snd (fst r))) = snd r /\
    forall g, In g (cov_glyphs (snd (fst r))) <-> In g (dict_keys vs) \/ In g (dict_keys cs).
Proof.
  intros vs cs. unfold encode_constructions.
  cbn [fst snd cov_glyphs _coverage].
  unfold dict_keys at 2. rewrite !length_map. rewrite variants_loop.
  split; [| split; [reflexivity | split; [reflexivity |]]].
  - apply components_loop_NoDup. apply dict_of_items_NoDup.
  - intros g. rewrite components_loop_keys, dict_keys_of_items.
    unfold dict_keys. rewrite map_map. simpl. intuition.
Qed.

(** X17. When the variant map and the component map have distinct keys,
    the construction at the position of a coverage glyph is the one of that
    glyph: its variant records are those of its variants (none when it has
    only a component) and its assembly is that of its component (absent
    when it has only variants). *)
Theorem constructions_aligned_with_coverage :
  forall (vs : dict (dict Z)) (cs : dict Component) (i : nat) (g : string),
    NoDup (dict_keys vs) -> NoDup (dict_keys cs) ->
    nth_error (cov_glyphs (snd (fst (encode_constructions vs cs)))) i = Some g ->
    exists c,
      nth_error (fst (fst (encode_constructions vs cs))) i = Some c /\
      construction_of (dict_get vs g) (dict_get cs g) = Some c.
Proof.
  intros vs cs i g Hvs Hcs Hi. unfold encode_constructions in *.
  cbn [fst snd cov_glyphs _coverage] in *.
  rewrite variants_loop in *.
  set (C0 := dict_of_items (map (fun gv => (fst gv, _glyph_construction (snd gv))) vs)) in *.
  assert (Hnd : NoDup (dict_keys C0)) by apply dict_of_items_NoDup.
  pose proof (components_loop_NoDup cs C0 Hnd) as Hnd1.
  pose proof (nth_error_dict _ i g Hnd1 Hi) as Hn.
  rewrite components_loop_get, (NoDup_dict_get_rev cs g Hcs) in Hn.
  assert (H0 : dict_get C0 g = option_map _glyph_construction (dict_get vs g)).
  { unfold C0. rewrite dict_get_of_items, <- map_rev, dict_get_map_values.
    rewrite (NoDup_dict_get_rev vs g Hvs). reflexivity. }
  unfold base_construction in Hn. rewrite H0 in Hn.
  assert (Hin : In g (dict_keys vs) \/ In g (dict_keys cs)).
  { apply nth_error_In in Hi. apply components_loop_keys in Hi.
    destruct Hi as [Hi | Hi]; [right; exact Hi | left].
    unfold C0 in Hi. apply (proj1 (dict_keys_of_items _ _)) in Hi.
    unfold dict_keys in *. rewrite map_map in Hi. exact Hi. }
  destruct (dict_get cs g) as [comp |] eqn:Gc; destruct (dict_get vs g) as [v |] eqn:Gv;
    simpl in Hn; try (eexists; split; [exact Hn | reflexivity]).
  exfalso. destruct Hin as [Hin | Hin]; apply dict_get_keys in Hin; destruct Hin as [x Hx];
    congruence.
Qed.

Lemma constructions_aligned_with_coverage_witness :
  exists c,
    nth_error (fst (fst (encode_constructions [("dot", [("dot", 12)])]
                           [("i", mkStyleComponent 3 [mkPart "dot" true 3 4 11])]))) 1
    = Some c /\
    construction_of None (Some (mkStyleComponent 3 [mkPart "dot" true 3 4 11])) = Some c.
Proof.
  apply (constructions_aligned_with_coverage [("dot", [("dot", 12)])]
           [("i", mkStyleComponent 3 [mkPart "dot" true 3 4 11])] 1 "i").
  - repeat constructor. intros [].
  - repeat constructor. intros [].
  - reflexivity.
Defined.

Lemma dict_set_fresh {V : Type} (d : dict V) (k : string) (v : V) :
  ~ In k (dict_keys d) -> dict_set d k v = d ++ [(k, v)].
Proof.
  unfold dict_keys. induction d as [| [k0 v0] r IH]; simpl; intros H.
  - reflexivity.
  - destruct (String.eqb k0 k) eqn:E.
    + apply String.eqb_eq in E. exfalso. apply H. left. exact E.
    + rewrite IH; [reflexivity |]. intros Hin. apply H. right. exact Hin.
Qed.

Lemma fold_set_NoDup {V : Type} (items : list (string * V)) :
  forall d : dict V,
    NoDup (dict_keys (d ++ items)) ->
    fold_left (fun d kv => dict_set d (fst kv) (snd kv)) items d = d ++ items.
Proof.
  induction items as [| [k v] r IH]; intros d H; simpl.
  - rewrite app_nil_r. reflexivity.
  - assert (Hk : ~ In k (dict_keys d)).
    { unfold dict_keys in *. rewrite map_app in H. simpl in H.
      apply NoDup_remove_2 in H. intros Hin. apply H. apply in_or_app. left. exact Hin. }
    rewrite (dict_set_fresh d k v Hk), IH.
    + rewrite <- app_assoc. reflexivity.
    + rewrite <- app_assoc. exact H.
Qed.

(** X18. For a table of constants with distinct names, the encoded
    constants keep the names and their order; a constant flagged as math
    value becomes a value record without device table, any other a plain
    integer, so that value and flag can be read back. *)
Theorem encoded_constants_follow_the_flag :
  forall t : MathTable,
    NoDup (dict_keys (constants t)) ->
    _encode_constants t = map (fun nd => (fst nd, encode_constant (snd nd))) (constants t) /\
    (forall name d,
        dict_get (constants t) name = Some d ->
        dict_get (_encode_constants t) name
        = Some (if c_isMathValue d then CRecord (mkMathValueRecord None (c_value d))
                else CInt (c_value d))) /\
    (forall d1 d2, encode_constant d1 = encode_constant d2 -> d1 = d2).
Proof.
  intros t Hnd.
  assert (E : _encode_constants t
              = map (fun nd => (fst nd, encode_constant (snd nd))) (constants t)).
  { unfold _encode_constants.
    assert (G : forall (l : dict Constant) d0,
               fold_left (fun cs nd => dict_set cs (fst nd) (encode_constant (snd nd))) l d0
               = fold_left (fun d kv => dict_set d (fst kv) (snd kv))
                           (map (fun nd => (fst nd, encode_constant (snd nd))) l) d0).
    { induction l as [| x r IHl]; simpl; intros d0; [reflexivity | apply IHl]. }
    rewrite G. rewrite fold_set_NoDup; [reflexivity |].
    simpl. unfold dict_keys in *. rewrite map_map. simpl. exact Hnd. }
  split; [exact E |]. split.
  - intros name d G. rewrite E, dict_get_map_values, G. reflexivity.
  - intros [v1 f1] [v2 f2]. unfold encode_constant, _math_value. simpl.
    destruct f1, f2; intros H; try discriminate H; injection H as ->; reflexivity.
Qed.

Lemma encoded_constants_follow_the_flag_witness :
  _encode_constants Sample.regular_table
  = map (fun nd => (fst nd, encode_constant (snd nd))) (constants Sample.regular_table) /\
  (forall name d,
      dict_get (constants Sample.regular_table) name = Some d ->
      dict_get (_encode_constants Sample.regular_table) name
      = Some (if c_isMathValue d then CRecord (mkMathValueRecord None (c_value d))
              else CInt (c_value d))) /\
  (forall d1 d2, encode_constant d1 = encode_constant d2 -> d1 = d2).
Proof.
  apply (encoded_constants_follow_the_flag Sample.regular_table).
  repeat constructor. intros [].
Defined.

(** ** The tables of the styles *)

Lemma style_tables_loop (F : Font) (md : MasterData) (l : dict (list (nat * Q))) :
  forall m0 m : dict MathTable,
    foldM (fun math_tables si =>
             t <- style_math_table F md (fst si) (snd si) ;;
             Ok (dict_set math_tables (fst si) t)) l m0 = Ok m ->
    (NoDup (dict_keys m0) -> NoDup (dict_keys m)) /\
    (forall k, In k (dict_keys m) <-> In k (dict_keys l) \/ In k (dict_keys m0)) /\
    (forall k t, dict_get m k = Some t ->
                 dict_get m0 k = Some t \/
                 exists interpolation,
                   In (k, interpolation) l /\ style_math_table F md k interpolation = Ok t).
Proof.
  induction l as [| [style interp] r IH]; simpl; intros m0 m H.
  - injection H as <-. split; [auto |]. split; [intuition | auto].
  - inv_bind H. rename a into m1. inv_bind Ha. rename a into t0. injection Ha as <-.
    destruct (IH _ _ H) as [Hnd [Hkeys Hget]].
    split; [| split].
    + intros H0. apply Hnd. apply dict_set_NoDup. exact H0.
    + intros k. rewrite Hkeys, dict_keys_set. intuition.
    + intros k t G. destruct (Hget k t G) as [G1 | [i [Hi Hs]]].
      * destruct (string_dec style k) as [-> | Hne].
        -- rewrite dict_get_set_same in G1. injection G1 as <-.
           right. exists interp. split; [left; reflexivity | exact Ha0].
        -- rewrite (dict_get_set_other _ _ _ _ Hne) in G1. left. exact G1.
      * right. exists i. split; [right; exact Hi | exact Hs].
Qed.

(** X19. When the tables of all styles are built, there is exactly one
    table per style name of the font object, and the table of a style is
    the result of the loop body for that name and one of its vectors. *)
Theorem one_table_per_style :
  forall (F : Font) (md : MasterData) (tables : dict MathTable),
    style_tables F md = Ok tables ->
    NoDup (dict_keys tables) /\
    (forall style, In style (dict_keys tables) <-> In style (dict_keys (interpolations F))) /\
    (forall style t,
        dict_get tables style = Some t ->
        exists interpolation,
          In (style, interpolation) (interpolations F) /\
          style_math_table F md style interpolation = Ok t).
Proof.
  intros F md tables H. unfold style_tables in H.
  destruct (style_tables_loop F md _ _ _ H) as [Hnd [Hkeys Hget]].
  split; [apply Hnd; constructor |]. split.
  - intros style. rewrite Hkeys. simpl. intuition.
  - intros style t G. destruct (Hget style t G) as [G0 | Hex]; [discriminate G0 | exact Hex].
Qed.

Lemma one_table_per_style_witness :
  NoDup (dict_keys [("Regular", Sample.regular_table); ("Bold", Sample.bold_table)]) /\
  (forall style,
      In style (dict_keys [("Regular", Sample.regular_table); ("Bold", Sample.bold_table)])
      <-> In style (dict_keys (interpolations Sample.F))) /\
  (forall style t,
      dict_get [("Regular", Sample.regular_table); ("Bold", Sample.bold_table)] style = Some t ->
      exists interpolation,
        In (style, interpolation) (interpolations Sample.F) /\
        style_math_table Sample.F Sample.master_data style interpolation = Ok t).
Proof.
  exact (one_table_per_style Sample.F Sample.master_data
           [("Regular", Sample.regular_table); ("Bold", Sample.bold_table)] eq_refl).
Defined.

Lemma foldM_step_fails {A S : Type} (f : S -> A -> result S) (l : list A) (x : A) :
  In x l -> (forall s, exists e, f s x = Raise e) ->
  forall s, exists e, foldM f l s = Raise e.
Proof.
  intros Hin Hx. induction l as [| y r IH]; simpl; intros s.
  - contradiction.
  - destruct (f s y) as [s' | e] eqn:E; simpl.
    + destruct Hin as [-> | Hin].
      * destruct (Hx s) as [e He]. congruence.
      * apply IH. exact Hin.
    + exists e. reflexivity.
Qed.

Section NoIsolation.

Variable bounds_size : GSLayer -> option Size.

(** X20. The styles are not isolated from each other: when the loop body
    raises for one style, [_parse_math_table] raises and no table is
    produced, also for the styles whose data are sound. *)
Theorem one_failing_style_fails_all :
  forall (F : Font) (data : TomlData) (md : MasterData)
         (style : string) (interpolation : list (nat * Q)) (e : exn),
    fst (_parse_master_math_table bounds_size F data) = Ok md ->
    In (style, interpolation) (interpolations F) ->
    style_math_table F md style interpolation = Raise e ->
    exists e', fst (_parse_math_table bounds_size F data) = Raise e'.
Proof.
  intros F data md style interpolation e Hmd Hin Hs.
  unfold _parse_math_table, lbind. rewrite Hmd. simpl.
  unfold style_tables.
  apply (foldM_step_fails _ _ (style, interpolation) Hin).
  intros s. exists e. simpl. rewrite Hs. reflexivity.
Qed.

End NoIsolation.

Lemma one_failing_style_fails_all_witness :
  (exists t, style_math_table Sample2.F Sample2.master_data "Draft" [(0%nat, 1%Q)] = Ok t) /\
  exists e', fst (_parse_math_table Sample.node_box Sample2.F Sample2.toml) = Raise e'.
Proof.
  split.
  - eexists. reflexivity.
  - apply (one_failing_style_fails_all Sample.node_box Sample2.F Sample2.toml
             Sample2.master_data "Bold" [(1%nat, 1%Q)] IndexError).
    + reflexivity.
    + right. left. reflexivity.
    + reflexivity.
Defined.

(** ** Failures of the decomposer *)

Lemma foldM_app {A S : Type} (f : S -> A -> result S) (l1 l2 : list A) (s s' : S) :
  foldM f (l1 ++ l2) s = Ok s' ->
  exists s0, foldM f l1 s = Ok s0 /\ foldM f l2 s0 = Ok s'.
Proof.
  revert s. induction l1 as [| x r IH]; simpl; intros s H.
  - exists s. split; [reflexivity | exact H].
  - inv_bind H. destruct (IH _ H) as [s0 [H1 H2]].
    exists s0. rewrite Ha. simpl. split; assumption.
Qed.

Lemma seq_split (a b : nat) : seq 0 (a + S b) = seq 0 a ++ a :: seq (S a) b.
Proof.
  rewrite seq_app. reflexivity.
Qed.

Lemma glyph_names_update_layer (f : GSFont) (gi li : nat) (u : GSLayer -> GSLayer) :
  glyph_names (update_layer f gi li u) = glyph_names f.
Proof.
  unfold glyph_names, update_layer. simpl. generalize (glyphs f). intros l. revert gi.
  induction l as [| g r IH]; intros [| gi]; simpl; try reflexivity.
  rewrite IH. reflexivity.
Qed.

Lemma glyph_by_name_names (f1 f2 : GSFont) (n : string) :
  glyph_names f1 = glyph_names f2 ->
  glyph_by_name f1 n = None -> glyph_by_name f2 n = None.
Proof.
  unfold glyph_names, glyph_by_name. generalize (glyphs f1) (glyphs f2).
  induction l as [| g r IH]; intros [| g' r'] E H; simpl in *; try reflexivity;
    try discriminate E.
  injection E as En Er. rewrite <- En.
  destruct (String.eqb (glyph_name g) n); [discriminate H |].
  apply (IH r' Er H).
Qed.

Section Reach.

Variable select : GSGlyph -> bool.
Variable expand : expander.
Variable expands : GSComponent -> bool.
Hypothesis expand_ok : expander_ok expand expands.
Hypothesis expands_compat : forall c c', comp_eqb c c' = true -> expands c = expands c'.

(** The layers before a given layer of a glyph. *)
Lemma decompose_layers_before (pre suf : list GSGlyph) (lrest : list GSLayer) :
  forall (lmid lpre : list GSLayer) (f f' : GSFont) (g : GSGlyph),
    glyphs f = pre ++ g :: suf ->
    layers g = lpre ++ lmid ++ lrest ->
    foldM (decompose_layer expand (List.length pre))
          (seq (List.length lpre) (List.length lmid)) f = Ok f' ->
    exists lmid',
      f' = set_glyphs f (pre ++ set_layers g (lpre ++ lmid' ++ lrest) :: suf) /\
      List.length lmid' = List.length lmid.
Proof.
  induction lmid as [| layer rest IH]; intros lpre f f' g Hg Hl H.
  - simpl in H. injection H as <-. exists []. split; [| reflexivity].
    rewrite <- Hl.
    replace (set_layers g (layers g)) with g by (destruct g; reflexivity).
    rewrite <- Hg. destruct f. reflexivity.
  - simpl in H. inv_bind H. rename a into f1.
    assert (Hl' : layers g = lpre ++ layer :: (rest ++ lrest)) by exact Hl.
    assert (Hget : get_layer f (List.length pre) (List.length lpre) = Some layer).
    { unfold get_layer. rewrite Hg, nth_error_app_mid, Hl'. apply nth_error_app_mid. }
    destruct (decompose_layer_spec expand expands f f1 _ _ layer
                expand_ok expands_compat Hget Ha) as [paths Hf1].
    rewrite (update_layer_app f pre suf g lpre (rest ++ lrest) layer _ Hg Hl') in Hf1.
    set (layer' := set_shapes layer
                     (filter (keep_shape expands) (_shapes layer) ++ map SPath paths)) in *.
    set (g1 := set_layers g (lpre ++ layer' :: rest ++ lrest)) in *.
    assert (Hg1 : glyphs f1 = pre ++ g1 :: suf) by (rewrite Hf1; reflexivity).
    assert (Hl1 : layers g1 = (lpre ++ [layer']) ++ rest ++ lrest).
    { unfold g1. simpl. rewrite <- app_assoc. reflexivity. }
    assert (Hlen : S (List.length lpre) = List.length (lpre ++ [layer'])).
    { rewrite length_app. simpl. lia. }
    rewrite Hlen in H.
    destruct (IH _ _ _ _ Hg1 Hl1 H) as [lmid' [-> Hlen']].
    exists (layer' :: lmid'). split; [| simpl; rewrite Hlen'; reflexivity].
    rewrite Hf1. unfold g1, set_glyphs, set_layers. simpl.
    rewrite <- app_assoc. reflexivity.
Qed.

(** The glyphs before a given glyph. *)
Lemma decompose_glyphs_before (rest : list GSGlyph) :
  forall (mid pre : list GSGlyph) (f f' : GSFont),
    glyphs f = pre ++ mid ++ rest ->
    foldM (decompose_glyph select expand) (seq (List.length pre) (List.length mid)) f = Ok f' ->
    exists mid',
      f' = set_glyphs f (pre ++ mid' ++ rest) /\
      map glyph_name mid' = map glyph_name mid.
Proof.
  induction mid as [| g r IH]; intros pre f f' Hg H.
  - simpl in H. injection H as <-. exists []. split; [| reflexivity].
    rewrite <- Hg. destruct f. reflexivity.
  - simpl in H. inv_bind H. rename a into f1.
    destruct (decompose_glyph_step select expand expands expand_ok expands_compat
                pre (r ++ rest) g f f1 Hg Ha) as [g' [Hf1 [Hn _]]].
    assert (Hg1 : glyphs f1 = (pre ++ [g']) ++ r ++ rest).
    { rewrite Hf1. simpl. rewrite <- app_assoc. reflexivity. }
    assert (Hlen : S (List.length pre) = List.length (pre ++ [g'])).
    { rewrite length_app. simpl. lia. }
    rewrite Hlen in H.
    destruct (IH _ _ _ Hg1 H) as [mid' [-> Hnames]].
    exists (g' :: mid'). split.
    + rewrite Hf1. unfold set_glyphs. simpl. rewrite <- app_assoc. reflexivity.
    + simpl. rewrite Hn, Hnames. reflexivity.
Qed.

(** A pass that returns normally has expanded, without error, every
    component of every layer of the glyphs it selects, each in a font with
    the glyph names of the font it started from. *)
Lemma pass_reaches_component (f f' : GSFont) (gi li : nat) (g : GSGlyph)
    (layer : GSLayer) (c : GSComponent) :
  nth_error (glyphs f) gi = Some g ->
  select g = true ->
  nth_error (layers g) li = Some layer ->
  In c (layer_components layer) ->
  decompose_pass select expand f = Ok f' ->
  exists st r, glyph_names st = glyph_names f /\ expand st layer c = Ok r.
Proof.
  intros Hg Hsel Hl Hc H.
  destruct (nth_error_split _ _ Hg) as [pre [suf [Eg Egi]]].
  destruct (nth_error_split _ _ Hl) as [lpre [lsuf [El Eli]]].
  destruct (in_split _ _ Hc) as [c1 [c2 Ec]].
  unfold decompose_pass in H. rewrite Eg, length_app in H. simpl in H.
  rewrite seq_split in H.
  destruct (foldM_app _ _ _ _ _ H) as [s0 [H0 H1]]. clear H.
  destruct (decompose_glyphs_before (g :: suf) pre [] f s0 Eg H0) as [pre' [Hs0 Hn0]].
  simpl in Hs0.
  assert (Lpre : List.length pre' = List.length pre).
  { rewrite <- (length_map glyph_name pre'), Hn0, length_map. reflexivity. }
  simpl in H1. inv_bind H1. clear H1. rename a into s1.
  assert (Gs0 : glyphs s0 = pre' ++ g :: suf) by (rewrite Hs0; reflexivity).
  unfold decompose_glyph in Ha. rewrite <- Lpre in Ha.
  rewrite Gs0, nth_error_app_mid, Hsel in Ha.
  rewrite El, length_app in Ha. simpl in Ha. rewrite seq_split in Ha.
  destruct (foldM_app _ _ _ _ _ Ha) as [s00 [H00 H01]]. clear Ha.
  destruct (decompose_layers_before pre' suf (layer :: lsuf) lpre [] s0 s00 g Gs0 El H00)
    as [lpre' [Hs00 Llpre]].
  simpl in Hs00.
  simpl in H01. inv_bind H01. clear H01. rename a into s01.
  assert (Gs00 : glyphs s00 = pre' ++ set_layers g (lpre' ++ layer :: lsuf) :: suf)
    by (rewrite Hs00; reflexivity).
  assert (Hget : get_layer s00 (List.length pre') (List.length lpre) = Some layer).
  { unfold get_layer. rewrite Gs00, nth_error_app_mid. simpl.
    rewrite <- Llpre. apply nth_error_app_mid. }
  unfold decompose_layer in Ha. rewrite Hget in Ha. inv_bind Ha. clear Ha.
  rewrite Ec in Ha0.
  destruct (foldM_app _ _ _ _ _ Ha0) as [st0 [Hc1 Hc2]]. clear Ha0.
  simpl in Hc2. inv_bind Hc2. clear Hc2.
  unfold decompose_comp in Ha. inv_bind Ha. clear Ha. rename a1 into r.
  assert (E0 : update_layer s00 (List.length pre') (List.length lpre) (extend_paths []) = s00).
  { apply update_layer_id. intros l _. apply extend_paths_nil. }
  rewrite <- E0 in Hc1 at 1.
  destruct (decompose_comps_loop expand expands s00 _ _ layer expand_ok _ _ _ _ Hc1)
    as [acc Hst0].
  exists (fst st0), r. split; [| exact Ha0].
  rewrite Hst0. simpl. rewrite glyph_names_update_layer.
  unfold glyph_names. rewrite Gs00, Eg, !map_app. simpl. rewrite Hn0. reflexivity.
Qed.

End Reach.

Section FatalReferences.

Variable applyTransform : Transform -> GSPath -> GSPath.

Lemma smart_component_to_paths_missing (st : GSFont) (layer : GSLayer) (c : GSComponent) :
  has_values c = true ->
  glyph_by_name st (comp_name c) = None ->
  exists e, _smart_component_to_paths applyTransform st layer c = Raise e.
Proof.
  unfold has_values, _smart_component_to_paths. intros Hv Hg. rewrite Hg.
  destruct (smartComponentValues c) as [| [k v] [| kv2 rest]]; [discriminate Hv | |];
    simpl; eexists; reflexivity.
Qed.

(** X21. A dangling reference is fatal wherever the decomposer expands it:
    if a component of a smart glyph, or a component with smart-component
    values of any other glyph, names a glyph that is not in the font, the
    decomposer raises. *)
Theorem dangling_expanded_reference_is_fatal :
  forall (f : GSFont) (gi li : nat) (g : GSGlyph) (layer : GSLayer) (c : GSComponent),
    nth_error (glyphs f) gi = Some g ->
    nth_error (layers g) li = Some layer ->
    In (SComp c) (_shapes layer) ->
    expanded (_is_smart_glyph g) c = true ->
    glyph_by_name f (comp_name c) = None ->
    exists e, _decompose_smart_comp applyTransform f = Raise e.
Proof.
  intros f gi li g layer c Hg Hl Hc He Hmiss.
  apply In_layer_components in Hc.
  destruct (_decompose_smart_comp applyTransform f) as [f' | e] eqn:H;
    [| exists e; reflexivity].
  exfalso. unfold _decompose_smart_comp in H. inv_bind H. rename a into f1.
  destruct (_is_smart_glyph g) eqn:S.
  - destruct (pass_reaches_component _is_smart_glyph _ _
                (expand_in_smart_glyph_ok applyTransform) (fun c c' _ => eq_refl)
                f f1 gi li g layer c Hg S Hl Hc Ha) as [st [r [Hn Hr]]].
    unfold expand_in_smart_glyph, _is_smart_component in Hr.
    rewrite (glyph_by_name_names f st _ (eq_sym Hn) Hmiss) in Hr. discriminate Hr.
  - simpl in He.
    destruct (decompose_pass_spec _ _ _ (expand_in_smart_glyph_ok applyTransform)
                (fun c c' _ => eq_refl) f f1 Ha) as [_ [_ G1]].
    destruct (Forall2_nth_error _ _ _ gi g G1 Hg) as [g1 [Hg1 [N1 [_ [A1 L1]]]]].
    rewrite S in L1.
    assert (S1 : negb (_is_smart_glyph g1) = true).
    { rewrite (is_smart_glyph_axes g g1 A1), S. reflexivity. }
    rewrite <- L1 in Hl.
    destruct (pass_reaches_component (fun g => negb (_is_smart_glyph g)) _ _
                (expand_in_plain_glyph_ok applyTransform) comp_eqb_has_values
                f1 f' gi li g1 layer c Hg1 S1 Hl Hc H) as [st [r [Hn Hr]]].
    assert (Hnames : glyph_names f1 = glyph_names f).
    { unfold glyph_names. clear - G1. induction G1 as [| a b r r' [N _] _ IH]; simpl;
        [reflexivity | rewrite N, IH; reflexivity]. }
    assert (Hmiss' : glyph_by_name st (comp_name c) = None).
    { apply (glyph_by_name_names f st); [congruence | exact Hmiss]. }
    destruct (smart_component_to_paths_missing st layer c He Hmiss') as [e He'].
    unfold expand_in_plain_glyph in Hr. unfold has_values in He.
    destruct (smartComponentValues c); [discriminate He |].
    rewrite He' in Hr. discriminate Hr.
Qed.

(** X22. A reference with two or more smart-component values in a glyph
    that is not smart is fatal: the decomposer raises, whatever the
    referenced glyph is. *)
Theorem two_axis_values_are_fatal :
  forall (f : GSFont) (gi li : nat) (g : GSGlyph) (layer : GSLayer) (c : GSComponent)
         (kv1 kv2 : string * Q) (rest : dict Q),
    nth_error (glyphs f) gi = Some g ->
    _is_smart_glyph g = false ->
    nth_error (layers g) li = Some layer ->
    In (SComp c) (_shapes layer) ->
    smartComponentValues c = kv1 :: kv2 :: rest ->
    exists e, _decompose_smart_comp applyTransform f = Raise e.
Proof.
  intros f gi li g layer c kv1 kv2 rest Hg S Hl Hc Hv.
  apply In_layer_components in Hc.
  destruct (_decompose_smart_comp applyTransform f) as [f' | e] eqn:H;
    [| exists e; reflexivity].
  exfalso. unfold _decompose_smart_comp in H. inv_bind H. rename a into f1.
  destruct (decompose_pass_spec _ _ _ (expand_in_smart_glyph_ok applyTransform)
              (fun c c' _ => eq_refl) f f1 Ha) as [_ [_ G1]].
  destruct (Forall2_nth_error _ _ _ gi g G1 Hg) as [g1 [Hg1 [N1 [_ [A1 L1]]]]].
  rewrite S in L1.
  assert (S1 : negb (_is_smart_glyph g1) = true).
  { rewrite (is_smart_glyph_axes g g1 A1), S. reflexivity. }
  rewrite <- L1 in Hl.
  destruct (pass_reaches_component (fun g => negb (_is_smart_glyph g)) _ _
              (expand_in_plain_glyph_ok applyTransform) comp_eqb_has_values
              f1 f' gi li g1 layer c Hg1 S1 Hl Hc H) as [st [r [_ Hr]]].
  unfold expand_in_plain_glyph, _smart_component_to_paths in Hr. rewrite Hv in Hr.
  destruct kv1. simpl in Hr. discriminate Hr.
Qed.

(** X23. The fonts the decomposer returns unchanged are exactly the
    decomposed ones: those without component in a smart glyph and without
    component with smart-component values elsewhere.  On such a font no
    referenced glyph is looked up, so an ordinary reference to a missing
    glyph is not an error. *)
Theorem decomposer_fixed_points :
  forall f : GSFont,
    _decompose_smart_comp applyTransform f = Ok f <-> font_decomposed f.
Proof.
  intros f. split.
  - intros H. apply (decomposed_from_decomposed f f).
    apply (decompose_smart_comp_frame applyTransform). exact H.
  - apply decomposed_is_fixed.
Qed.

End FatalReferences.

Lemma dangling_expanded_reference_is_fatal_witness :
  exists e, _decompose_smart_comp Sample.affine Sample2.dangling_font = Raise e.
Proof.
  apply (dangling_expanded_reference_is_fatal Sample.affine Sample2.dangling_font 1 0
           (mkGlyph "_part.broken" false [mkAxis "Height" 0 100]
              [ mkLayer "m1" "m1" [("Height", 1)]
                  [SPath (Sample.box 4 4); SComp (mkComponent "missing" Sample.identity [])]
                  [] ])
           (mkLayer "m1" "m1" [("Height", 1)]
              [SPath (Sample.box 4 4); SComp (mkComponent "missing" Sample.identity [])] [])
           (mkComponent "missing" Sample.identity [])).
  - reflexivity.
  - reflexivity.
  - right. left. reflexivity.
  - reflexivity.
  - reflexivity.
Defined.

Lemma two_axis_values_are_fatal_witness :
  exists e, _decompose_smart_comp Sample.affine Sample2.two_axes_font = Raise e.
Proof.
  apply (two_axis_values_are_fatal Sample.affine Sample2.two_axes_font 1 0
           (mkGlyph "h" true []
              [ mkLayer "m1" "m1" []
                  [SComp (mkComponent "_part.bar" Sample.identity
                            [("Height", 10%Q); ("Width", 20%Q)])] [] ])
           (mkLayer "m1" "m1" []
              [SComp (mkComponent "_part.bar" Sample.identity
                        [("Height", 10%Q); ("Width", 20%Q)])] [])
           (mkComponent "_part.bar" Sample.identity [("Height", 10%Q); ("Width", 20%Q)])
           ("Height", 10%Q) ("Width", 20%Q) []).
  - reflexivity.
  - reflexivity.
  - reflexivity.
  - left. reflexivity.
  - reflexivity.
Defined.

(** ** Glyph files *)

Lemma string_length_append (s t : string) :
  String.length (s ++ t) = (String.length s + String.length t)%nat.
Proof.
  induction s as [| c r IH]; simpl; [reflexivity | rewrite IH; reflexivity].
Qed.

Lemma string_app_inv_tail (s1 s2 t : string) :
  (s1 ++ t)%string = (s2 ++ t)%string -> s1 = s2.
Proof.
  revert s2. induction s1 as [| c r IH]; intros [| c' r'] H; simpl in H.
  - reflexivity.
  - exfalso. apply (f_equal String.length) in H. simpl in H.
    rewrite string_length_append in H. lia.
  - exfalso. apply (f_equal String.length) in H. simpl in H.
    rewrite string_length_append in H. lia.
  - injection H as -> H. rewrite (IH _ H). reflexivity.
Qed.

Section GlyphFileNames.

Variable isupper : ascii -> bool.

Lemma escape_upper_injective (n1 n2 : string) :
  escape_upper isupper n1 = escape_upper isupper n2 -> n1 = n2.
Proof.
  revert n2. induction n1 as [| c r IH]; intros [| c' r'] H; simpl in H.
  - reflexivity.
  - destruct (isupper c'); discriminate H.
  - destruct (isupper c); discriminate H.
  - destruct (isupper c) eqn:U; destruct (isupper c') eqn:U'; injection H as -> H.
    + rewrite (IH _ H). reflexivity.
    + congruence.
    + congruence.
    + rewrite (IH _ H). reflexivity.
Qed.

(** X24. Two different glyph names, neither of them [.notdef], are read
    from two different files: marking upper-case letters with an underscore
    never makes two names collide. *)
Theorem glyph_files_are_distinct :
  forall n1 n2 : string,
    n1 <> ".notdef" -> n2 <> ".notdef" -> n1 <> n2 ->
    glyph_file_name isupper n1 <> glyph_file_name isupper n2.
Proof.
  intros n1 n2 H1 H2 Hne E. unfold glyph_file_name in E.
  apply String.eqb_neq in H1. apply String.eqb_neq in H2. rewrite H1, H2 in E.
  apply string_app_inv_tail in E. apply escape_upper_injective in E. exact (Hne E).
Qed.

End GlyphFileNames.

Lemma glyph_files_are_distinct_witness :
  glyph_file_name ascii_isupper "a" <> glyph_file_name ascii_isupper "A".
Proof.
  apply (glyph_files_are_distinct ascii_isupper "a" "A"); discriminate.
Defined.

(** The one collision: [.notdef] and a glyph called [_notdef] share a file. *)
Example notdef_file_collision :
  glyph_file_name ascii_isupper ".notdef" = "_notdef.glyph" /\
  glyph_file_name ascii_isupper "_notdef" = "_notdef.glyph" /\
  glyph_file_name ascii_isupper "Alpha" = "A_lpha.glyph".
Proof.
  repeat split; reflexivity.
Qed.

(** ** Values recorded in every master *)

Lemma flat_map_singletons {A B : Type} (f : A -> list B) (g : A -> B) (l : list A) :
  (forall x, In x l -> f x = [g x]) -> flat_map f l = map g l.
Proof.
  induction l as [| x r IH]; simpl; intros H; [reflexivity |].
  rewrite (H x (or_introl eq_refl)), IH; [reflexivity |].
  intros y Hy. apply H. right. exact Hy.
Qed.

(** X25. When every master layer of a glyph records a value under [name],
    [_get_user_data] returns one value per master layer, the i-th value
    being the one of the i-th master layer in master order. *)
Theorem user_data_aligned_when_complete :
  forall (F : Font) (glyph : GSGlyph) (name : string) (ls : list GSLayer)
         (value_of : GSLayer -> Q),
    _master_layers F (layers glyph) = Ok ls ->
    (forall l, In l ls ->
               exists d, find (has_key name) (userData l) = Some d /\
                         dict_get d name = Some (value_of l)) ->
    _get_user_data F glyph name = Ok (map value_of ls) /\
    forall i l, nth_error ls i = Some l ->
                nth_error (map value_of ls) i = Some (value_of l).
Proof.
  intros F glyph name ls value_of Hls Hall. split.
  - unfold _get_user_data. rewrite Hls. simpl. f_equal.
    apply flat_map_singletons. intros l Hl.
    destruct (Hall l Hl) as [d [Hf Hd]].
    unfold layer_user_data. rewrite Hf, Hd. reflexivity.
  - intros i l Hi. apply map_nth_error. exact Hi.
Qed.

Lemma user_data_aligned_when_complete_witness :
  _get_user_data Sample.F Sample.i_glyph "italicCorrection"
  = Ok (map (fun l => if String.eqb (layerId l) "m1" then 7%Q else 9%Q)
            [ mkLayer "m1" "m1" [] [SComp Sample.half_bar; SComp Sample.plain_dot]
                [[("italicCorrection", 7%Q); ("startConnector", 1%Q); ("endConnector", 1%Q)]];
              mkLayer "m2" "m2" [] [SComp Sample.half_bar; SComp Sample.plain_dot]
                [[("italicCorrection", 9%Q); ("startConnector", 2%Q); ("endConnector", 2%Q)]] ]) /\
  forall i l,
    nth_error
      [ mkLayer "m1" "m1" [] [SComp Sample.half_bar; SComp Sample.plain_dot]
          [[("italicCorrection", 7%Q); ("startConnector", 1%Q); ("endConnector", 1%Q)]];
        mkLayer "m2" "m2" [] [SComp Sample.half_bar; SComp Sample.plain_dot]
          [[("italicCorrection", 9%Q); ("startConnector", 2%Q); ("endConnector", 2%Q)]] ] i
    = Some l ->
    nth_error
      (map (fun l => if String.eqb (layerId l) "m1" then 7%Q else 9%Q)
         [ mkLayer "m1" "m1" [] [SComp Sample.half_bar; SComp Sample.plain_dot]
             [[("italicCorrection", 7%Q); ("startConnector", 1%Q); ("endConnector", 1%Q)]];
           mkLayer "m2" "m2" [] [SComp Sample.half_bar; SComp Sample.plain_dot]
             [[("italicCorrection", 9%Q); ("startConnector", 2%Q); ("endConnector", 2%Q)]] ]) i
    = Some (if String.eqb (layerId l) "m1" then 7%Q else 9%Q).
Proof.
  apply (user_data_aligned_when_complete Sample.F Sample.i_glyph "italicCorrection").
  - reflexivity.
  - intros l [<- | [<- | []]]; eexists; split; reflexivity.
Defined.

(** ** Constants of a style *)

(** X26. Every constant of a style comes from a constant of the master
    data of the same name: its flag is copied and its value is the
    interpolated one; no constant is dropped or added. *)
Theorem style_constants_from_master :
  forall (F : Font) (md : MasterData) (style : string)
         (interpolation : list (nat * Q)) (t : MathTable),
    style_math_table F md style interpolation = Ok t ->
    NoDup (dict_keys (constants t)) /\
    (forall name, In name (dict_keys (constants t))
                  <-> In name (dict_keys (md_MathConstants md))) /\
    (forall name c,
        dict_get (constants t) name = Some c ->
        exists d,
          In (name, d) (md_MathConstants md) /\
          c_isMathValue c = tc_isMathValue d /\
          _generate interpolation (tc_value d) = Ok (c_value c)).
Proof.
  intros F md style interpolation t H. unfold style_math_table in H.
  inv_bind H. inv_bind H. rename a0 into cs. rename Ha0 into Hcs.
  do 8 (inv_bind H). injection H as <-. simpl.
  split; [| split].
  - unfold dict_compM in Hcs. inv_bind Hcs. injection Hcs as <-. apply dict_of_items_NoDup.
  - intros name. rewrite (dict_compM_keys _ _ _ _ name Hcs). intuition.
  - intros name c G.
    destruct (dict_compM_get_Some _ _ _ _ _ _ Hcs G) as [_ [d [Hd Hf]]].
    exists d. inv_bind Hf. injection Hf as <-. simpl.
    split; [| split; [reflexivity | assumption]].
    apply dict_get_In in Hd. apply in_rev in Hd. exact Hd.
Qed.

Lemma style_constants_from_master_witness :
  NoDup (dict_keys (constants Sample.regular_table)) /\
  (forall name, In name (dict_keys (constants Sample.regular_table))
                <-> In name (dict_keys (md_MathConstants Sample.master_data))) /\
  (forall name c,
      dict_get (constants Sample.regular_table) name = Some c ->
      exists d,
        In (name, d) (md_MathConstants Sample.master_data) /\
        c_isMathValue c = tc_isMathValue d /\
        _generate Sample.regular (tc_value d) = Ok (c_value c)).
Proof.
  exact (style_constants_from_master Sample.F Sample.master_data "Regular" Sample.regular
           Sample.regular_table eq_refl).
Defined.

(** ** Glyphs named by the TOML document *)

Lemma mapM_fails {A B : Type} (f : A -> result B) (l : list A) (x : A) :
  In x l -> (exists e, f x = Raise e) -> exists e, mapM f l = Raise e.
Proof.
  intros Hin [e He]. induction l as [| y r IH]; simpl.
  - contradiction.
  - destruct (f y) as [b | e'] eqn:E; simpl; [| exists e'; reflexivity].
    destruct Hin as [-> | Hin]; [congruence |].
    destruct (IH Hin) as [e'' ->]. exists e''. reflexivity.
Qed.

Lemma mapM_Ok_In {A B : Type} (f : A -> result B) (l : list A) (l' : list B) (x : A) :
  mapM f l = Ok l' -> In x l -> exists y, f x = Ok y.
Proof.
  intros H. apply mapM_Ok_Forall2 in H.
  induction H as [| a b r r' Hab _ IH]; simpl; intros Hin.
  - contradiction.
  - destruct Hin as [<- | Hin]; [exists b; exact Hab | apply IH; exact Hin].
Qed.

Lemma map_valuesM_fails {V W : Type} (f : string -> V -> result W) (d : dict V)
    (k : string) (v : V) :
  In (k, v) d -> (exists e, f k v = Raise e) -> exists e, map_valuesM f d = Raise e.
Proof.
  intros Hin [e He]. unfold map_valuesM.
  apply (mapM_fails _ _ (k, v) Hin). exists e. simpl. rewrite He. reflexivity.
Qed.

Section MissingGlyphs.

Variable bounds_size : GSLayer -> option Size.

Lemma variant_advances_missing (F : Font) (direction glyph suffix : string)
    (suffixes : list string) :
  In suffix suffixes ->
  glyph_by_name (font F) (glyph ++ suffix) = None ->
  exists e, variant_advances bounds_size F direction glyph suffixes = Raise e.
Proof.
  intros Hin Hmiss. unfold variant_advances.
  match goal with
  | |- exists e, bind ?m _ = Raise e => destruct m as [items | e0] eqn:M
  end; [| exists e0; reflexivity].
  exfalso. destruct (mapM_Ok_In _ _ _ suffix M Hin) as [y Hy].
  simpl in Hy. unfold _advances in Hy. rewrite Hmiss in Hy. discriminate Hy.
Qed.

Lemma master_component_missing (F : Font) (direction : string) (value : TomlComponent)
    (part : TomlPart) :
  In part (tc_parts value) ->
  glyph_by_name (font F) (tp_name part) = None ->
  exists e, master_component bounds_size F direction value = Raise e.
Proof.
  intros Hin Hmiss. unfold master_component.
  match goal with
  | |- exists e, bind ?m _ = Raise e => destruct m as [ps | e0] eqn:M
  end; [| exists e0; reflexivity].
  exfalso. destruct (mapM_Ok_In _ _ _ part M Hin) as [y Hy].
  simpl in Hy. unfold _variant_part in Hy. rewrite Hmiss in Hy. discriminate Hy.
Qed.

(** X27. Every glyph the TOML document names must exist: when a variant
    (base name plus suffix) or a part of an assembly names a glyph that is
    not in the font, [_parse_master_math_table] raises. *)
Theorem missing_toml_glyph_is_fatal :
  forall (F : Font) (data : TomlData) (name : string),
    glyph_by_name (font F) name = None ->
    (exists glyph suffixes suffix,
        (In (glyph, suffixes) (tv_HorizontalVariants (toml_MathVariants data)) \/
         In (glyph, suffixes) (tv_VerticalVariants (toml_MathVariants data))) /\
        In suffix suffixes /\ name = (glyph ++ suffix)%string)
    \/
    (exists glyph value part,
        (In (glyph, value) (tv_HorizontalComponents (toml_MathVariants data)) \/
         In (glyph, value) (tv_VerticalComponents (toml_MathVariants data))) /\
        In part (tc_parts value) /\ name = tp_name part) ->
    exists e, fst (_parse_master_math_table bounds_size F data) = Raise e.
Proof.
  intros F data name Hmiss Hcase. unfold _parse_master_math_table, lbind.
  destruct (fst (parse_glyph_info F (toml_MathGlyphInfo data))) as [gi | e0];
    [| exists e0; reflexivity].
  simpl.
  destruct (map_valuesM (variant_advances bounds_size F "H")
              (tv_HorizontalVariants (toml_MathVariants data))) as [hv | e1] eqn:E1;
    simpl; [| exists e1; reflexivity].
  destruct (map_valuesM (variant_advances bounds_size F "V")
              (tv_VerticalVariants (toml_MathVariants data))) as [vv | e2] eqn:E2;
    simpl; [| exists e2; reflexivity].
  destruct (map_valuesM (fun _ => master_component bounds_size F "H")
              (tv_HorizontalComponents (toml_MathVariants data))) as [hc | e3] eqn:E3;
    simpl; [| exists e3; reflexivity].
  destruct (map_valuesM (fun _ => master_component bounds_size F "V")
              (tv_VerticalComponents (toml_MathVariants data))) as [vc | e4] eqn:E4;
    simpl; [| exists e4; reflexivity].
  exfalso.
  destruct Hcase as [[glyph [suffixes [suffix [Hin [Hs ->]]]]]
                    | [glyph [value [part [Hin [Hp ->]]]]]].
  - destruct Hin as [Hin | Hin].
    + destruct (map_valuesM_fails _ _ _ _ Hin
                  (variant_advances_missing F "H" glyph suffix suffixes Hs Hmiss)) as [e He].
      congruence.
    + destruct (map_valuesM_fails _ _ _ _ Hin
                  (variant_advances_missing F "V" glyph suffix suffixes Hs Hmiss)) as [e He].
      congruence.
  - destruct Hin as [Hin | Hin].
    + destruct (map_valuesM_fails (fun _ => master_component bounds_size F "H") _ _ _ Hin
                  (master_component_missing F "H" value part Hp Hmiss)) as [e He].
      congruence.
    + destruct (map_valuesM_fails (fun _ => master_component bounds_size F "V") _ _ _ Hin
                  (master_component_missing F "V" value part Hp Hmiss)) as [e He].
      congruence.
Qed.

End MissingGlyphs.

Lemma missing_toml_glyph_is_fatal_witness :
  exists e,
    fst (_parse_master_math_table Sample.node_box Sample.F
           (mkTomlData [] [] (mkTomlVariants [] [("dot", [""; ".big"])] [] [] [])))
    = Raise e.
Proof.
  apply (missing_toml_glyph_is_fatal Sample.node_box Sample.F
           (mkTomlData [] [] (mkTomlVariants [] [("dot", [""; ".big"])] [] [] []))
           "dot.big").
  - reflexivity.
  - left. exists "dot", [""; ".big"], ".big".
    split; [left; left; reflexivity |]. split; [right; left; reflexivity | reflexivity].
Defined.

(** [encode] itself never raises: the two names it passes to [_variants]
    are the two that exist. *)
Example encode_sample :
  exists m,
    encode Sample.regular_table = Ok m /\
    Version m = 0x00010000 /\
    cov_glyphs (HorizGlyphCoverage (MathVariants_of m)) = ["dot"] /\
    cov_glyphs (VertGlyphCoverage (MathVariants_of m)) = ["i"] /\
    enc_MinConnectorOverlap (MathVariants_of m) = 25 /\
    MathConstants m = [("AxisHeight", CRecord (mkMathValueRecord None 150))].
Proof.
  eexists. repeat split; reflexivity.
Qed.

(** ** Exceptions of the numeric kernel *)

Lemma generate_loop_out_of_range (values : list Machine.num) :
  forall (interpolation : list (nat * Machine.num)) (acc : Machine.num),
    ~ Machine.indices_in_range interpolation (List.length values) ->
    exists e,
      foldM (fun acc iv =>
               x <- py_index values (fst iv) ;;
               term <- Machine.mul x (snd iv) ;;
               Machine.add acc term)
            interpolation acc = Raise e /\
      (e = IndexError \/ e = OverflowError).
Proof.
  induction interpolation as [| [i w] r IH]; intros acc Hn.
  - exfalso. apply Hn. constructor.
  - simpl. destruct (Nat.lt_ge_cases i (List.length values)) as [Hlt | Hge].
    + rewrite (py_index_nth values i (Machine.Int 0) Hlt). simpl.
      destruct (Machine.mul (nth i values (Machine.Int 0)) w) as [term | e] eqn:M; simpl.
      * destruct (Machine.add acc term) as [acc' | e] eqn:A; simpl.
        -- apply IH. intros Hr. apply Hn. constructor; [exact Hlt | exact Hr].
        -- exists e. split; [reflexivity |]. right. eapply arith_Raise. exact A.
      * exists e. split; [reflexivity |]. right. eapply arith_Raise. exact M.
    + rewrite (py_index_out values i Hge). simpl. exists IndexError. split; auto.
Qed.

(** X4. [_generate] raises nothing but [IndexError], [OverflowError] and
    [ValueError].  When every master index has an entry in the value list
    it does not raise [IndexError]: it fails only on an int too large for
    a double or on a sum that is infinite ([OverflowError]) or not a number
    ([ValueError]).  When some index has no entry it does raise, and on an
    empty list the first term already raises [IndexError]. *)
Theorem generate_exceptions :
  forall (interpolation : list (nat * Machine.num)) (values : list Machine.num),
    (Machine.indices_in_range interpolation (List.length values) ->
     forall e, Machine._generate interpolation values = Raise e ->
               e = OverflowError \/ e = ValueError) /\
    (~ Machine.indices_in_range interpolation (List.length values) ->
     exists e, Machine._generate interpolation values = Raise e /\
               (e = IndexError \/ e = OverflowError)) /\
    (interpolation <> [] -> Machine._generate interpolation [] = Raise IndexError).
Proof.
  intros interpolation values. split; [| split].
  - intros Hr e H. rewrite (generate_round_weighted_sum _ _ Hr) in H.
    destruct (Machine.weighted_sum interpolation values) as [s | e'] eqn:W; simpl in H.
    + apply (round_Raise s e H).
    + injection H as <-. left. eapply weighted_sum_from_Raise. exact W.
  - intros Hn. unfold Machine._generate.
    destruct (generate_loop_out_of_range values interpolation (Machine.Int 0) Hn)
      as [e [He Hc]].
    exists e. rewrite He. split; [reflexivity | exact Hc].
  - intros Hne. destruct interpolation as [| [i w] r]; [contradiction |].
    unfold Machine._generate. simpl. unfold py_index. destruct i; reflexivity.
Qed.

(** *** A degenerate axis *)

Lemma SFsub_diag (x : spec_float) :
  match x with S754_finite _ _ _ => True | S754_zero _ => True | _ => False end ->
  Machine.is_zero (SFsub Machine.prec Machine.emax x x) = true.
Proof.
  destruct x as [s | s | | s m e]; simpl; intros F; try contradiction.
  - destruct s; reflexivity.
  - rewrite Z.min_id, Z.sub_diag. reflexivity.
Qed.

(** X29. An axis whose two ends are the same finite number is fatal:
    [_rescale] raises, [ZeroDivisionError] unless a conversion to a double
    has failed before. *)
Theorem rescale_degenerate_axis_is_fatal :
  forall x bottom : Machine.num,
    Machine.finite bottom ->
    exists e,
      Machine._rescale x bottom bottom = Raise e /\
      (e = ZeroDivisionError \/ e = OverflowError).
Proof.
  intros x bottom F. unfold Machine._rescale.
  destruct (Machine.sub x bottom) as [a | e] eqn:A; simpl.
  2:{ exists e. split; [reflexivity |]. right. eapply arith_Raise. exact A. }
  destruct bottom as [b | b]; unfold Machine.sub at 1, Machine.arith; simpl.
  - rewrite Z.sub_diag. destruct a as [z | y]; simpl.
    + exists ZeroDivisionError. split; auto.
    + exists ZeroDivisionError. split; auto.
  - pose proof (SFsub_diag b) as Z.
    assert (Fb : match b with S754_finite _ _ _ => True | S754_zero _ => True | _ => False end).
    { destruct b; simpl in *; auto. }
    specialize (Z Fb).
    unfold Machine.truediv.
    destruct a as [z | y].
    + destruct (Machine.to_float (Machine.Int z)) as [fz | e] eqn:T; simpl.
      * unfold Machine.float in *. rewrite Z. exists ZeroDivisionError. split; auto.
      * exists e. split; [reflexivity |]. right. eapply to_float_Raise. exact T.
    + simpl. unfold Machine.float in *. rewrite Z. exists ZeroDivisionError. split; auto.
Qed.

Lemma rescale_degenerate_axis_is_fatal_witness :
  Machine.finite (Machine.Int 100) /\
  exists e,
    Machine._rescale (Machine.Int 50) (Machine.Int 100) (Machine.Int 100) = Raise e /\
    (e = ZeroDivisionError \/ e = OverflowError).
Proof.
  split; [exact I |].
  exact (rescale_degenerate_axis_is_fatal (Machine.Int 50) (Machine.Int 100) I).
Defined.
